(** * GiNaC: a shallow embedding of the archive, matrix, container,
      handle and printing code, with the properties of the specification.

    Conventions of the embedding.
    - C++ [int] and [unsigned] values are integers of [Z]; where the source
      relies on 32-bit unsigned arithmetic the reduction modulo [2^32] is
      written out ([wrap]).
    - A [std::vector] or [std::list] is a [list]; indexing uses stdpp's
      lookup [l !! i], and what the source does out of range is written out.
    - A function that may [throw] returns a [result]: [Ok v], [Throw e] for
      the exception class [e], or [Undefined] where the C++ code has no
      defined behaviour (reading past the end of a container or of a
      stream).
    - Streams are lists of bytes; an output stream grows at its end. *)

From Stdlib Require Import ZArith List Lia Bool Recdef FunInd.
From Stdlib Require Import String Ascii.
From stdpp Require Import base list gmap sorting.

Set Warnings "-register-all".

Local Open Scope Z_scope.

(** ** Exceptions and results *)

Inductive exception : Type :=
  | range_error
  | runtime_error
  | logic_error
  | invalid_argument
  | overflow_error.

(** [std::range_error] and [std::overflow_error] derive from
    [std::runtime_error]: a handler for [runtime_error] catches them too. *)
Definition derives_from_runtime_error (e : exception) : bool :=
  match e with
  | runtime_error | range_error | overflow_error => true
  | logic_error | invalid_argument => false
  end.

Inductive result (A : Type) : Type :=
  | Ok (a : A)
  | Throw (e : exception)
  | Undefined.

Arguments Ok {A} a.
Arguments Throw {A} e.
Arguments Undefined {A}.

Definition rbind {A B : Type} (k : A -> result B) (r : result A) : result B :=
  match r with
  | Ok a => k a
  | Throw e => Throw e
  | Undefined => Undefined
  end.

#[export] Instance result_ret : MRet result := fun A a => Ok a.
#[export] Instance result_bind : MBind result := fun A B k r => rbind k r.

Definition returns {A : Type} (r : result A) : Prop :=
  exists a, r = Ok a.

(** 32-bit unsigned arithmetic. *)
Definition wrap (z : Z) : Z := z mod 2 ^ 32.

Definition is_unsigned (z : Z) : Prop := 0 <= z < 2 ^ 32.

(** ** ex.h: the expression handle *)

Module Handle.

(** The address of a [basic] object. *)
Definition basic_ptr := positive.

(** [class ex]: the only member is [basic *bp]. *)
Record ex : Type := mk_ex { bp : basic_ptr }.

#[export] Instance ex_eq_dec : EqDecision ex.
Proof. solve_decision. Defined.

(** The part of [class basic] the handle touches: the flag word and the
    reference count (an [unsigned]). *)
Record basic : Type := mk_basic { flags : Z; refcount : Z }.

(** Modelled from the spec: the [status_flags] bits of flags.h ("flag bits
    (evaluated, expanded, hash-computed, dynamically-allocated)"). *)
Module status_flags.
Definition dynallocated : Z := 0x0001.
Definition evaluated : Z := 0x0002.
Definition expanded : Z := 0x0004.
Definition hash_calculated : Z := 0x0008.
End status_flags.

(** The free store: which [basic] lives at which address. *)
Definition heap := gmap basic_ptr basic.

Definition incr_refcount (b : basic) : basic :=
  mk_basic (flags b) (wrap (refcount b + 1)).

(** [ex::ex() : bp(exZERO().bp) { ASSERT(...); ++bp->refcount; }].
    [zero] is the handle [exZERO()] returns.  The assertions ask for a live,
    dynamically allocated node; without them the increment goes through a
    bad pointer. *)
Definition ex_default (zero : ex) (h : heap) : result (ex * heap) :=
  match h !! bp zero with
  | Some b =>
      if Z.land (flags b) status_flags.dynallocated =? 0 then Undefined
      else Ok (mk_ex (bp zero), <[bp zero := incr_refcount b]> h)
  | None => Undefined
  end.

(** [ex::ex(ex const & other) : bp(other.bp) { ++bp->refcount; }] *)
Definition ex_copy (other : ex) (h : heap) : result (ex * heap) :=
  match h !! bp other with
  | Some b =>
      if Z.land (flags b) status_flags.dynallocated =? 0 then Undefined
      else Ok (mk_ex (bp other), <[bp other := incr_refcount b]> h)
  | None => Undefined
  end.

(** [int ex::compare(ex const & other) const]: the pointer test, then the
    virtual [basic::compare] of the node, here [basic_compare]. *)
Definition compare (basic_compare : basic_ptr -> basic_ptr -> Z)
    (e other : ex) : Z :=
  if decide (bp e = bp other) then 0
  else basic_compare (bp e) (bp other).

(** [bool ex::is_equal(ex const & other) const] *)
Definition is_equal (basic_is_equal : basic_ptr -> basic_ptr -> bool)
    (e other : ex) : bool :=
  if decide (bp e = bp other) then true
  else basic_is_equal (bp e) (bp other).

(** [bool ex::is_zero(void) const {return compare(exZERO()) == 0;}] *)
Definition is_zero (basic_compare : basic_ptr -> basic_ptr -> Z)
    (zero : ex) (e : ex) : bool :=
  compare basic_compare e zero =? 0.

(** Modelled from the spec: [are_ex_trivially_equal] of ex.h, used by
    container.pl and absent from the sources here; "structural identity
    (pointer equality)" of the two handles. *)
Definition are_ex_trivially_equal (e1 e2 : ex) : bool :=
  bool_decide (bp e1 = bp e2).

Definition decr_refcount (b : basic) : basic :=
  mk_basic (flags b) (wrap (refcount b - 1)).

(** [~ex() { ASSERT(...); if (--bp->refcount == 0) { delete bp; } }] *)
Definition ex_destroy (e : ex) (h : heap) : result heap :=
  match h !! bp e with
  | Some b =>
      if Z.land (flags b) status_flags.dynallocated =? 0 then Undefined
      else
        let b := decr_refcount b in
        if refcount b =? 0 then Ok (delete (bp e) h)
        else Ok (<[bp e := b]> h)
  | None => Undefined
  end.

(** [ex const & operator=(ex const & other)]:
    [++other.bp->refcount; basic * tmpbp=other.bp;
     if (--bp->refcount==0) { delete bp; } bp=tmpbp; return *this;]
    The result is the handle after the assignment. *)
Definition ex_assign (this other : ex) (h : heap) : result (ex * heap) :=
  match h !! bp this, h !! bp other with
  | Some b, Some bo =>
      if (Z.land (flags b) status_flags.dynallocated =? 0)
         || (Z.land (flags bo) status_flags.dynallocated =? 0)
      then Undefined
      else
        let h := <[bp other := incr_refcount bo]> h in
        let tmpbp := bp other in
        match h !! bp this with
        | Some b =>
            let b := decr_refcount b in
            Ok (mk_ex tmpbp,
                if refcount b =? 0 then delete (bp this) h
                else <[bp this := b]> h)
        | None => Undefined
        end
  | _, _ => Undefined
  end.


End Handle.

(** ** archive.cpp *)

Module Archive.

Definition byte := Z.
Definition ostream := list byte.
Definition istream := list byte.

(** [os.put(c)] *)
Definition put (os : ostream) (c : byte) : ostream := os ++ [c].

(** [static void write_unsigned(std::ostream &os, unsigned int val)]:
    [while (val >= 0x80) { os.put((val & 0x7f) | 0x80); val >>= 7; }
     os.put(val);] *)
Function write_unsigned (os : ostream) (val : Z) {measure Z.to_nat val}
  : ostream :=
  if 0x80 <=? val
  then write_unsigned (put os (Z.lor (Z.land val 0x7f) 0x80)) (Z.shiftr val 7)
  else put os val.
Proof.
  intros _ val Hge. apply Z.leb_le in Hge.
  rewrite Z.shiftr_div_pow2 by lia.
  apply Z2Nat.inj_lt; try lia.
  - apply Z.div_pos; lia.
  - apply Z.div_lt_upper_bound; lia.
Defined.

(** [static unsigned int read_unsigned(std::istream &is)]: the [do ... while
    (b & 0x80)] loop, by recursion on the bytes left in the stream.  [ret]
    and [shift] are the two [unsigned] locals.  A [get] on an exhausted
    stream leaves [b2] without a value, and a shift by 32 or more has no
    defined result: both are [Undefined]. *)
Fixpoint read_unsigned_loop (ins : istream) (ret shift : Z)
  : result (Z * istream) :=
  match ins with
  | [] => Undefined
  | b :: ins' =>
      if 32 <=? shift then Undefined
      else
        let ret' := Z.lor ret (wrap (Z.shiftl (Z.land b 0x7f) shift)) in
        let shift' := wrap (shift + 7) in
        if Z.land b 0x80 =? 0
        then Ok (ret', ins')
        else read_unsigned_loop ins' ret' shift'
  end.

Definition read_unsigned (ins : istream) : result (Z * istream) :=
  read_unsigned_loop ins 0 0.

(** *** The archive and its nodes *)

Definition archive_atom := Z.
Definition archive_node_id := Z.

Inductive property_type : Type :=
  | PTYPE_BOOL
  | PTYPE_UNSIGNED
  | PTYPE_STRING
  | PTYPE_NODE.

(** The [enum] values and the cast [(property_type)(name_type & 7)], which
    can give a value outside the enumeration. *)
Definition property_type_code (t : property_type) : Z :=
  match t with
  | PTYPE_BOOL => 0
  | PTYPE_UNSIGNED => 1
  | PTYPE_STRING => 2
  | PTYPE_NODE => 3
  end.

Record property : Type := mk_property {
  ptype : Z;
  pname : archive_atom;
  pvalue : Z
}.

Record archive_node : Type := mk_archive_node {
  props : list property;
  has_expression : bool;
  e : Handle.ex
}.

Record archived_ex : Type := mk_archived_ex {
  name : archive_atom;
  root : archive_node_id
}.

Record archive : Type := mk_archive {
  atoms : list string;
  exprs : list archived_ex;
  nodes : list archive_node
}.

Definition empty_archive : archive := mk_archive [] [] [].

(** [bool archive_node::has_same_ex_as(const archive_node &other) const] *)
Definition has_same_ex_as (n other : archive_node) : bool :=
  if negb (has_expression n) || negb (has_expression other) then false
  else bool_decide (Handle.bp (e n) = Handle.bp (e other)).

(** The search loop of [archive::add_node]: [i] walks the vector, [id]
    counts. *)
Fixpoint add_node_search (i : list archive_node) (n : archive_node)
    (id : archive_node_id) : option archive_node_id :=
  match i with
  | [] => None
  | x :: i' =>
      if has_same_ex_as x n then Some id
      else add_node_search i' n (wrap (id + 1))
  end.

(** [archive_node_id archive::add_node(const archive_node &n)] *)
Definition add_node (ar : archive) (n : archive_node)
  : archive_node_id * archive :=
  match add_node_search (nodes ar) n 0 with
  | Some id => (id, ar)
  | None =>
      (wrap (Z.of_nat (length (nodes ar))),
       mk_archive (atoms ar) (exprs ar) (nodes ar ++ [n]))
  end.

(** [archive_node &archive::get_node(archive_node_id id)] *)
Definition get_node (ar : archive) (id : archive_node_id)
  : result archive_node :=
  if Z.of_nat (length (nodes ar)) <=? id then Throw range_error
  else match nodes ar !! Z.to_nat id with
       | Some n => Ok n
       | None => Undefined
       end.

(** [const std::string &archive::unatomize(archive_atom id) const] *)
Definition unatomize (ar : archive) (id : archive_atom) : result string :=
  if Z.of_nat (length (atoms ar)) <=? id then Throw range_error
  else match atoms ar !! Z.to_nat id with
       | Some s => Ok s
       | None => Undefined
       end.

Fixpoint atomize_search (i : list string) (s : string) (id : archive_atom)
  : option archive_atom :=
  match i with
  | [] => None
  | x :: i' =>
      if String.eqb x s then Some id else atomize_search i' s (wrap (id + 1))
  end.

(** [archive_atom archive::atomize(const std::string &s) const]; [atoms] is
    a mutable member. *)
Definition atomize (ar : archive) (s : string) : archive_atom * archive :=
  match atomize_search (atoms ar) s 0 with
  | Some id => (id, ar)
  | None =>
      (wrap (Z.of_nat (length (atoms ar))),
       mk_archive (atoms ar ++ [s]) (exprs ar) (nodes ar))
  end.

(** Modelled from the spec: the class-specific [basic::archive] hooks, which
    are absent from the sources here ("kind-specific archive hooks that add
    the properties the node needs to be reconstructed").  An expression to
    archive is its node address together with the calls its hook makes on
    the [archive_node], a sub-expression being passed to [add_ex]. *)
Inductive aex : Type :=
  | AEx (p : Handle.basic_ptr) (hook : list acall)
with acall : Type :=
  | call_add_bool (nm : string) (value : bool)
  | call_add_unsigned (nm : string) (value : Z)
  | call_add_string (nm : string) (value : string)
  | call_add_ex (nm : string) (value : aex).

Definition aex_bp (x : aex) : Handle.basic_ptr :=
  match x with AEx p _ => p end.

Definition push_prop (n : archive_node) (pr : property) : archive_node :=
  mk_archive_node (props n ++ [pr]) (has_expression n) (e n).

(** [archive_node::add_bool], [add_unsigned], [add_string]: each atomizes
    its name (and string value, after the name) in the node's archive and
    appends one property. *)
Definition add_bool (ar : archive) (n : archive_node) (nm : string)
    (value : bool) : archive_node * archive :=
  let '(a, ar) := atomize ar nm in
  (push_prop n (mk_property (property_type_code PTYPE_BOOL) a
                  (if value then 1 else 0)), ar).

Definition add_unsigned (ar : archive) (n : archive_node) (nm : string)
    (value : Z) : archive_node * archive :=
  let '(a, ar) := atomize ar nm in
  (push_prop n (mk_property (property_type_code PTYPE_UNSIGNED) a value), ar).

Definition add_string (ar : archive) (n : archive_node) (nm : string)
    (value : string) : archive_node * archive :=
  let '(a, ar) := atomize ar nm in
  let '(v, ar) := atomize ar value in
  (push_prop n (mk_property (property_type_code PTYPE_STRING) a v), ar).

(** The calls a hook makes on the node under construction, in order.
    [archive_node::add_ex] is
    [id = a.add_node(archive_node(a, value));
     props.push_back(property(a.atomize(name), PTYPE_NODE, id));]
    where [make] is the constructor of [archive_node] from an expression. *)
Section RunHook.

Variable make : archive -> aex -> archive_node * archive.

Fixpoint run_hook (calls : list acall) (n : archive_node) (ar : archive)
  : archive_node * archive :=
  match calls with
  | [] => (n, ar)
  | call_add_bool nm v :: calls' =>
      let '(n, ar) := add_bool ar n nm v in run_hook calls' n ar
  | call_add_unsigned nm v :: calls' =>
      let '(n, ar) := add_unsigned ar n nm v in run_hook calls' n ar
  | call_add_string nm v :: calls' =>
      let '(n, ar) := add_string ar n nm v in run_hook calls' n ar
  | call_add_ex nm value :: calls' =>
      let '(child, ar) := make ar value in
      let '(id, ar) := add_node ar child in
      let '(a, ar) := atomize ar nm in
      run_hook calls'
        (push_prop n (mk_property (property_type_code PTYPE_NODE) a id)) ar
  end.

End RunHook.

(** [archive_node::archive_node(archive &ar, const ex &expr)
      : a(ar), has_expression(true), e(expr) { expr.bp->archive( *this ); }] *)
Fixpoint make_archive_node (ar : archive) (expr : aex)
  : archive_node * archive :=
  match expr with
  | AEx p hook =>
      run_hook make_archive_node hook
        (mk_archive_node [] true (Handle.mk_ex p)) ar
  end.

(** [void archive::archive_ex(const ex &e, const char *name)] *)
Definition archive_ex (ar : archive) (expr : aex) (nm : string) : archive :=
  let '(n, ar) := make_archive_node ar expr in
  let '(id, ar) := add_node ar n in
  let '(a, ar) := atomize ar nm in
  mk_archive (atoms ar) (exprs ar ++ [mk_archived_ex a id]) (nodes ar).

(** The node addresses the archive holds a node for. *)
Definition stored_pointers (ns : list archive_node) : list Handle.basic_ptr :=
  map (fun n => Handle.bp (e n)) (List.filter has_expression ns).

(** The property preserved: what [f] does to the archive keeps the stored
    pointers free of duplicates. *)
Definition keeps_unique {A : Type} (f : archive -> A * archive) : Prop :=
  forall ar, NoDup (stored_pointers (nodes ar)) ->
             NoDup (stored_pointers (nodes (snd (f ar)))).

(** One call that archives: [add_node] with any node, or [archive_ex]. *)
Inductive archive_step : archive -> archive -> Prop :=
  | step_add_node (ar : archive) (n : archive_node) :
      archive_step ar (snd (add_node ar n))
  | step_archive_ex (ar : archive) (expr : aex) (nm : string) :
      archive_step ar (archive_ex ar expr nm).

(** The archives reached from a new one by such calls. *)
Definition archived : archive -> Prop := rtc archive_step empty_archive.

(** Induction on expressions to archive, through the calls of the hooks. *)
Section AexInd.

Variable P : aex -> Prop.

Definition call_holds (c : acall) : Prop :=
  match c with
  | call_add_ex _ value => P value
  | _ => True
  end.

Hypothesis P_node : forall p hook, Forall call_holds hook -> P (AEx p hook).

Fixpoint aex_nested_ind (x : aex) : P x :=
  match x with
  | AEx p hook =>
      P_node p hook
        ((fix all (l : list acall) : Forall call_holds l :=
            match l with
            | [] => List.Forall_nil _
            | c :: l' =>
                @List.Forall_cons acall call_holds c l'
                  (match c return call_holds c with
                   | call_add_ex _ value => aex_nested_ind value
                   | _ => I
                   end)
                  (all l')
            end) hook)
  end.

End AexInd.

(** *** Reading an archive from a stream *)

(** [is.get(c)]; at the end of the stream [c] is left without a value. *)
Definition get (ins : istream) : result (byte * istream) :=
  match ins with
  | [] => Undefined
  | c :: ins' => Ok (c, ins')
  end.

(** [getline(is, str, '\0')]: the characters up to the next zero byte, which
    is consumed, or up to the end of the stream. *)
Fixpoint getline (ins : istream) : string * istream :=
  match ins with
  | [] => (EmptyString, [])
  | c :: ins' =>
      if c =? 0 then (EmptyString, ins')
      else let '(s, rest) := getline ins' in
           (String (ascii_of_N (Z.to_N c)) s, rest)
  end.

Definition default_property : property := mk_property 0 0 0.

(** The loop of [operator>>(std::istream &, archive_node &)] over the
    properties [i .. i + count - 1]. *)
Fixpoint read_props (count i : nat) (ps : list property) (ins : istream)
  : result (list property * istream) :=
  match count with
  | O => Ok (ps, ins)
  | S count' =>
      '(name_type, ins) ← read_unsigned ins;
      '(value, ins) ← read_unsigned ins;
      read_props count' (S i)
        (<[i := mk_property (Z.land name_type 7) (Z.shiftr name_type 3) value]> ps)
        ins
  end.

(** [std::istream &operator>>(std::istream &is, archive_node &n)] *)
Definition read_archive_node (ins : istream) (n : archive_node)
  : result (archive_node * istream) :=
  '(num_props, ins) ← read_unsigned ins;
  let ps := resize (Z.to_nat num_props) default_property (props n) in
  '(ps, ins) ← read_props (Z.to_nat num_props) 0 ps ins;
  Ok (mk_archive_node ps (has_expression n) (e n), ins).

Fixpoint read_atoms (count i : nat) (ats : list string) (ins : istream)
  : list string * istream :=
  match count with
  | O => (ats, ins)
  | S count' =>
      let '(s, ins) := getline ins in
      read_atoms count' (S i) (<[i := s]> ats) ins
  end.

Fixpoint read_exprs (count i : nat) (xs : list archived_ex) (ins : istream)
  : result (list archived_ex * istream) :=
  match count with
  | O => Ok (xs, ins)
  | S count' =>
      '(nm, ins) ← read_unsigned ins;
      '(rt, ins) ← read_unsigned ins;
      read_exprs count' (S i) (<[i := mk_archived_ex nm rt]> xs) ins
  end.

Fixpoint read_nodes (count i : nat) (ns : list archive_node) (ins : istream)
  : result (list archive_node * istream) :=
  match count with
  | O => Ok (ns, ins)
  | S count' =>
      match ns !! i with
      | None => Undefined
      | Some n =>
          '(n, ins) ← read_archive_node ins n;
          read_nodes count' (S i) (<[i := n]> ns) ins
      end
  end.

Section Reader.

(** The two macros of config.h, which is absent from the sources here. *)
Variables ARCHIVE_VERSION ARCHIVE_AGE : Z.

(** The test [version > ARCHIVE_VERSION || version < ARCHIVE_VERSION -
    ARCHIVE_AGE]: [version] is [unsigned], so both [int] operands are
    converted to [unsigned] before they are compared. *)
Definition version_rejected (version : Z) : bool :=
  (wrap ARCHIVE_VERSION <? version)
  || (version <? wrap (ARCHIVE_VERSION - ARCHIVE_AGE)).

(** The head of [operator>>(std::istream &, archive &)]: signature and
    version. *)
Definition read_header (ins : istream) : result (Z * istream) :=
  '(c1, ins) ← get ins;
  '(c2, ins) ← get ins;
  '(c3, ins) ← get ins;
  '(c4, ins) ← get ins;
  if negb (c1 =? 71) || negb (c2 =? 65) || negb (c3 =? 82) || negb (c4 =? 67)
  then Throw runtime_error
  else
    '(version, ins) ← read_unsigned ins;
    if version_rejected version then Throw runtime_error
    else Ok (version, ins).

(** The node a [resize] of [nodes] fills in: [archive_node(ar)], no
    expression attached; its handle is a default [ex], the node [zero]. *)
Definition fresh_node (zero : Handle.ex) : archive_node :=
  mk_archive_node [] false zero.

(** [std::istream &operator>>(std::istream &is, archive &ar)] *)
Definition read_archive (zero : Handle.ex) (ins : istream) (ar : archive)
  : result (archive * istream) :=
  '(_, ins) ← read_header ins;
  '(num_atoms, ins) ← read_unsigned ins;
  let ats := resize (Z.to_nat num_atoms) EmptyString (atoms ar) in
  let '(ats, ins) := read_atoms (Z.to_nat num_atoms) 0 ats ins in
  '(num_exprs, ins) ← read_unsigned ins;
  let xs := resize (Z.to_nat num_exprs) (mk_archived_ex 0 0) (exprs ar) in
  '(xs, ins) ← read_exprs (Z.to_nat num_exprs) 0 xs ins;
  '(num_nodes, ins) ← read_unsigned ins;
  let ns := resize (Z.to_nat num_nodes) (fresh_node zero) (nodes ar) in
  '(ns, ins) ← read_nodes (Z.to_nat num_nodes) 0 ns ins;
  Ok (mk_archive ats xs ns, ins).

End Reader.

(** *** Expressions stored, and writing an archive to a stream *)

(** [unsigned int archive::num_expressions(void) const] *)
Definition num_expressions (ar : archive) : Z :=
  wrap (Z.of_nat (length (exprs ar))).

(** [const archive_node &archive::get_top_node(unsigned int index) const]:
    the index is checked, the root id found there is not. *)
Definition get_top_node (ar : archive) (index : Z) : result archive_node :=
  if Z.of_nat (length (exprs ar)) <=? index then Throw range_error
  else match exprs ar !! Z.to_nat index with
       | None => Undefined
       | Some ae =>
           match nodes ar !! Z.to_nat (root ae) with
           | Some n => Ok n
           | None => Undefined
           end
       end.

(** [void archive::clear(void)] *)
Definition clear (ar : archive) : archive := mk_archive [] [] [].

(** [void archive_node::forget(void)]: [has_expression = false; e = 0;],
    the handle of the number zero being [zero]. *)
Definition forget_node (zero : Handle.ex) (n : archive_node) : archive_node :=
  mk_archive_node (props n) false zero.

(** [void archive::forget(void)] *)
Definition forget (zero : Handle.ex) (ar : archive) : archive :=
  mk_archive (atoms ar) (exprs ar) (map (forget_node zero) (nodes ar)).

(** The loop of [operator<<(std::ostream &, const archive_node &)] over the
    properties. *)
Fixpoint write_props (os : ostream) (ps : list property) : ostream :=
  match ps with
  | [] => os
  | pr :: ps' =>
      let os :=
        write_unsigned os (wrap (Z.lor (ptype pr) (wrap (Z.shiftl (pname pr) 3)))) in
      let os := write_unsigned os (pvalue pr) in
      write_props os ps'
  end.

(** [std::ostream &operator<<(std::ostream &os, const archive_node &n)] *)
Definition write_archive_node (os : ostream) (n : archive_node) : ostream :=
  let num_props := wrap (Z.of_nat (length (props n))) in
  let os := write_unsigned os num_props in
  write_props os (props n).

(** [os << s << std::ends]: the characters of the string, then a zero
    byte. *)
Fixpoint write_string (os : ostream) (s : string) : ostream :=
  match s with
  | EmptyString => put os 0
  | String c s' => write_string (put os (Z.of_N (N_of_ascii c))) s'
  end.

Fixpoint write_atoms (os : ostream) (ats : list string) : ostream :=
  match ats with
  | [] => os
  | s :: ats' => write_atoms (write_string os s) ats'
  end.

Fixpoint write_exprs (os : ostream) (xs : list archived_ex) : ostream :=
  match xs with
  | [] => os
  | x :: xs' =>
      let os := write_unsigned os (name x) in
      let os := write_unsigned os (root x) in
      write_exprs os xs'
  end.

Fixpoint write_nodes (os : ostream) (ns : list archive_node) : ostream :=
  match ns with
  | [] => os
  | n :: ns' => write_nodes (write_archive_node os n) ns'
  end.

(** [std::ostream &operator<<(std::ostream &os, const archive &ar)]; the
    first argument is the macro [ARCHIVE_VERSION]. *)
Definition write_archive (ARCHIVE_VERSION : Z) (os : ostream) (ar : archive)
  : ostream :=
  let os := put os 71 in
  let os := put os 65 in
  let os := put os 82 in
  let os := put os 67 in
  let os := write_unsigned os (wrap ARCHIVE_VERSION) in
  let num_atoms := wrap (Z.of_nat (length (atoms ar))) in
  let os := write_unsigned os num_atoms in
  let os := write_atoms os (atoms ar) in
  let num_exprs := wrap (Z.of_nat (length (exprs ar))) in
  let os := write_unsigned os num_exprs in
  let os := write_exprs os (exprs ar) in
  let num_nodes := wrap (Z.of_nat (length (nodes ar))) in
  let os := write_unsigned os num_nodes in
  write_nodes os (nodes ar).

(** *** Looking up the properties of a node *)

(** The search loops of [archive_node::find_bool], [find_unsigned] and
    [find_string]: the first property of the type and name asked for. *)
Fixpoint find_property (ps : list property) (type : property_type)
    (name_atom : archive_atom) : option property :=
  match ps with
  | [] => None
  | pr :: ps' =>
      if (ptype pr =? property_type_code type) && (pname pr =? name_atom)
      then Some pr
      else find_property ps' type name_atom
  end.

(** [bool archive_node::find_bool(const std::string &name, bool &ret) const]:
    [None] is [return false], which leaves [ret] as it was.  The name is
    atomized in the node's archive, which may add it there. *)
Definition find_bool (ar : archive) (n : archive_node) (nm : string)
  : option bool * archive :=
  let '(name_atom, ar) := atomize ar nm in
  (match find_property (props n) PTYPE_BOOL name_atom with
   | Some pr => Some (negb (pvalue pr =? 0))
   | None => None
   end, ar).

(** [bool archive_node::find_unsigned(const std::string &name,
      unsigned int &ret) const] *)
Definition find_unsigned (ar : archive) (n : archive_node) (nm : string)
  : option Z * archive :=
  let '(name_atom, ar) := atomize ar nm in
  (match find_property (props n) PTYPE_UNSIGNED name_atom with
   | Some pr => Some (pvalue pr)
   | None => None
   end, ar).

(** [bool archive_node::find_string(const std::string &name,
      std::string &ret) const]; [unatomize] may raise. *)
Definition find_string (ar : archive) (n : archive_node) (nm : string)
  : result (option string) * archive :=
  let '(name_atom, ar) := atomize ar nm in
  (match find_property (props n) PTYPE_STRING name_atom with
   | Some pr => s ← unatomize ar (pvalue pr); Ok (Some s)
   | None => Ok None
   end, ar).

(** The loop of [archive_node::find_ex_node]: the property number [index]
    among those of type [PTYPE_NODE] with the name asked for. *)
Fixpoint find_node_property (ps : list property) (name_atom : archive_atom)
    (index found_index : Z) : option property :=
  match ps with
  | [] => None
  | pr :: ps' =>
      if (ptype pr =? property_type_code PTYPE_NODE) && (pname pr =? name_atom)
      then if found_index =? index then Some pr
           else find_node_property ps' name_atom index (wrap (found_index + 1))
      else find_node_property ps' name_atom index found_index
  end.

(** [const archive_node &archive_node::find_ex_node(const std::string &name,
      unsigned int index) const] *)
Definition find_ex_node (ar : archive) (n : archive_node) (nm : string)
    (index : Z) : result archive_node * archive :=
  let '(name_atom, ar) := atomize ar nm in
  (match find_node_property (props n) name_atom index 0 with
   | Some pr => get_node ar (pvalue pr)
   | None => Throw runtime_error
   end, ar).

(** A property of the archive that an operation on it keeps. *)
Definition keeps {A : Type} (I : archive -> Prop) (f : archive -> A * archive)
  : Prop :=
  forall ar, I ar -> I (snd (f ar)).

(** The archive [a] holds what [ar] holds, at the same indices: the
    expressions are the same, atoms and nodes were only appended. *)
Definition grows (ar a : archive) : Prop :=
  exprs a = exprs ar /\
  atoms ar `prefix_of` atoms a /\
  nodes ar `prefix_of` nodes a.

(** The three tables can be indexed by an [unsigned]. *)
Definition fits_unsigned (ar : archive) : Prop :=
  Z.of_nat (length (atoms ar)) < 2 ^ 32 /\
  Z.of_nat (length (exprs ar)) < 2 ^ 32 /\
  Z.of_nat (length (nodes ar)) < 2 ^ 32.

(** Every archived expression names an atom of the archive and has for
    root a stored node that carries an expression. *)
Definition exprs_valid (ar : archive) : Prop :=
  forall ae, In ae (exprs ar) ->
    (exists s, atoms ar !! Z.to_nat (name ae) = Some s /\ 0 <= name ae) /\
    (exists x, nodes ar !! Z.to_nat (root ae) = Some x /\ 0 <= root ae /\
               has_expression x = true).

(** What the stream format can hold, read off the writers: a string is
    ended by a zero byte, so it holds none; the type of a property takes
    the low three bits of an [unsigned] and its name the other 29. *)
Fixpoint no_nul (s : string) : bool :=
  match s with
  | EmptyString => true
  | String c s' => negb (Ascii.eqb c Ascii.zero) && no_nul s'
  end.

Definition valid_property (pr : property) : Prop :=
  0 <= ptype pr < 8 /\ 0 <= pname pr < 2 ^ 29 /\ is_unsigned (pvalue pr).

Definition valid_node (n : archive_node) : Prop :=
  Z.of_nat (length (props n)) < 2 ^ 32 /\ Forall valid_property (props n).

Definition valid_archived_ex (x : archived_ex) : Prop :=
  is_unsigned (name x) /\ is_unsigned (root x).

Definition storable (ar : archive) : Prop :=
  fits_unsigned ar /\
  Forall (fun s => no_nul s = true) (atoms ar) /\
  Forall valid_archived_ex (exprs ar) /\
  Forall valid_node (nodes ar).

(** A node read from the stream into the node [n0]: the properties are
    those read, the expression of [n0] stays. *)
Definition read_into (n n0 : archive_node) : archive_node :=
  mk_archive_node (props n) (has_expression n0) (e n0).

(** What the writer asks of a property: a type of three bits, and two
    [unsigned] values. *)
Definition writable_property (pr : property) : Prop :=
  0 <= ptype pr < 8 /\ is_unsigned (pname pr) /\ is_unsigned (pvalue pr).

(** The property as it is after a pass through the stream: [name << 3]
    drops the three high bits of the name. *)
Definition truncate_name (pr : property) : property :=
  mk_property (ptype pr) (pname pr mod 2 ^ 29) (pvalue pr).

End Archive.

(** ** The operations of [ex] the matrix code relies on *)

(** Modelled from the spec: the [info_flags] of flags.h the code below asks
    for ("info(predicate)": boolean attribute check). *)
Module info_flags.
Inductive t : Type := numeric | relation_equal | symbol | list.
End info_flags.

(** ex.cpp, operators.cpp, numeric.cpp, normal.cpp and the node classes are
    absent from the sources here; the matrix code and [lsolve] are written
    over the operations they call on expressions.  [ex_div] raises on an
    exact zero divisor; [ex_op] raises on a bad index; [ex_eval] and
    [ex_evalf] take the recursion level and may raise.  [ex_equals_matrix e
    r c m] is [basic::is_equal] of the matrix with shape [r], [c] and
    entries [m] against the node of [e]. *)
Class ExOps (ex : Type) : Type := {
  exZERO : ex;
  exONE : ex;
  exMINUSONE : ex;
  ex_of_int : Z -> ex;
  ex_add : ex -> ex -> ex;
  ex_sub : ex -> ex -> ex;
  ex_mul : ex -> ex -> ex;
  ex_div : ex -> ex -> result ex;
  ex_neg : ex -> ex;
  ex_normal : ex -> ex;
  ex_expand : ex -> ex;
  ex_is_zero : ex -> bool;
  ex_is_equal : ex -> ex -> bool;
  ex_info : ex -> info_flags.t -> bool;
  ex_nops : ex -> Z;
  ex_op : ex -> Z -> result ex;
  ex_has : ex -> ex -> bool;
  ex_coeff : ex -> ex -> Z -> ex;
  ex_equals_matrix : ex -> Z -> Z -> list ex -> bool;
  ex_relational_equal : ex -> ex -> ex;
  ex_lst : list ex -> ex;
  ex_eval : ex -> Z -> result ex;
  ex_evalf : ex -> Z -> result ex
}.

(** Counted loops: [for (i = lo; i < hi; ++i) body], the body threading the
    state and able to raise. *)
Fixpoint for_up {S : Type} (n : nat) (i : Z) (body : Z -> S -> result S)
    (s : S) : result S :=
  match n with
  | O => Ok s
  | Datatypes.S n' => s' ← body i s; for_up n' (i + 1) body s'
  end.

Definition for_range {S : Type} (lo hi : Z) (body : Z -> S -> result S)
    (s : S) : result S :=
  for_up (Z.to_nat (hi - lo)) lo body s.

(** [v[i]] and [v[i] = x] on a [std::vector]: no bounds check. *)
Definition vget {A : Type} (v : list A) (i : Z) : result A :=
  if i <? 0 then Undefined
  else match v !! Z.to_nat i with
       | Some x => Ok x
       | None => Undefined
       end.

Definition vset {A : Type} (v : list A) (i : Z) (x : A) : result (list A) :=
  if (i <? 0) || (Z.of_nat (length v) <=? i) then Undefined
  else Ok (<[Z.to_nat i := x]> v).

(** ** matrix.cpp *)

Module Matrix.

Section WithEx.

Context {ex : Type} `{ExOps ex}.

(** The constant of utils.h bounding the recursion depth; utils.h is absent
    from the sources here. *)
Variable max_recursion_level : Z.

(** [class matrix : public basic]: [flags] and [refcount] are the members of
    [basic] the code below reads; [m] holds the entries row by row. *)
Record matrix : Type := mk_matrix {
  flags : Z;
  refcount : Z;
  row : Z;
  col : Z;
  m : list ex
}.

Definition rows (M : matrix) : Z := row M.
Definition cols (M : matrix) : Z := col M.

(** [matrix::matrix(int r, int c)]: the [r] x [c] zero matrix. *)
Definition matrix_zero (r c : Z) : matrix :=
  mk_matrix 0 0 r c (replicate (Z.to_nat (r * c)) exZERO).

(** [matrix::matrix(int r, int c, vector<ex> const & m2)] *)
Definition matrix_of (r c : Z) (m2 : list ex) : matrix :=
  mk_matrix 0 0 r c m2.

(** [matrix::matrix(matrix const & other)]: a copy is a new object, not
    referenced by any handle. *)
Definition matrix_copy (other : matrix) : matrix :=
  mk_matrix 0 0 (row other) (col other) (m other).

(** The entries and shape fit together. *)
Definition wf_matrix (M : matrix) : Prop :=
  0 <= row M /\ 0 <= col M /\ Z.of_nat (length (m M)) = row M * col M.

(** [ex const & matrix::operator() (int ro, int co) const] *)
Definition at_ (M : matrix) (ro co : Z) : result ex :=
  if (ro <? 0) || (row M <=? ro) || (co <? 0) || (col M <=? co)
  then Throw range_error
  else vget (m M) (ro * col M + co).

(** Modelled from the spec: [basic::ensure_if_modifiable] of basic.h, absent
    from the sources here ("mutation is permitted only" on an object that is
    not shared; the legacy reference count starts at zero). *)
Definition ensure_if_modifiable (M : matrix) : result unit :=
  if 1 <? refcount M then Throw runtime_error else Ok tt.

(** [matrix & matrix::set(int ro, int co, ex value)] *)
Definition set (M : matrix) (ro co : Z) (value : ex) : result matrix :=
  if (ro <? 0) || (row M <=? ro) || (co <? 0) || (col M <=? co)
  then Throw range_error
  else
    _ ← ensure_if_modifiable M;
    m' ← vset (m M) (ro * col M + co) value;
    Ok (mk_matrix (flags M) (refcount M) (row M) (col M) m').

(** The two nested loops of [matrix::eval] and [matrix::evalf], which fill
    [m2[r*col+c]] from [m[r*col+c]] through [f]. *)
Definition map_entries (M : matrix) (f : ex -> result ex) (m2 : list ex)
  : result (list ex) :=
  for_range 0 (row M) (fun r m2 =>
    for_range 0 (col M) (fun c m2 =>
      x ← vget (m M) (r * col M + c);
      y ← f x;
      vset m2 (r * col M + c) y) m2) m2.

(** [ex matrix::eval(int level) const]; the result is the matrix the
    returned handle points to. *)
Definition eval (M : matrix) (level : Z) : result matrix :=
  if (level =? 1)
     && negb (Z.land (flags M) Handle.status_flags.evaluated =? 0)
  then Ok M
  else if level =? - max_recursion_level then Throw runtime_error
  else
    let m2 := replicate (Z.to_nat (row M * col M)) exZERO in
    let level := level - 1 in
    m2 ← map_entries M (fun x => ex_eval x level) m2;
    Ok (mk_matrix (Z.lor Handle.status_flags.dynallocated
                          Handle.status_flags.evaluated)
                  0 (row M) (col M) m2).

(** [ex matrix::evalf(int level) const] *)
Definition evalf (M : matrix) (level : Z) : result matrix :=
  if level =? 1 then Ok M
  else if level =? - max_recursion_level then Throw runtime_error
  else
    let m2 := replicate (Z.to_nat (row M * col M)) exZERO in
    let level := level - 1 in
    m2 ← map_entries M (fun x => ex_evalf x level) m2;
    Ok (matrix_of (row M) (col M) m2).

(** [bool matrix::has(ex const & other) const] *)
Definition has (M : matrix) (other : ex) : bool :=
  if ex_equals_matrix other (row M) (col M) (m M) then true
  else existsb (fun r => ex_has r other) (m M).

(** *** Determinants *)

(** The inner loop of [permutation_sign] for [*i = x]: [j] runs over [tl].
    [None] is the [return 0] on two equal elements; otherwise the new [*i],
    the new tail and the new sign. *)
Fixpoint permutation_sign_inner (x : Z) (tl : list Z) (sigma : Z)
  : option (Z * list Z * Z) :=
  match tl with
  | [] => Some (x, [], sigma)
  | y :: tl' =>
      if x =? y then None
      else if y <? x then
        match permutation_sign_inner y tl' (- sigma) with
        | Some (x', tl'', sg) => Some (x', x :: tl'', sg)
        | None => None
        end
      else
        match permutation_sign_inner x tl' sigma with
        | Some (x', tl'', sg) => Some (x', y :: tl'', sg)
        | None => None
        end
  end.

(** The outer loop: [i] runs from [s.begin()] to [s.end()-1] excluded; [n]
    bounds the number of elements left. *)
Fixpoint permutation_sign_outer (n : nat) (s : list Z) (sigma : Z) : Z :=
  match n, s with
  | Datatypes.S n', x :: ((_ :: _) as tl) =>
      match permutation_sign_inner x tl sigma with
      | None => 0
      | Some (_, tl', sigma') => permutation_sign_outer n' tl' sigma'
      end
  | _, _ => sigma
  end.

(** [template <class T> int permutation_sign(vector<T> s)], at [T = int]. *)
Definition permutation_sign (s : list Z) : Z :=
  if (length s <? 2)%nat then 0
  else permutation_sign_outer (length s) s 1.

(** [std::next_permutation] of the C++ library on a vector of [int]: the
    next arrangement in lexicographic order and [true], or the sorted
    arrangement and [false] after the last one.  [rs] is the vector read
    from its end, [suffix] the non-increasing tail found so far. *)
Fixpoint next_permutation_pivot (rs suffix : list Z)
  : option (list Z * Z * list Z) :=
  match rs with
  | [] => None
  | x :: rs' =>
      match suffix with
      | [] => next_permutation_pivot rs' [x]
      | y :: _ =>
          if x <? y then Some (rs', x, suffix)
          else next_permutation_pivot rs' (x :: suffix)
      end
  end.

(** Exchanges [x] with the first element greater than it in the reversed
    suffix. *)
Fixpoint next_permutation_swap (x : Z) (rsuffix : list Z) : Z * list Z :=
  match rsuffix with
  | [] => (x, [])
  | z :: rest =>
      if x <? z then (z, x :: rest)
      else let '(y, rest') := next_permutation_swap x rest in (y, z :: rest')
  end.

Definition next_permutation (s : list Z) : bool * list Z :=
  match next_permutation_pivot (rev s) [] with
  | None => (false, rev s)
  | Some (rprefix, x, suffix) =>
      let '(y, rsuffix) := next_permutation_swap x (rev suffix) in
      (true, rev rprefix ++ y :: rsuffix)
  end.

(** One turn of the [do ... while] loop of [determinant_symbolic_perm]:
    the product [M(sigma[0],0) * ... * M(sigma[n-1],n-1)], added to [det]
    with its sign. *)
Definition determinant_symbolic_perm_term (M : matrix) (sigma : list Z)
    (det : ex) : result ex :=
  s0 ← vget sigma 0;
  term ← at_ M s0 0;
  term ← for_range 1 (cols M) (fun i term =>
            si ← vget sigma i;
            x ← at_ M si i;
            Ok (ex_mul term x)) term;
  Ok (ex_add det (ex_mul (ex_of_int (permutation_sign sigma)) term)).

(** The loop itself; [None] when [fuel] turns did not reach the last
    permutation. *)
Fixpoint determinant_symbolic_perm_loop (fuel : nat) (M : matrix)
    (sigma : list Z) (det : ex) : option (result ex) :=
  match fuel with
  | O => None
  | Datatypes.S fuel' =>
      match determinant_symbolic_perm_term M sigma det with
      | Ok det' =>
          let '(more, sigma') := next_permutation sigma in
          if more then determinant_symbolic_perm_loop fuel' M sigma' det'
          else Some (Ok det')
      | Throw exn => Some (Throw exn)
      | Undefined => Some Undefined
      end
  end.

(** [ex determinant_symbolic_perm(const matrix & M)] *)
Definition determinant_symbolic_perm (fuel : nat) (M : matrix)
  : option (result ex) :=
  if rows M =? 1 then Some (at_ M 0 0)
  else
    let sigma := map Z.of_nat (seq 0 (Z.to_nat (cols M))) in
    determinant_symbolic_perm_loop fuel M sigma exZERO.

(** [ex determinant_symbolic_minor(const matrix & M)]; [depth] bounds the
    nesting of the recursive calls. *)
Fixpoint determinant_symbolic_minor_rec (depth : nat) (M : matrix)
  : result ex :=
  if rows M =? 1 then at_ M 0 0
  else if rows M =? 2 then
    m00 ← at_ M 0 0; m11 ← at_ M 1 1;
    m10 ← at_ M 1 0; m01 ← at_ M 0 1;
    Ok (ex_sub (ex_mul m00 m11) (ex_mul m10 m01))
  else if rows M =? 3 then
    m21 ← at_ M 2 1; m02 ← at_ M 0 2; m22 ← at_ M 2 2; m01 ← at_ M 0 1;
    m10 ← at_ M 1 0;
    m12 ← at_ M 1 2; m11 ← at_ M 1 1;
    m20 ← at_ M 2 0;
    m00 ← at_ M 0 0;
    Ok (ex_add
          (ex_add
             (ex_mul (ex_sub (ex_mul m21 m02) (ex_mul m22 m01)) m10)
             (ex_mul (ex_sub (ex_mul m12 m01) (ex_mul m11 m02)) m20))
          (ex_mul (ex_sub (ex_mul m22 m11) (ex_mul m21 m12)) m00))
  else
    match depth with
    | O => Undefined
    | Datatypes.S depth' =>
        let minorM := matrix_zero (rows M - 1) (cols M - 1) in
        '(det, _) ← for_range 0 (rows M) (fun r1 '(det, minorM) =>
          minorM ← for_range 0 (rows minorM) (fun r minorM =>
            for_range 0 (cols minorM) (fun c minorM =>
              x ← (if r <? r1 then at_ M r (c + 1)
                   else at_ M (r + 1) (c + 1));
              set minorM r c x) minorM) minorM;
          x ← at_ M r1 0;
          d ← determinant_symbolic_minor_rec depth' minorM;
          Ok (if negb (Z.rem r1 2 =? 0)
              then ex_sub det (ex_mul x d)
              else ex_add det (ex_mul x d), minorM)) (exZERO, minorM);
        Ok det
    end.

Definition determinant_symbolic_minor (M : matrix) : result ex :=
  determinant_symbolic_minor_rec (Datatypes.S (Z.to_nat (rows M))) M.

(** The search loop of [matrix::pivot] from row [r], [n] rows left. *)
Fixpoint pivot_search (n : nat) (M : matrix) (ro r : Z) : result Z :=
  match n with
  | O => Ok ro
  | Datatypes.S n' =>
      x ← vget (m M) (r * col M + ro);
      if negb (ex_is_zero x) then Ok r
      else pivot_search n' M ro (r + 1)
  end.

(** [int matrix::pivot(int ro)]: the result and the matrix after it. *)
Definition pivot (M : matrix) (ro : Z) : result (Z * matrix) :=
  k ← pivot_search (Z.to_nat (row M - ro)) M ro ro;
  x ← vget (m M) (k * col M + ro);
  if ex_is_zero x then Ok (-1, M)
  else if negb (k =? ro) then
    m' ← for_range 0 (col M) (fun c m' =>
            a ← vget m' (k * col M + c);
            b ← vget m' (ro * col M + c);
            m1 ← vset m' (k * col M + c) b;
            vset m1 (ro * col M + c) a) (m M);
    Ok (k, mk_matrix (flags M) (refcount M) (row M) (col M) m')
  else Ok (0, M).

(** The loop over [r1] of [determinant_numeric]; [tmp] is the working copy. *)
Fixpoint determinant_numeric_loop (n : nat) (M tmp : matrix) (det : ex)
    (r1 : Z) : result ex :=
  match n with
  | O => Ok det
  | Datatypes.S n' =>
      '(indx, tmp) ← pivot tmp r1;
      if indx =? -1 then Ok exZERO
      else
        let det := if negb (indx =? 0) then ex_mul det exMINUSONE else det in
        d ← vget (m tmp) (r1 * cols M + r1);
        let det := ex_mul det d in
        tm ← for_range (r1 + 1) (rows M) (fun r2 tm =>
                a ← vget tm (r2 * cols M + r1);
                b ← vget tm (r1 * cols M + r1);
                piv ← ex_div a b;
                for_range (r1 + 1) (cols M) (fun c tm =>
                  x ← vget tm (r2 * cols M + c);
                  y ← vget tm (r1 * cols M + c);
                  vset tm (r2 * cols M + c) (ex_sub x (ex_mul piv y))) tm)
              (m tmp);
        determinant_numeric_loop n' M
          (mk_matrix (flags tmp) (refcount tmp) (row tmp) (col tmp) tm)
          det (r1 + 1)
  end.

(** [ex determinant_numeric(const matrix & M)] *)
Definition determinant_numeric (M : matrix) : result ex :=
  determinant_numeric_loop (Z.to_nat (rows M)) M (matrix_copy M) exONE 0.

(** [ex matrix::determinant(bool normalized) const] *)
Definition determinant (fuel : nat) (M : matrix) (normalized : bool)
  : option (result ex) :=
  if negb (row M =? col M) then Some (Throw logic_error)
  else if existsb (fun r => negb (ex_info r info_flags.numeric)) (m M) then
    if normalized
    then Some (d ← determinant_symbolic_minor M; Ok (ex_normal d))
    else determinant_symbolic_perm fuel M
  else Some (determinant_numeric M).

(** *** Fraction-free elimination *)

(** [ex matrix::ffe_get(int r, int c) const], [void matrix::ffe_set(int r,
    int c, ex e)] and [void matrix::ffe_swap(int r1, int c1, int r2,
    int c2)]: indices count from 1. *)
Definition ffe_get (M : matrix) (r c : Z) : result ex :=
  at_ M (r - 1) (c - 1).

Definition ffe_set (M : matrix) (r c : Z) (e : ex) : result matrix :=
  set M (r - 1) (c - 1) e.

Definition ffe_swap (M : matrix) (r1 c1 r2 c2 : Z) : result matrix :=
  _ ← ensure_if_modifiable M;
  tmp ← ffe_get M r1 c1;
  x ← ffe_get M r2 c2;
  M ← ffe_set M r1 c1 x;
  ffe_set M r2 c2 tmp.

(** Counted loop downwards: [for (i = hi; i > lo; --i) body]. *)
Fixpoint for_down {S : Type} (n : nat) (i : Z) (body : Z -> S -> result S)
    (s : S) : result S :=
  match n with
  | O => Ok s
  | Datatypes.S n' => s' ← body i s; for_down n' (i - 1) body s'
  end.

(** The locals of [fraction_free_elim] that the elimination loop updates. *)
Record ffe_state : Type := mk_ffe_state {
  ffe_a : matrix;
  ffe_b : matrix;
  ffe_sign : Z;
  ffe_divisor : ex;
  ffe_r : Z
}.

(** [for (p=r; (p<=m)&&(a.ffe_get(p,k).is_equal(exZERO())); ++p) {}] *)
Fixpoint ffe_find_pivot (n : nat) (a : matrix) (mm k p : Z) : result Z :=
  match n with
  | O => Undefined
  | Datatypes.S n' =>
      if p <=? mm then
        x ← ffe_get a p k;
        if ex_is_equal x exZERO then ffe_find_pivot n' a mm k (p + 1)
        else Ok p
      else Ok p
  end.

(** The body of the loop over the pivot column [k]. *)
Definition ffe_eliminate (mm n k : Z) (st : ffe_state) : result ffe_state :=
  let a := ffe_a st in
  let b := ffe_b st in
  let r := ffe_r st in
  let divisor := ffe_divisor st in
  p ← ffe_find_pivot (Z.to_nat (mm - r + 2)) a mm k r;
  if p <=? mm then
    '(a, b, sign) ←
      (if negb (p =? r) then
         a ← for_range k (n + 1) (fun j a => ffe_swap a p j r j) a;
         b ← ffe_swap b p 1 r 1;
         Ok (a, b, - ffe_sign st)
       else Ok (a, b, ffe_sign st));
    '(a, b) ← for_range (r + 1) (mm + 1) (fun i '(a, b) =>
      a ← for_range (k + 1) (n + 1) (fun j a =>
             ark ← ffe_get a r k;
             aij ← ffe_get a i j;
             arj ← ffe_get a r j;
             aik ← ffe_get a i k;
             q ← ex_div (ex_sub (ex_mul ark aij) (ex_mul arj aik)) divisor;
             a ← ffe_set a i j q;
             x ← ffe_get a i j;
             ffe_set a i j (ex_normal x)) a;
      ark ← ffe_get a r k;
      bi ← ffe_get b i 1;
      br ← ffe_get b r 1;
      aik ← ffe_get a i k;
      q ← ex_div (ex_sub (ex_mul ark bi) (ex_mul br aik)) divisor;
      b ← ffe_set b i 1 q;
      x ← ffe_get b i 1;
      b ← ffe_set b i 1 (ex_normal x);
      a ← ffe_set a i k (ex_of_int 0);
      Ok (a, b)) (a, b);
    divisor ← ffe_get a r k;
    Ok (mk_ffe_state a b sign divisor (r + 1))
  else Ok st.

(** [for (int k=1; (k<=n)&&(r<=m); ++k)]; [fuel] bounds the turns. *)
Fixpoint ffe_elimination_loop (fuel : nat) (mm n k : Z) (st : ffe_state)
  : result ffe_state :=
  match fuel with
  | O => Ok st
  | Datatypes.S fuel' =>
      if (k <=? n) && (ffe_r st <=? mm) then
        st ← ffe_eliminate mm n k st;
        ffe_elimination_loop fuel' mm n (k + 1) st
      else Ok st
  end.

(** [while ((first_non_zero<=n)&&(a.ffe_get(r,first_non_zero).is_zero()))
      first_non_zero++;] *)
Fixpoint ffe_first_non_zero (fuel : nat) (a : matrix) (n r fnz : Z)
  : result Z :=
  match fuel with
  | O => Undefined
  | Datatypes.S fuel' =>
      if fnz <=? n then
        x ← ffe_get a r fnz;
        if ex_is_zero x then ffe_first_non_zero fuel' a n r (fnz + 1)
        else Ok fnz
      else Ok fnz
  end.

(** The body of the loop [for (int r=m; r>0; --r)] that assembles the
    solution; the state is [sol] and [last_assigned_sol]. *)
Definition ffe_assemble (a b vars : matrix) (n r : Z)
    (st : matrix * Z) : result (matrix * Z) :=
  let '(sol, last_assigned_sol) := st in
  first_non_zero ← ffe_first_non_zero (Z.to_nat (n + 1)) a n r 1;
  if n <? first_non_zero then
    br ← ffe_get b r 1;
    if negb (ex_is_zero br) then Throw runtime_error
    else Ok (sol, last_assigned_sol)
  else
    sol ← for_range (first_non_zero + 1) last_assigned_sol (fun c sol =>
             v ← ffe_get vars c 1;
             ffe_set sol c 1 v) sol;
    e ← ffe_get b r 1;
    e ← for_range (first_non_zero + 1) (n + 1) (fun c e =>
           arc ← ffe_get a r c;
           sc ← ffe_get sol c 1;
           Ok (ex_sub e (ex_mul arc sc))) e;
    d ← ffe_get a r first_non_zero;
    q ← ex_div e d;
    sol ← ffe_set sol first_non_zero 1 (ex_normal q);
    Ok (sol, first_non_zero).

(** [matrix matrix::fraction_free_elim(matrix const & vars,
      matrix const & rhs) const] *)
Definition fraction_free_elim (M vars rhs : matrix) : result matrix :=
  if negb (row M =? row rhs) || negb (col M =? row vars)
     || negb (col rhs =? col vars)
  then Throw logic_error
  else
    let a := matrix_copy M in
    let b := matrix_copy rhs in
    let mm := row a in
    let n := col a in
    st ← ffe_elimination_loop (Z.to_nat n) mm n 1
           (mk_ffe_state a b 1 (ex_of_int 1) 1);
    let a := ffe_a st in
    let b := ffe_b st in
    let sol := matrix_zero n 1 in
    '(sol, last_assigned_sol) ←
      for_down (Z.to_nat mm) mm (ffe_assemble a b vars n) (sol, n + 1);
    for_range 1 last_assigned_sol (fun c sol =>
      v ← ffe_get vars c 1;
      ffe_set sol c 1 v) sol.

(** *** Entrywise operations, transposition and trace *)

(** [int matrix::nops() const] *)
Definition nops (M : matrix) : Z := row M * col M.

(** [ex matrix::expand(unsigned options) const]:
    [tmp[i] = m[i].expand(options)] for every [i] below [row*col]. *)
Definition expand (M : matrix) : result matrix :=
  let tmp := replicate (Z.to_nat (row M * col M)) exZERO in
  tmp ← for_range 0 (row M * col M) (fun i tmp =>
           x ← vget (m M) i;
           vset tmp i (ex_expand x)) tmp;
  Ok (matrix_of (row M) (col M) tmp).

(** The loop of [matrix::add] and [matrix::sub]: the iterator [i] runs over
    the copy of [this->m], and [ci] runs along [other.m] without a test of
    its own. *)
Fixpoint entrywise (op : ex -> ex -> ex) (sum other : list ex)
  : result (list ex) :=
  match sum with
  | [] => Ok []
  | x :: sum' =>
      match other with
      | [] => Undefined
      | y :: other' =>
          rest ← entrywise op sum' other';
          Ok (op x y :: rest)
      end
  end.

(** [matrix matrix::add(matrix const & other) const] *)
Definition add (M other : matrix) : result matrix :=
  if negb (col M =? col other) || negb (row M =? row other)
  then Throw logic_error
  else
    sum ← entrywise ex_add (m M) (m other);
    Ok (matrix_of (row M) (col M) sum).

(** [matrix matrix::sub(matrix const & other) const] *)
Definition sub (M other : matrix) : result matrix :=
  if negb (col M =? col other) || negb (row M =? row other)
  then Throw logic_error
  else
    dif ← entrywise ex_sub (m M) (m other);
    Ok (matrix_of (row M) (col M) dif).

(** [matrix matrix::mul(matrix const & other) const] *)
Definition mul (M other : matrix) : result matrix :=
  if negb (col M =? row other) then Throw logic_error
  else
    let prod := replicate (Z.to_nat (row M * col other)) exZERO in
    prod ← for_range 0 (row M) (fun i prod =>
      for_range 0 (col other) (fun j prod =>
        for_range 0 (col M) (fun l prod =>
          p ← vget prod (i * col other + j);
          a ← vget (m M) (i * col M + l);
          b ← vget (m other) (l * col other + j);
          vset prod (i * col other + j) (ex_add p (ex_mul a b))) prod)
        prod) prod;
    Ok (matrix_of (row M) (col other) prod).

(** [matrix matrix::transpose(void) const] *)
Definition transpose (M : matrix) : result matrix :=
  let trans := replicate (Z.to_nat (col M * row M)) exZERO in
  trans ← for_range 0 (col M) (fun r trans =>
    for_range 0 (row M) (fun c trans =>
      x ← vget (m M) (c * col M + r);
      vset trans (r * row M + c) x) trans) trans;
  Ok (matrix_of (col M) (row M) trans).

(** [ex matrix::trace(void) const]; [ex tr;] starts at zero. *)
Definition trace (M : matrix) : result ex :=
  if negb (row M =? col M) then Throw logic_error
  else
    for_range 0 (col M) (fun r tr =>
      x ← vget (m M) (r * col M + r);
      Ok (ex_add tr x)) exZERO.

(** The entry of column [ro] in row [j] is there and is zero. *)
Definition zero_in_column (M : matrix) (ro j : Z) : Prop :=
  exists x, m M !! Z.to_nat (j * col M + ro) = Some x /\
            ex_is_zero x = true.

(** What the innermost loop of [mul] adds up for the entry at row [i] and
    column [j], in the order of the loop, starting from the zero a new
    vector holds. *)
Definition mul_entry (M other : matrix) (i j : Z) : ex :=
  fold_left
    (fun acc l =>
       ex_add acc
         (ex_mul
            (default exZERO (m M !! Z.to_nat (i * col M + Z.of_nat l)))
            (default exZERO
               (m other !! Z.to_nat (Z.of_nat l * col other + j)))))
    (List.seq 0 (Z.to_nat (col M))) exZERO.

End WithEx.

Arguments matrix ex : clear implicits.

End Matrix.

(** ** inifcns.cpp: [lsolve] *)

Module Inifcns.

Import Matrix.

Section WithEx.

Context {ex : Type} `{ExOps ex}.

(** The [try] block of [lsolve] with its handler
    [catch (const runtime_error & e)]: [None] stands for the handler's
    [return lst()]. *)
Definition lsolve_try_elim (sys vars rhs : matrix ex)
  : result (option (matrix ex)) :=
  match fraction_free_elim sys vars rhs with
  | Ok solution => Ok (Some solution)
  | Throw exn =>
      if derives_from_runtime_error exn then Ok None else Throw exn
  | Undefined => Undefined
  end.

(** The list form of [lsolve], first part: the syntax checks, the matrices
    [sys], [rhs] and [vars] built from the equations, and the test that the
    system is linear. *)
Definition lsolve_build (eqns symbols : ex)
  : result (matrix ex * matrix ex * matrix ex) :=
  if negb (ex_info eqns info_flags.list) then Throw invalid_argument
  else
    _ ← for_range 0 (ex_nops eqns) (fun i _ =>
          eq ← ex_op eqns i;
          if negb (ex_info eq info_flags.relation_equal)
          then Throw invalid_argument else Ok tt) tt;
    if negb (ex_info symbols info_flags.list) then Throw invalid_argument
    else
      _ ← for_range 0 (ex_nops symbols) (fun i _ =>
            sy ← ex_op symbols i;
            if negb (ex_info sy info_flags.symbol)
            then Throw invalid_argument else Ok tt) tt;
      let sys := matrix_zero (ex_nops eqns) (ex_nops symbols) in
      let rhs := matrix_zero (ex_nops eqns) 1 in
      let vars := matrix_zero (ex_nops symbols) 1 in
      '(sys, rhs) ← for_range 0 (ex_nops eqns) (fun r '(sys, rhs) =>
        eqr ← ex_op eqns r;
        l ← ex_op eqr 0;
        rr ← ex_op eqr 1;
        let eq := ex_sub l rr in
        '(linpart, sys) ← for_range 0 (ex_nops symbols)
          (fun c '(linpart, sys) =>
             sc ← ex_op symbols c;
             let co := ex_coeff eq sc 1 in
             let linpart := ex_sub linpart (ex_mul co sc) in
             sys ← set sys r c co;
             Ok (linpart, sys)) (eq, sys);
        let linpart := ex_expand linpart in
        rhs ← set rhs r 0 (ex_neg linpart);
        Ok (sys, rhs)) (sys, rhs);
      vars ← for_range 0 (ex_nops symbols) (fun i vars =>
        si ← ex_op symbols i;
        vars ← set vars i 0 si;
        if has sys si then Throw logic_error
        else if has rhs si then Throw logic_error
        else Ok vars) vars;
      Ok (sys, rhs, vars).

(** Second part: the elimination inside [try], and the list of equations
    made from its result. *)
Definition lsolve_lists (eqns symbols : ex) : result ex :=
  '(sys, rhs, vars) ← lsolve_build eqns symbols;
  solution ← lsolve_try_elim sys vars rhs;
  match solution with
  | None => Ok (ex_lst [])
  | Some solution =>
      if negb (cols solution =? 1) then Throw runtime_error
      else if negb (rows solution =? ex_nops symbols)
      then Throw runtime_error
      else
        sollist ← for_range 0 (ex_nops symbols) (fun i sollist =>
          si ← ex_op symbols i;
          x ← at_ solution i 0;
          Ok (sollist ++ [ex_relational_equal si x])) [];
        Ok (ex_lst sollist)
  end.

(** [ex lsolve(const ex &eqns, const ex &symbols)].  The first branch calls
    [lsolve] again on two one-element lists; were the list of the equation
    an equation itself, the calls would never end. *)
Definition lsolve (eqns symbols : ex) : result ex :=
  if ex_info eqns info_flags.relation_equal then
    if negb (ex_info symbols info_flags.symbol) then Throw invalid_argument
    else
      sol ← (if ex_info (ex_lst [eqns]) info_flags.relation_equal
             then Undefined
             else lsolve_lists (ex_lst [eqns]) (ex_lst [symbols]));
      s0 ← ex_op sol 0;
      ex_op s0 1
  else lsolve_lists eqns symbols.

End WithEx.

End Inifcns.

(** ** container.pl: the generated [lst] and [exprseq] classes *)

Module Container.

Import Handle.

(** [mapM]: the loops that push [f x] for each [x] of the sequence and stop
    at the first exception. *)
Fixpoint map_result {A B : Type} (f : A -> result B) (l : list A)
  : result (list B) :=
  match l with
  | [] => Ok []
  | x :: l' => y ← f x; ys ← map_result f l'; Ok (y :: ys)
  end.

Section WithChildren.

(** The recursion bound of utils.h and the virtual member functions of the
    children, reached through [ex::eval], [ex::evalf], [ex::normal] and
    [ex::subs]; their classes are not part of the sources here. *)
Variable max_recursion_level : Z.
Variable ex_eval : ex -> Z -> result ex.
Variable ex_evalf : ex -> Z -> result ex.
Variable ex_normal : ex -> Z -> result ex.
Variable ex_subs : ex -> list ex -> list ex -> result ex.

(** The container node: [seq] is its only data member. *)
Record container : Type := mk_container { seq : list ex }.

(** What a member function returning [ex] hands back: this very node
    ([return *this], [this->hold()]), or a container built from a new
    sequence ([thislst(v)], [thisexprseq(v)]). *)
Inductive returned : Type :=
  | this_node
  | this_container (v : list ex).

(** [evalchildren(int level) const] *)
Definition evalchildren (c : container) (level : Z) : result (list ex) :=
  if level =? 1 then Ok (seq c)
  else if level =? - max_recursion_level then Throw runtime_error
  else
    let level := level - 1 in
    map_result (fun it => ex_eval it level) (seq c).

(** [evalfchildren(int level) const] *)
Definition evalfchildren (c : container) (level : Z) : result (list ex) :=
  if level =? 1 then Ok (seq c)
  else if level =? - max_recursion_level then Throw runtime_error
  else
    let level := level - 1 in
    map_result (fun it => ex_evalf it level) (seq c).

(** [normalchildren(int level) const] *)
Definition normalchildren (c : container) (level : Z) : result (list ex) :=
  if level =? 1 then Ok (seq c)
  else if level =? - max_recursion_level then Throw runtime_error
  else
    let level := level - 1 in
    map_result (fun it => ex_normal it level) (seq c).

(** [ex eval(int level) const] *)
Definition eval (c : container) (level : Z) : result returned :=
  if level =? 1 then Ok this_node
  else v ← evalchildren c level; Ok (this_container v).

(** [ex evalf(int level) const] *)
Definition evalf (c : container) (level : Z) : result returned :=
  v ← evalfchildren c level; Ok (this_container v).

(** The first step of [normal(lst &sym_lst, lst &repl_lst, int level)]:
    [ex n=thiscontainer(normalchildren(level))]. *)
Definition normal_rebuild (c : container) (level : Z) : result returned :=
  v ← normalchildren c level; Ok (this_container v).

(** [subschildren(lst const & ls, lst const & lr) const]: [None] is the null
    pointer.  [before] holds the elements the iterator [cit] has passed,
    [rest] those from [cit] on. *)
Fixpoint subschildren_from (before rest : list ex) (ls lr : list ex)
  : result (option (list ex)) :=
  match rest with
  | [] => Ok None
  | cit :: rest' =>
      subsed_ex ← ex_subs cit ls lr;
      if negb (are_ex_trivially_equal cit subsed_ex) then
        tail ← map_result (fun cit2 => ex_subs cit2 ls lr) rest';
        Ok (Some (before ++ subsed_ex :: tail))
      else subschildren_from (before ++ [cit]) rest' ls lr
  end.

Definition subschildren (c : container) (ls lr : list ex)
  : result (option (list ex)) :=
  subschildren_from [] (seq c) ls lr.

(** [ex subs(lst const & ls, lst const & lr) const] *)
Definition subs (c : container) (ls lr : list ex) : result returned :=
  vp ← subschildren c ls lr;
  match vp with
  | None => Ok this_node
  | Some v => Ok (this_container v)
  end.

(** The [subschildren] the source keeps in a comment as obsolete: [subs]
    of every child, pushed onto a new sequence. *)
Definition subschildren_obsolete (c : container) (ls lr : list ex)
  : result (list ex) :=
  map_result (fun it => ex_subs it ls lr) (seq c).

(** The virtual [basic::compare] and [basic::is_equal] of the children's
    nodes, reached through [ex::compare] and [ex::is_equal]. *)
Variable basic_compare : basic_ptr -> basic_ptr -> Z.
Variable basic_is_equal : basic_ptr -> basic_ptr -> bool.

(** The loop of [compare_same_type] and the tests after it: [it1] and
    [it2] run over the two sequences together. *)
Fixpoint compare_seq (it1 it2 : list ex) : Z :=
  match it1, it2 with
  | x :: it1', y :: it2' =>
      let cmpval := compare basic_compare x y in
      if negb (cmpval =? 0) then cmpval else compare_seq it1' it2'
  | [], [] => 0
  | [], _ :: _ => -1
  | _ :: _, _ => 1
  end.

(** [int compare_same_type(basic const & other) const] *)
Definition compare_same_type (c o : container) : Z :=
  compare_seq (seq c) (seq o).

(** The loop of [is_equal_same_type]: only [it1] is tested against the end
    of its sequence. *)
Fixpoint is_equal_seq (it1 it2 : list ex) : result bool :=
  match it1 with
  | [] => Ok true
  | x :: it1' =>
      match it2 with
      | [] => Undefined
      | y :: it2' =>
          if negb (is_equal basic_is_equal x y) then Ok false
          else is_equal_seq it1' it2'
      end
  end.

(** [bool is_equal_same_type(basic const & other) const] *)
Definition is_equal_same_type (c o : container) : result bool :=
  if negb (length (seq c) =? length (seq o))%nat then Ok false
  else is_equal_seq (seq c) (seq o).

End WithChildren.

End Container.

(** ** print.cpp *)

Module Print.

Local Open Scope string_scope.

(** The output stream is the text written so far; [os << s] appends. *)
Definition ostream := string.

Definition put (os : ostream) (s : string) : ostream := os ++ s.

Definition put_char (os : ostream) (c : ascii) : ostream :=
  os ++ String c EmptyString.


Section WithEx.

Variable ex : Type.

(** [bp->print(os, upper_precedence)] of an operand: the text the virtual
    printer of the operand's class writes in that context. *)
Variable ex_print : ex -> Z -> string.

(** The static [precedence] members, defined in power.cpp, expairseq.cpp,
    add.cpp, mul.cpp and relational.cpp, which are absent from the sources
    here. *)
Variable power_precedence : Z.
Variable expairseq_precedence : Z.
Variable add_precedence : Z.
Variable mul_precedence : Z.
Variable relational_precedence : Z.

(** Tests on numeric coefficients made through the overloaded operators
    ([coeff > 0], [coeff == -1], [coeff != 1]) and through [ex::is_zero],
    [ex::is_equal] and [ex::compare]. *)
Variable ex_positive : ex -> bool.
Variable ex_equals_int : ex -> Z -> bool.
Variable ex_is_zero : ex -> bool.
Variable ex_is_equal : ex -> ex -> bool.
Variable ex_compare : ex -> ex -> Z.
Variable exONE : ex.

(** [e.print(os, upper_precedence)] and [os << e], which prints with the
    default context [0]. *)
Definition print_ex (os : ostream) (e : ex) (upper_precedence : Z) : ostream :=
  put os (ex_print e upper_precedence).

Definition put_ex (os : ostream) (e : ex) : ostream := print_ex os e 0.

Record power : Type := mk_power { basis : ex; exponent : ex }.

Record expair : Type := mk_expair { rest : ex; coeff : ex }.

Definition epvector := list expair.

(** The three classes sharing [expairseq]'s data; [printpair] is virtual. *)
Inductive seq_class : Type := class_expairseq | class_add | class_mul.

Record expairseq : Type := mk_expairseq {
  dyn_class : seq_class;
  seq : epvector;
  overall_coeff : ex
}.

Inductive operators : Type :=
  | equal
  | not_equal
  | less
  | less_or_equal
  | greater
  | greater_or_equal
  | invalid_operator.

Record relational : Type := mk_relational { lh : ex; rh : ex; o : operators }.

(** [power(p.rest, p.coeff)] wrapped in a handle and
    [recombine_pair_to_ex(p)] of mul.cpp: both build expressions outside
    this file's reach. *)
Variable ex_power : ex -> ex -> ex.
Variable recombine_pair_to_ex : expair -> ex.
(** [default_overall_coeff()], virtual in [expairseq]. *)
Variable default_overall_coeff : seq_class -> ex.


(** [expairseq::printpair], [add::printpair] and [mul::printpair]. *)
Definition expairseq_printpair (os : ostream) (p : expair)
    (upper_precedence : Z) : ostream :=
  let os := put os "[[" in
  let os := print_ex os (rest p) expairseq_precedence in
  let os := put os "," in
  let os := print_ex os (coeff p) expairseq_precedence in
  put os "]]".

Definition add_printpair (os : ostream) (p : expair) (upper_precedence : Z)
  : ostream :=
  let os := put os "(" in
  let os :=
    if ex_equals_int (coeff p) (-1) then put os "-"
    else if negb (ex_equals_int (coeff p) 1)
         then put (put_ex os (coeff p)) "*"
         else os in
  let os := put_ex os (rest p) in
  put os ")".

Definition mul_printpair (os : ostream) (p : expair) (upper_precedence : Z)
  : ostream :=
  let os := put os "(" in
  let os :=
    if (ex_compare (coeff p) exONE =? 0)%Z
    then print_ex os (rest p) upper_precedence
    else print_ex os (ex_power (rest p) (coeff p)) upper_precedence in
  put os ")".

Definition printpair (cls : seq_class) (os : ostream) (p : expair)
    (upper_precedence : Z) : ostream :=
  match cls with
  | class_expairseq => expairseq_printpair os p upper_precedence
  | class_add => add_printpair os p upper_precedence
  | class_mul => mul_printpair os p upper_precedence
  end.

(** The loop of [expairseq::printseq] up to [it_last], then the last
    pair. *)
Fixpoint printseq_pairs (cls : seq_class) (os : ostream) (it : expair)
    (more : epvector) (delim : ascii) (this_precedence : Z) : ostream :=
  match more with
  | [] => printpair cls os it this_precedence
  | next :: more' =>
      let os := printpair cls os it this_precedence in
      let os := put_char os delim in
      printseq_pairs cls os next more' delim this_precedence
  end.

(** [void expairseq::printseq(ostream & os, char delim,
      unsigned this_precedence, unsigned upper_precedence) const].
    On an empty [seq] the iterator [--it_last] leaves the vector. *)
Definition expairseq_printseq (s : expairseq) (os : ostream) (delim : ascii)
    (this_precedence upper_precedence : Z) : result ostream :=
  let os := if (this_precedence <=? upper_precedence)%Z then put os "(" else os in
  match seq s with
  | [] => Undefined
  | it :: more =>
      let os := printseq_pairs (dyn_class s) os it more delim this_precedence in
      let os :=
        if negb (ex_is_equal (overall_coeff s)
                   (default_overall_coeff (dyn_class s)))
        then put_ex (put_char os delim) (overall_coeff s)
        else os in
      Ok (if (this_precedence <=? upper_precedence)%Z then put os ")" else os)
  end.

(** [void expairseq::print(ostream & os, unsigned upper_precedence) const] *)
Definition expairseq_print (s : expairseq) (os : ostream)
    (upper_precedence : Z) : result ostream :=
  let os := put os "[[" in
  os ← expairseq_printseq s os "," expairseq_precedence upper_precedence;
  Ok (put os "]]").







(** container.pl: [unsigned ${CONTAINER}::precedence=10;] *)
Definition container_precedence : Z := 10.

(** The loop of the container's [printseq] up to [it_last], then the last
    element. *)
Fixpoint container_printseq_items (os : ostream) (it : ex) (more : list ex)
    (delim : ascii) (this_precedence : Z) : ostream :=
  match more with
  | [] => print_ex os it this_precedence
  | next :: more' =>
      let os := print_ex os it this_precedence in
      let os := put_char os delim in
      container_printseq_items os next more' delim this_precedence
  end.

(** [void ${CONTAINER}::printseq(ostream & os, char openbracket, char delim,
      char closebracket, unsigned this_precedence,
      unsigned upper_precedence) const] *)
Definition container_printseq (seq : list ex) (os : ostream)
    (openbracket delim closebracket : ascii)
    (this_precedence upper_precedence : Z) : ostream :=
  let os :=
    if (this_precedence <=? upper_precedence)%Z then put_char os openbracket
    else os in
  let os :=
    match seq with
    | [] => os
    | it :: more =>
        container_printseq_items os it more delim this_precedence
    end in
  if (this_precedence <=? upper_precedence)%Z then put_char os closebracket
  else os.

(** [void ${CONTAINER}::print(ostream & os, unsigned upper_precedence)
    const], for the brackets of the container generated. *)
Definition container_print (open_bracket close_bracket : ascii)
    (seq : list ex) (os : ostream) (upper_precedence : Z) : ostream :=
  container_printseq seq os open_bracket "," close_bracket
    container_precedence (wrap (container_precedence + 1)).

(** The texts of the elements with [delim] between them. *)
Fixpoint joined (delim : string) (texts : list string) : string :=
  match texts with
  | [] => EmptyString
  | t :: [] => t
  | t :: texts' => t ++ delim ++ joined delim texts'
  end.

(** [void matrix::print(ostream & os, unsigned upper_precedence) const] of
    print.cpp, on the members [row], [col] and [m] of the matrix. *)
Definition matrix_print (row col : Z) (m : list ex) (os : ostream)
    (upper_precedence : Z) : result ostream :=
  let os := put os "[[ " in
  os ← for_range 0 (row - 1) (fun r os =>
          let os := put os "[[" in
          os ← for_range 0 (col - 1) (fun c os =>
                  x ← vget m (r * col + c);
                  Ok (put (put_ex os x) ",")) os;
          x ← vget m (col * (r + 1) - 1);
          Ok (put (put_ex os x) "]], ")) os;
  let os := put os "[[" in
  os ← for_range 0 (col - 1) (fun c os =>
          x ← vget m ((row - 1) * col + c);
          Ok (put (put_ex os x) ",")) os;
  x ← vget m (row * col - 1);
  Ok (put (put_ex os x) "]] ]]").

(** The text of a matrix: the rows between ["[[ "] and [" ]]"] with
    [", "] between them, a row being its entries between ["[["] and
    ["]]"] with [","] between them. *)
Definition matrix_entry_text (m : list ex) (i : Z) : string :=
  match m !! Z.to_nat i with
  | Some x => ex_print x 0
  | None => EmptyString
  end.

Definition matrix_row_text (col : Z) (m : list ex) (r : Z) : string :=
  "[[" ++ joined ","
            (map (fun c => matrix_entry_text m (r * col + Z.of_nat c))
               (List.seq 0 (Z.to_nat col)))
       ++ "]]".

Definition matrix_text (row col : Z) (m : list ex) : string :=
  "[[ " ++ joined ", "
             (map (fun r => matrix_row_text col m (Z.of_nat r))
                (List.seq 0 (Z.to_nat row)))
        ++ " ]]".

End WithEx.

End Print.

(** ** A model of the expression classes *)

(** Modelled from the spec: the node classes and their arithmetic (ex.cpp,
    numeric.cpp, add.cpp, mul.cpp, power.cpp, symbol.cpp, relational.cpp and
    normal.cpp are absent from the sources here).  The model covers integer
    numerics, symbols (told apart by their serial), binary sums and
    products, powers, equations and lists.  The constructors fold numerics
    and drop neutral elements ("numeric folding", "x + 0 = x, x * 1 = x,
    x * 0 = 0"); [normal] brings a polynomial to "expanded" canonical form,
    one term per monomial, and leaves any other expression as it is. *)
Module Sym.

(** Modelled from the spec: the node kinds of the model ("integer",
    "symbol", "sum", "product", "power", "relational", "list"). *)
Inductive sx : Type :=
  | numeric (z : Z)
  | symbol (serial : nat)
  | add (l r : sx)
  | mul (l r : sx)
  | power (b x : sx)
  | relational (l r : sx)
  | lst (items : list sx).

(** Modelled from the spec: structural equality, [ex::is_equal]. *)
Fixpoint sx_eqb (a b : sx) : bool :=
  match a, b with
  | numeric x, numeric y => x =? y
  | symbol s, symbol t => Nat.eqb s t
  | add a1 a2, add b1 b2 => sx_eqb a1 b1 && sx_eqb a2 b2
  | mul a1 a2, mul b1 b2 => sx_eqb a1 b1 && sx_eqb a2 b2
  | power a1 a2, power b1 b2 => sx_eqb a1 b1 && sx_eqb a2 b2
  | relational a1 a2, relational b1 b2 => sx_eqb a1 b1 && sx_eqb a2 b2
  | lst xs, lst ys =>
      (fix all2 (xs ys : list sx) : bool :=
         match xs, ys with
         | [], [] => true
         | x :: xs', y :: ys' => sx_eqb x y && all2 xs' ys'
         | _, _ => false
         end) xs ys
  | _, _ => false
  end.

(** Modelled from the spec: [operator+] and [operator*] on [ex], with
    numerics folded and the neutral and absorbing elements dropped. *)
Definition sx_add (a b : sx) : sx :=
  match a, b with
  | numeric x, numeric y => numeric (x + y)
  | numeric 0, _ => b
  | _, numeric 0 => a
  | _, _ => add a b
  end.

Definition sx_mul (a b : sx) : sx :=
  match a, b with
  | numeric x, numeric y => numeric (x * y)
  | numeric 0, _ => numeric 0
  | _, numeric 0 => numeric 0
  | numeric 1, _ => b
  | _, numeric 1 => a
  | _, _ => mul a b
  end.

(** Modelled from the spec: [operator-]; [lh - rh] is [lh + rh * (-1)],
    [-e] is [e * (-1)]. *)
Definition sx_sub (a b : sx) : sx := sx_add a (sx_mul b (numeric (-1))).

Definition sx_neg (a : sx) : sx := sx_mul a (numeric (-1)).

(** Modelled from the spec: the [power] constructor after [eval]. *)
Definition sx_power (b x : sx) : sx :=
  match b, x with
  | numeric 1, _ => numeric 1
  | numeric (-1), numeric (-1) => numeric (-1)
  | _, numeric 1 => b
  | _, _ => power b x
  end.

(** Modelled from the spec: [operator/]; [lh / rh] is [lh * rh^(-1)], an
    integer quotient is folded, any other quotient stays a product with a
    power, and "division by exact zero" raises. *)
Definition sx_div (a b : sx) : result sx :=
  match b with
  | numeric 0 => Throw overflow_error
  | _ =>
      Ok match a, b with
         | numeric x, numeric y =>
             if x mod y =? 0 then numeric (x / y)
             else mul a (power b (numeric (-1)))
         | _, _ => sx_mul a (sx_power b (numeric (-1)))
         end
  end.

(** Modelled from the spec: the expansion behind [normal] and [expand].
    A polynomial as the list of its terms before like terms are collected:
    coefficient and the symbols of the monomial.  [None] when the
    expression is not a polynomial of the model. *)
Fixpoint terms (e : sx) : option (list (Z * list nat)) :=
  match e with
  | numeric z => Some [(z, [])]
  | symbol s => Some [(1, [s])]
  | add a b =>
      match terms a, terms b with
      | Some ta, Some tb => Some (ta ++ tb)
      | _, _ => None
      end
  | mul a b =>
      match terms a, terms b with
      | Some ta, Some tb =>
          Some (flat_map (fun '(c1, m1) =>
                  map (fun '(c2, m2) => (c1 * c2, m1 ++ m2)) tb) ta)
      | _, _ => None
      end
  | _ => None
  end.

(** Modelled from the spec: the canonical key of a monomial, its symbols
    in increasing serial ("symbols by serial"). *)
Definition monomial_key (mono : list nat) : list nat := merge_sort (≤)%nat mono.

(** Modelled from the spec: "combine like terms" and "drop zeros";
    monomial key to coefficient. *)
Definition add_term (t : Z * list nat) (acc : gmap (list nat) Z)
  : gmap (list nat) Z :=
  let key := monomial_key (snd t) in
  <[key := fst t + default 0 (acc !! key)]> acc.

Definition collect (ts : list (Z * list nat)) : gmap (list nat) Z :=
  foldr add_term ∅ ts.

Definition canon (ts : list (Z * list nat)) : gmap (list nat) Z :=
  filter (fun kv => snd kv <> 0) (collect ts).

(** Modelled from the spec: the expression of a canonical polynomial. *)
Definition monomial_to_sx (mono : list nat) : sx :=
  foldr (fun s acc => sx_mul (symbol s) acc) (numeric 1) mono.

Definition poly_to_sx (p : gmap (list nat) Z) : sx :=
  foldr (fun kv acc =>
           sx_add (sx_mul (numeric (snd kv)) (monomial_to_sx (fst kv))) acc)
        (numeric 0) (map_to_list p).

(** Modelled from the spec: [ex::normal] (normal.cpp is absent from the
    sources here) on the polynomials of the model. *)
Definition sx_normal (e : sx) : sx :=
  match terms e with
  | Some ts => poly_to_sx (canon ts)
  | None => e
  end.

(** Modelled from the spec: [ex::coeff]; the coefficient of [s^n] in [e],
    read off the sums and products. *)
Fixpoint sx_coeff (e : sx) (s : nat) (n : nat) : sx :=
  match e with
  | symbol t =>
      if Nat.eqb t s then (if Nat.eqb n 1 then numeric 1 else numeric 0)
      else (if Nat.eqb n 0 then e else numeric 0)
  | add a b => sx_add (sx_coeff a s n) (sx_coeff b s n)
  | mul a b =>
      foldr (fun i acc =>
               sx_add (sx_mul (sx_coeff a s i) (sx_coeff b s (n - i))) acc)
            (numeric 0) (seq 0 (S n))
  | _ => if Nat.eqb n 0 then e else numeric 0
  end.

(** Modelled from the spec: [ex::has], "subtree occurrence by structural
    equality". *)
Fixpoint sx_has (e other : sx) : bool :=
  sx_eqb e other
  || match e with
     | add a b | mul a b | power a b | relational a b =>
         sx_has a other || sx_has b other
     | lst xs =>
         (fix any (xs : list sx) : bool :=
            match xs with
            | [] => false
            | x :: xs' => sx_has x other || any xs'
            end) xs
     | _ => false
     end.

(** Modelled from the spec: [ex::info], [ex::nops] and [ex::op]. *)
Definition sx_info (e : sx) (flag : info_flags.t) : bool :=
  match flag, e with
  | info_flags.numeric, numeric _ => true
  | info_flags.symbol, symbol _ => true
  | info_flags.relation_equal, relational _ _ => true
  | info_flags.list, lst _ => true
  | _, _ => false
  end.

Definition sx_nops (e : sx) : Z :=
  match e with
  | numeric _ | symbol _ => 0
  | add _ _ | mul _ _ | power _ _ | relational _ _ => 2
  | lst xs => Z.of_nat (length xs)
  end.

Definition sx_op (e : sx) (i : Z) : result sx :=
  match e with
  | numeric _ | symbol _ => Throw range_error
  | add a b | mul a b | power a b | relational a b =>
      if i =? 0 then Ok a else if i =? 1 then Ok b else Throw range_error
  | lst xs =>
      if i <? 0 then Throw range_error
      else match xs !! Z.to_nat i with
           | Some x => Ok x
           | None => Throw range_error
           end
  end.

(** Modelled from the spec: the operations of [ex] on the model.  Every
    expression of the model is built evaluated, so [eval] and [evalf]
    return it; no node of the model is a matrix. *)
#[global] Instance sx_ops : ExOps sx := {|
  exZERO := numeric 0;
  exONE := numeric 1;
  exMINUSONE := numeric (-1);
  ex_of_int := numeric;
  ex_add := sx_add;
  ex_sub := sx_sub;
  ex_mul := sx_mul;
  ex_div := sx_div;
  ex_neg := sx_neg;
  ex_normal := sx_normal;
  ex_expand := sx_normal;
  ex_is_zero := fun e => sx_eqb e (numeric 0);
  ex_is_equal := sx_eqb;
  ex_info := sx_info;
  ex_nops := sx_nops;
  ex_op := sx_op;
  ex_has := sx_has;
  ex_coeff := fun e sy n =>
    match sy with
    | symbol s => if n <? 0 then numeric 0 else sx_coeff e s (Z.to_nat n)
    | _ => numeric 0
    end;
  ex_equals_matrix := fun _ _ _ _ => false;
  ex_relational_equal := relational;
  ex_lst := lst;
  ex_eval := fun e _ => Ok e;
  ex_evalf := fun e _ => Ok e
|}.

(** Renaming of the symbols in a list of terms. *)
Definition rename_terms (f : nat -> nat) (ts : list (Z * list nat))
  : list (Z * list nat) :=
  map (fun t => (fst t, map f (snd t))) ts.

(** The terms of the opposite polynomial. *)
Definition negate_terms (ts : list (Z * list nat)) : list (Z * list nat) :=
  map (fun t => (- fst t, snd t)) ts.

(** The sum of the coefficients of the terms of [ts] with key [k]. *)
Definition csum (k : list nat) (ts : list (Z * list nat)) : Z :=
  foldr (fun t acc =>
           if decide (monomial_key (snd t) = k) then fst t + acc else acc)
        0 ts.

(** The symbols of all the terms of [ts] satisfy [dom]. *)
Definition symbols_in (dom : nat -> Prop) (ts : list (Z * list nat)) : Prop :=
  forall t s, In t ts -> In s (snd t) -> dom s.

(** The 3 x 3 matrix of nine symbols, row by row. *)
Definition matrix3 (s : list nat) : Matrix.matrix sx :=
  Matrix.matrix_of 3 3 (map symbol s).

(** The Leibniz formula for a 3 x 3 matrix: the six signed products over
    the permutations of the columns. *)
Definition leibniz3 (a00 a01 a02 a10 a11 a12 a20 a21 a22 : sx) : sx :=
  add (add (add (mul a00 (mul a11 a22))
                (mul a01 (mul a12 a20)))
           (mul a02 (mul a10 a21)))
      (mul (numeric (-1))
           (add (add (mul a02 (mul a11 a20))
                     (mul a01 (mul a10 a22)))
                (mul a00 (mul a12 a21)))).

End Sym.

(** * Properties *)

(** ** Bit-level facts used by the archive encoding *)

Section Bits.

Lemma land_127_mod (v : Z) : Z.land v 0x7f = v mod 128.
Proof. change 0x7f with (Z.ones 7). now rewrite Z.land_ones by lia. Qed.

Lemma low7_tagged_low (v : Z) :
  Z.land (Z.lor (Z.land v 0x7f) 0x80) 0x7f = Z.land v 0x7f.
Proof.
  rewrite Z.land_lor_distr_l, <- Z.land_assoc.
  change (Z.land 0x7f 0x7f) with 0x7f. change (Z.land 0x80 0x7f) with 0.
  apply Z.lor_0_r.
Qed.

Lemma low7_tagged_high (v : Z) :
  Z.land (Z.lor (Z.land v 0x7f) 0x80) 0x80 = 0x80.
Proof.
  rewrite Z.land_lor_distr_l, <- Z.land_assoc.
  change (Z.land 0x7f 0x80) with 0. rewrite Z.land_0_r.
  reflexivity.
Qed.

Lemma small_no_high_bit (v : Z) : 0 <= v < 0x80 -> Z.land v 0x80 = 0.
Proof.
  intros Hv. apply Z.bits_inj'. intros n Hn.
  rewrite Z.land_spec, Z.bits_0.
  destruct (Z.eq_dec n 7) as [-> | Hne].
  - replace (Z.testbit v 7) with false; [reflexivity |].
    symmetry. apply Z.testbit_false; [lia |].
    rewrite Z.div_small by (change (2 ^ 7) with 128; lia). reflexivity.
  - replace (Z.testbit 0x80 n) with false; [apply andb_false_r |].
    symmetry. change 0x80 with (2 ^ 7). apply Z.pow2_bits_false. lia.
Qed.

Lemma lor_shiftl_disjoint (ret x shift : Z) :
  0 <= shift -> 0 <= ret < 2 ^ shift -> 0 <= x ->
  Z.lor ret (Z.shiftl x shift) = ret + x * 2 ^ shift.
Proof.
  intros Hs Hret Hx.
  rewrite <- Z.shiftl_mul_pow2 by lia.
  rewrite <- Z.lxor_lor, <- Z.add_nocarry_lxor; trivial;
    apply Z.bits_inj'; intros n Hn; rewrite Z.land_spec, Z.bits_0;
    destruct (Z_lt_le_dec n shift) as [Hlt | Hge];
    try (rewrite Z.shiftl_spec_low by lia; apply andb_false_r);
    replace (Z.testbit ret n) with false; trivial;
    symmetry; apply Z.testbit_false; try lia;
    rewrite Z.div_small; trivial;
    split; try lia;
    apply Z.lt_le_trans with (2 ^ shift); try lia;
    apply Z.pow_le_mono_r; lia.
Qed.

End Bits.

(** ** archive.cpp: the unsigned wire encoding *)

Section WireEncoding.

Import Archive.

(** Induction along the loop of [write_unsigned]. *)
Lemma shift7_ind (P : Z -> Prop) :
  (forall v, v < 0x80 -> P v) ->
  (forall v, 0x80 <= v -> P (Z.shiftr v 7) -> P v) ->
  forall v, P v.
Proof.
  intros Hsmall Hlarge v.
  induction v as [v IH] using (well_founded_induction (Z.lt_wf 0)).
  destruct (Z_lt_le_dec v 0x80) as [Hlt | Hge]; [now apply Hsmall |].
  apply Hlarge; trivial. apply IH.
  rewrite Z.shiftr_div_pow2 by lia. split.
  - apply Z.div_pos; lia.
  - apply Z.div_lt_upper_bound; lia.
Qed.

Lemma write_unsigned_small (os : ostream) (val : Z) :
  val < 0x80 -> write_unsigned os val = os ++ [val].
Proof.
  intros H. rewrite write_unsigned_equation.
  destruct (Z.leb_spec 0x80 val); [lia | reflexivity].
Qed.

Lemma write_unsigned_step (os : ostream) (val : Z) :
  0x80 <= val ->
  write_unsigned os val
  = write_unsigned (os ++ [Z.lor (Z.land val 0x7f) 0x80]) (Z.shiftr val 7).
Proof.
  intros H. rewrite write_unsigned_equation.
  destruct (Z.leb_spec 0x80 val); [reflexivity | lia].
Qed.

(** The bytes written go after what the stream already holds. *)
Lemma write_unsigned_app (val : Z) :
  forall os, write_unsigned os val = os ++ write_unsigned [] val.
Proof.
  induction val as [v Hv | v Hv IH] using shift7_ind; intros os.
  - now rewrite !write_unsigned_small.
  - rewrite (write_unsigned_step os), (write_unsigned_step []) by trivial.
    rewrite IH. symmetry. rewrite IH. now rewrite app_assoc.
Qed.

Lemma write_unsigned_large (os : ostream) (val : Z) :
  0x80 <= val ->
  write_unsigned os val
  = os ++ Z.lor (Z.land val 0x7f) 0x80 :: write_unsigned [] (Z.shiftr val 7).
Proof.
  intros H. rewrite write_unsigned_step, write_unsigned_app by trivial.
  now rewrite <- app_assoc.
Qed.

(** The loop of [read_unsigned], entered with [ret] holding [shift] bits
    already, on the encoding of a value that fits the bits left. *)
Lemma read_unsigned_loop_write (val : Z) :
  forall ret shift rest,
    0 <= val < 2 ^ (32 - shift) -> 0 <= shift < 32 -> 0 <= ret < 2 ^ shift ->
    read_unsigned_loop (write_unsigned [] val ++ rest) ret shift
    = Ok (ret + val * 2 ^ shift, rest).
Proof.
  induction val as [v Hlt | v Hge IH] using shift7_ind;
    intros ret shift rest Hv Hs Hr;
    assert (Hp : 0 < 2 ^ shift) by (apply Z.pow_pos_nonneg; lia);
    assert (Hsplit : 2 ^ 32 = 2 ^ (32 - shift) * 2 ^ shift)
      by (rewrite <- Z.pow_add_r by lia; f_equal; lia).
  - rewrite write_unsigned_small by trivial. cbn [app read_unsigned_loop].
    destruct (Z.leb_spec 32 shift); [lia |].
    rewrite small_no_high_bit by lia. cbn [Z.eqb].
    rewrite land_127_mod, (Z.mod_small v 128) by lia.
    unfold wrap. rewrite Z.shiftl_mul_pow2 by lia.
    rewrite (Z.mod_small (v * 2 ^ shift)) by nia.
    rewrite <- (Z.shiftl_mul_pow2 v shift) at 1 by lia.
    rewrite lor_shiftl_disjoint by lia. reflexivity.
  - assert (Hsh : shift + 7 < 32).
    { destruct (Z_lt_le_dec (shift + 7) 32) as [|Hbig]; trivial.
      assert (2 ^ (32 - shift) <= 2 ^ 7) by (apply Z.pow_le_mono_r; lia).
      change (2 ^ 7) with 128 in *. lia. }
    rewrite write_unsigned_large by trivial. cbn [app read_unsigned_loop].
    destruct (Z.leb_spec 32 shift); [lia |].
    rewrite low7_tagged_low, low7_tagged_high. cbn [Z.eqb].
    rewrite land_127_mod.
    assert (Hm : 0 <= v mod 128 < 128) by (apply Z.mod_pos_bound; lia).
    assert (Hle : v mod 128 <= v) by (apply Z.mod_le; lia).
    unfold wrap at 1. rewrite Z.shiftl_mul_pow2 by lia.
    rewrite (Z.mod_small (v mod 128 * 2 ^ shift)) by nia.
    rewrite <- (Z.shiftl_mul_pow2 (v mod 128) shift) by lia.
    rewrite lor_shiftl_disjoint by lia.
    unfold wrap. rewrite (Z.mod_small (shift + 7)) by lia.
    rewrite Z.shiftr_div_pow2 in * by lia. change (2 ^ 7) with 128 in *.
    assert (H7 : 2 ^ (shift + 7) = 2 ^ shift * 128)
      by (rewrite Z.pow_add_r by lia; reflexivity).
    assert (Hq : 2 ^ (32 - shift) = 2 ^ (32 - (shift + 7)) * 128)
      by (change 128 with (2 ^ 7); rewrite <- Z.pow_add_r by lia; f_equal; lia).
    rewrite IH.
    + f_equal. f_equal. rewrite H7.
      pose proof (Z.div_mod v 128 ltac:(lia)). nia.
    + split; [apply Z.div_pos; lia |].
      apply Z.div_lt_upper_bound; lia.
    + lia.
    + rewrite H7. nia.
Qed.

Lemma read_write_unsigned (val : Z) (rest : istream) :
  is_unsigned val ->
  read_unsigned (write_unsigned [] val ++ rest) = Ok (val, rest).
Proof.
  intros Hv. unfold read_unsigned.
  rewrite read_unsigned_loop_write.
  - f_equal. f_equal. lia.
  - exact Hv.
  - lia.
  - change (2 ^ 0) with 1. lia.
Qed.

End WireEncoding.

Section WireEncodingRoundTrip.

Import Archive.

(** The table in the comment on the file format: [0x80 0x80 0x01] encodes
    [0x4000]. *)
Example write_unsigned_0x4000 : write_unsigned [] 0x4000 = [0x80; 0x80; 0x01].
Proof.
  rewrite write_unsigned_large by lia.
  rewrite (write_unsigned_large [] (Z.shiftr 0x4000 7)) by (cbv; discriminate).
  rewrite write_unsigned_small by (cbv; reflexivity).
  reflexivity.
Qed.

(** C3. The unsigned wire encoding round-trips: [write_unsigned] emits a
    value below [0x80] as one verbatim byte, and a larger value as its low
    seven bits with the high bit set followed by the encoding of the
    remaining bits; for every unsigned 32-bit value [v], [read_unsigned] on
    the bytes [write_unsigned] produced (whatever follows them in the
    stream) returns [v] and leaves the stream just after them; hence two
    values with the same encoding are equal. *)
Theorem write_read_unsigned_roundtrip (v : Z) :
  is_unsigned v ->
  (v < 0x80 -> forall os, write_unsigned os v = os ++ [v]) /\
  (0x80 <= v -> forall os,
     write_unsigned os v
     = os ++ Z.lor (Z.land v 0x7f) 0x80 :: write_unsigned [] (Z.shiftr v 7)) /\
  (forall rest, read_unsigned (write_unsigned [] v ++ rest) = Ok (v, rest)) /\
  (forall w, is_unsigned w -> write_unsigned [] w = write_unsigned [] v -> w = v).
Proof.
  intros Hv. repeat split.
  - intros Hlt os. now apply write_unsigned_small.
  - intros Hge os. now apply write_unsigned_large.
  - intros rest. now apply read_write_unsigned.
  - intros w Hw Heq.
    pose proof (read_write_unsigned w [] Hw) as Rw.
    pose proof (read_write_unsigned v [] Hv) as Rv.
    rewrite Heq, Rv in Rw. congruence.
Qed.

Lemma write_read_unsigned_roundtrip_witness :
  is_unsigned 300 /\
  read_unsigned (write_unsigned [] 300 ++ [7]) = Ok (300, [7]).
Proof.
  assert (H : is_unsigned 300) by (unfold is_unsigned; lia).
  split; [exact H |].
  destruct (write_read_unsigned_roundtrip 300 H) as (_ & _ & Hread & _).
  apply Hread.
Defined.

End WireEncodingRoundTrip.

(** ** ex.h: the default handle *)

Section DefaultHandle.

Import Handle.

Lemma compare_same_node (basic_compare : basic_ptr -> basic_ptr -> Z)
    (e other : ex) :
  bp e = bp other -> compare basic_compare e other = 0.
Proof.
  intros Heq. unfold compare. destruct (decide (bp e = bp other)); congruence.
Qed.

(** C10. A default-constructed handle denotes zero: on a store where the
    [exZERO()] node is live and dynamically allocated (the assertions of the
    constructor), [ex()] returns a handle on that very node and counts one
    more reference on it; for that handle [is_zero] is true and [compare]
    with [exZERO()] is [0], whatever the nodes' own [compare] would answer
    (the pointer test decides). *)
Theorem default_ex_is_zero (zero : ex) (h : heap) (b : basic)
    (basic_compare : basic_ptr -> basic_ptr -> Z) :
  h !! bp zero = Some b ->
  Z.land (flags b) status_flags.dynallocated <> 0 ->
  exists e' h',
    ex_default zero h = Ok (e', h') /\
    bp e' = bp zero /\
    h' !! bp zero = Some (incr_refcount b) /\
    is_zero basic_compare zero e' = true /\
    compare basic_compare e' zero = 0.
Proof.
  intros Hlive Hdyn.
  exists (mk_ex (bp zero)), (<[bp zero := incr_refcount b]> h).
  unfold ex_default. rewrite Hlive.
  destruct (Z.eqb_spec (Z.land (flags b) status_flags.dynallocated) 0);
    [contradiction |].
  repeat split.
  - apply lookup_insert_eq.
  - unfold is_zero. now rewrite compare_same_node.
  - now apply compare_same_node.
Qed.

Lemma default_ex_is_zero_witness :
  let zero := mk_ex 1%positive in
  let h : heap := {[ 1%positive := mk_basic 3 1 ]} in
  exists e' h',
    ex_default zero h = Ok (e', h') /\
    bp e' = bp zero /\
    h' !! bp zero = Some (mk_basic 3 2) /\
    is_zero (fun _ _ => 1) zero e' = true /\
    compare (fun _ _ => 1) e' zero = 0.
Proof.
  intros zero h.
  apply (default_ex_is_zero zero h (mk_basic 3 1) (fun _ _ => 1)).
  - reflexivity.
  - discriminate.
Defined.

End DefaultHandle.

(** ** container.pl: substitution and the recursion limit *)

Section ContainerProps.

Import Handle Container.

Variable max_recursion_level : Z.
Variable ex_eval ex_evalf ex_normal : ex -> Z -> result ex.
Variable ex_subs : ex -> list ex -> list ex -> result ex.

Lemma map_result_throw {A B : Type} (f : A -> result B) (l : list A)
    (exn : exception) :
  map_result f l = Throw exn -> exists x, In x l /\ f x = Throw exn.
Proof.
  induction l as [| x l IH]; cbn; [discriminate |].
  destruct (f x) as [y | e1 |] eqn:Hx; cbn; try discriminate.
  - destruct (map_result f l) as [ys | e2 |]; cbn; try discriminate.
    intros [= <-]. destruct IH as (x' & Hin & Hx'); eauto.
  - intros [= <-]. eauto.
Qed.

Lemma map_result_ok {A B : Type} (f : A -> result B) (l : list A) :
  (forall x, In x l -> returns (f x)) -> returns (map_result f l).
Proof.
  induction l as [| x l IH]; intros Hall; cbn; [now eexists |].
  destruct (Hall x (or_introl eq_refl)) as [y ->]. cbn.
  destruct IH as [ys ->]; [intros; apply Hall; now right |].
  cbn. now eexists.
Qed.

(** The loop of [subschildren] returns the null pointer exactly when every
    child it visits comes back from [subs] as the same node. *)
Lemma subschildren_from_none (before rest ls lr : list ex) :
  subschildren_from ex_subs before rest ls lr = Ok None <->
  (forall child, In child rest ->
     exists s, ex_subs child ls lr = Ok s /\
               are_ex_trivially_equal child s = true).
Proof.
  revert before. induction rest as [| cit rest IH]; intros before; cbn.
  - split; [intros _ child [] | reflexivity].
  - destruct (ex_subs cit ls lr) as [s | exn |] eqn:Hs; cbn.
    + destruct (are_ex_trivially_equal cit s) eqn:Ht; cbn.
      * rewrite IH. split.
        -- intros Hall child [<- | Hin]; eauto.
        -- intros Hall child Hin. apply Hall. now right.
      * split.
        -- destruct (map_result _ rest); cbn; discriminate.
        -- intros Hall. destruct (Hall cit (or_introl eq_refl)) as (s' & Hs' & Ht').
           congruence.
    + split; [discriminate |].
      intros Hall. destruct (Hall cit (or_introl eq_refl)) as (s' & Hs' & _).
      congruence.
    + split; [discriminate |].
      intros Hall. destruct (Hall cit (or_introl eq_refl)) as (s' & Hs' & _).
      congruence.
Qed.

Lemma subschildren_from_some (before rest ls lr v : list ex) :
  subschildren_from ex_subs before rest ls lr = Ok (Some v) ->
  exists child s,
    In child rest /\ ex_subs child ls lr = Ok s /\
    are_ex_trivially_equal child s = false.
Proof.
  revert before. induction rest as [| cit rest IH]; intros before; cbn;
    [discriminate |].
  destruct (ex_subs cit ls lr) as [s | exn |] eqn:Hs; cbn; try discriminate.
  destruct (are_ex_trivially_equal cit s) eqn:Ht; cbn.
  - intros Hrec. destruct (IH _ Hrec) as (child & s' & Hin & Hs' & Ht').
    exists child, s'. auto.
  - intros _. exists cit, s. auto.
Qed.

(** C9. [subs] on a container whose [subschildren] finds nothing to
    substitute (the null pointer) returns the node itself, not a rebuilt
    one; that is the case exactly when every child comes back from its own
    [subs] as the very same node; and a new container is returned only when
    some child changed. *)
Theorem container_subs_unchanged (c : container) (ls lr : list ex) :
  (subschildren ex_subs c ls lr = Ok None ->
   subs ex_subs c ls lr = Ok this_node) /\
  ((forall child, In child (seq c) ->
      exists s, ex_subs child ls lr = Ok s /\
                are_ex_trivially_equal child s = true) ->
   subs ex_subs c ls lr = Ok this_node) /\
  (forall v, subs ex_subs c ls lr = Ok (this_container v) ->
     exists child s,
       In child (seq c) /\ ex_subs child ls lr = Ok s /\
       are_ex_trivially_equal child s = false).
Proof.
  unfold subs, subschildren. repeat split.
  - intros ->. reflexivity.
  - intros Hall. apply (subschildren_from_none []) in Hall.
    now rewrite Hall.
  - intros v.
    destruct (subschildren_from ex_subs [] (seq c) ls lr) as [[v' |] | exn |]
      eqn:Hsub; cbn; try discriminate.
    intros _. now apply subschildren_from_some in Hsub.
Qed.

End ContainerProps.

(** ** The polynomial normal form of the expression model *)

Section PolynomialNormal.

Import Sym.

Lemma monomial_key_perm (m1 m2 : list nat) :
  monomial_key m1 = monomial_key m2 <-> Permutation m1 m2.
Proof.
  unfold monomial_key. split.
  - intros Heq.
    rewrite <- (merge_sort_Permutation (≤)%nat m1).
    rewrite <- (merge_sort_Permutation (≤)%nat m2).
    now rewrite Heq.
  - intros Hp. apply (Sorted_unique (≤)%nat).
    + apply Sorted_merge_sort; apply _.
    + apply Sorted_merge_sort; apply _.
    + now rewrite !merge_sort_Permutation.
Qed.

Lemma lookup_collect (k : list nat) (ts : list (Z * list nat)) :
  default 0 (collect ts !! k) = csum k ts.
Proof.
  induction ts as [| t ts IH]; cbn.
  - now rewrite lookup_empty.
  - unfold add_term. rewrite lookup_insert.
    destruct (decide (monomial_key (snd t) = k)) as [-> | Hne]; cbn.
    + f_equal. exact IH.
    + exact IH.
Qed.

Lemma canon_empty_iff (ts : list (Z * list nat)) :
  canon ts = ∅ <-> forall k, csum k ts = 0.
Proof.
  unfold canon. rewrite map_empty. split.
  - intros Hnone k. rewrite <- lookup_collect.
    specialize (Hnone k). rewrite map_lookup_filter_None in Hnone.
    destruct Hnone as [-> | Hz]; [reflexivity |].
    destruct (collect ts !! k) as [c |] eqn:Hc; [| reflexivity].
    cbn. specialize (Hz c eq_refl). cbn in Hz.
    destruct (decide (c = 0)); [assumption | contradiction].
  - intros Hz k. apply map_lookup_filter_None. right. intros c Hc. cbn.
    specialize (Hz k). rewrite <- lookup_collect, Hc in Hz. cbn in Hz.
    intros Hne. contradiction.
Qed.

(** A map that is injective on the symbols of two monomials reflects their
    being permutations of each other. *)
Lemma Permutation_map_inj_on (f : nat -> nat) (l1 : list nat) :
  forall l2,
    (forall x y, In x l1 -> In y l2 -> f x = f y -> x = y) ->
    Permutation (map f l1) (map f l2) -> Permutation l1 l2.
Proof.
  induction l1 as [| x l1 IH]; intros l2 Hinj Hp.
  - apply Permutation_nil in Hp. destruct l2; [constructor | discriminate].
  - assert (Hin : In (f x) (map f l2)).
    { apply (Permutation_in (f x) Hp). now left. }
    apply in_map_iff in Hin. destruct Hin as (y & Hfy & Hy).
    assert (y = x) as -> by (symmetry; apply Hinj; auto; now left).
    apply in_split in Hy. destruct Hy as (la & lb & ->).
    rewrite <- Permutation_middle. constructor.
    apply IH.
    + intros a b Ha Hb. apply Hinj; [now right |].
      apply in_app_iff in Hb. apply in_app_iff.
      destruct Hb; [now left | right; now right].
    + rewrite map_app in Hp. cbn in Hp.
      rewrite <- Permutation_middle in Hp.
      apply Permutation_cons_inv in Hp. now rewrite map_app.
Qed.

Lemma csum_cons (k : list nat) (t : Z * list nat)
    (ts : list (Z * list nat)) :
  csum k (t :: ts)
  = if decide (monomial_key (snd t) = k) then fst t + csum k ts
    else csum k ts.
Proof. reflexivity. Qed.

Lemma rename_terms_cons (f : nat -> nat) (t : Z * list nat)
    (ts : list (Z * list nat)) :
  rename_terms f (t :: ts) = (fst t, map f (snd t)) :: rename_terms f ts.
Proof. reflexivity. Qed.

Lemma csum_rename_none (f : nat -> nat) (k : list nat)
    (ts : list (Z * list nat)) :
  (forall t, In t ts -> monomial_key (map f (snd t)) <> k) ->
  csum k (rename_terms f ts) = 0.
Proof.
  induction ts as [| t ts IH]; intros Hno; [reflexivity |].
  rewrite rename_terms_cons, csum_cons.
  destruct (decide (monomial_key (snd (fst t, map f (snd t))) = k))
    as [Heq | _].
  - exfalso. apply (Hno t); [now left | assumption].
  - apply IH. intros t' Hin. apply Hno. now right.
Qed.

Lemma csum_rename_class (f : nat -> nat) (k k0 : list nat)
    (ts : list (Z * list nat)) :
  (forall t, In t ts ->
     monomial_key (map f (snd t)) = k <-> monomial_key (snd t) = k0) ->
  csum k (rename_terms f ts) = csum k0 ts.
Proof.
  induction ts as [| t ts IH]; intros Hiff; [reflexivity |].
  rewrite rename_terms_cons, !csum_cons.
  rewrite IH by (intros t' Hin; apply Hiff; now right).
  pose proof (Hiff t (or_introl eq_refl)) as Ht.
  destruct (decide (monomial_key (snd (fst t, map f (snd t))) = k)) as [H1 | H1],
           (decide (monomial_key (snd t) = k0)) as [H2 | H2];
    cbn [snd] in H1; tauto.
Qed.

(** Renaming the symbols by a map injective on them keeps every coefficient
    sum zero. *)
Lemma csum_rename_zero (f : nat -> nat) (dom : nat -> Prop)
    (ts : list (Z * list nat)) :
  (forall x y, dom x -> dom y -> f x = f y -> x = y) ->
  symbols_in dom ts ->
  (forall k0, csum k0 ts = 0) ->
  forall k, csum k (rename_terms f ts) = 0.
Proof.
  intros Hinj Hdom Hzero k.
  destruct (decide (Exists (fun t => monomial_key (map f (snd t)) = k) ts))
    as [Hex | Hno].
  - apply Exists_exists in Hex. destruct Hex as (t1 & Hin1 & Hk1).
    apply list_elem_of_In in Hin1.
    rewrite (csum_rename_class f k (monomial_key (snd t1))); [apply Hzero |].
    intros t Hin. rewrite <- Hk1, !monomial_key_perm. split.
    + apply Permutation_map_inj_on.
      intros x y Hx Hy. apply Hinj; [apply (Hdom t) | apply (Hdom t1)]; auto.
    + apply Permutation_map.
  - apply csum_rename_none. intros t Hin Hk. apply Hno.
    apply Exists_exists. exists t. split; [now apply list_elem_of_In | exact Hk].
Qed.

Lemma canon_rename_empty (f : nat -> nat) (dom : nat -> Prop)
    (ts : list (Z * list nat)) :
  (forall x y, dom x -> dom y -> f x = f y -> x = y) ->
  symbols_in dom ts ->
  canon ts = ∅ ->
  canon (rename_terms f ts) = ∅.
Proof.
  intros Hinj Hdom Hcanon. apply canon_empty_iff.
  apply (csum_rename_zero f dom); trivial.
  now apply canon_empty_iff.
Qed.

Lemma sx_normal_zero (e : sx) (ts : list (Z * list nat)) :
  terms e = Some ts -> canon ts = ∅ -> sx_normal e = numeric 0.
Proof.
  intros Hterms Hcanon. unfold sx_normal. rewrite Hterms, Hcanon.
  unfold poly_to_sx. now rewrite map_to_list_empty.
Qed.

Lemma lookup_canon (k : list nat) (ts : list (Z * list nat)) :
  canon ts !! k = if decide (csum k ts = 0) then None else Some (csum k ts).
Proof.
  unfold canon. apply option_eq. intros v.
  rewrite map_lookup_filter_Some. cbn [snd].
  pose proof (lookup_collect k ts) as Hl.
  destruct (decide (csum k ts = 0)) as [Hz | Hnz].
  - split; [| discriminate]. intros [Hc Hv].
    rewrite Hc in Hl. cbn in Hl. congruence.
  - split.
    + intros [Hc Hv]. rewrite Hc in Hl. cbn in Hl. now subst v.
    + intros [= <-]. split; [| exact Hnz].
      destruct (collect ts !! k) as [c |]; cbn in Hl; congruence.
Qed.

Lemma csum_app (k : list nat) (ta tb : list (Z * list nat)) :
  csum k (ta ++ tb) = csum k ta + csum k tb.
Proof.
  induction ta as [| t ta IH]; [reflexivity |].
  change ((t :: ta) ++ tb) with (t :: (ta ++ tb)).
  rewrite !csum_cons, IH.
  destruct (decide (monomial_key (snd t) = k)); lia.
Qed.

Lemma csum_negate (k : list nat) (ts : list (Z * list nat)) :
  csum k (negate_terms ts) = - csum k ts.
Proof.
  induction ts as [| t ts IH]; [reflexivity |].
  change (negate_terms (t :: ts)) with ((- fst t, snd t) :: negate_terms ts).
  rewrite !csum_cons, IH. cbn [fst snd].
  destruct (decide (monomial_key (snd t) = k)); lia.
Qed.

(** Two polynomials whose difference collects to nothing have the same
    normal form. *)
Lemma sx_normal_eq (a b : sx) (ta tb : list (Z * list nat)) :
  terms a = Some ta -> terms b = Some tb ->
  canon (ta ++ negate_terms tb) = ∅ ->
  sx_normal a = sx_normal b.
Proof.
  intros Ha Hb Hdiff. unfold sx_normal. rewrite Ha, Hb. f_equal.
  apply map_eq. intros k. rewrite !lookup_canon.
  rewrite canon_empty_iff in Hdiff. specialize (Hdiff k).
  rewrite csum_app, csum_negate in Hdiff.
  replace (csum k tb) with (csum k ta) by lia. reflexivity.
Qed.

End PolynomialNormal.

(** ** matrix.cpp: the determinant of a 3 x 3 matrix of symbols *)

Section Determinant3.

Import Sym Matrix.

Lemma symbols_in_Forall (dom : nat -> Prop) (ts : list (Z * list nat)) :
  Forall (fun t => Forall dom (snd t)) ts -> symbols_in dom ts.
Proof.
  intros Hall t s Ht Hs.
  rewrite List.Forall_forall in Hall. specialize (Hall t Ht).
  rewrite List.Forall_forall in Hall. now apply Hall.
Qed.

Lemma lookup_inj_on (l : list nat) (x y : nat) :
  NoDup l -> (x < length l)%nat -> (y < length l)%nat ->
  default 0%nat (l !! x) = default 0%nat (l !! y) -> x = y.
Proof.
  intros Hnd Hx Hy Heq.
  destruct (lookup_lt_is_Some_2 l x Hx) as [vx Hvx].
  destruct (lookup_lt_is_Some_2 l y Hy) as [vy Hvy].
  rewrite Hvx, Hvy in Heq. cbn in Heq. subst vy.
  exact (NoDup_lookup l x y vx Hnd Hvx Hvy).
Qed.

Lemma is_zero_of_normal (e : sx) :
  sx_normal e = numeric 0 -> ex_is_zero (ex_normal e) = true.
Proof.
  intros Hz. change (sx_eqb (sx_normal e) (numeric 0) = true).
  now rewrite Hz.
Qed.

(** Settles [canon ts = ∅] for terms [ts] over nine symbols: they are the
    terms of the same polynomial over the symbols [0 .. 8], renamed by [f],
    and those cancel by computation. *)
Ltac canon_by_renaming f Hinj a0 a1 a2 a3 a4 a5 a6 a7 a8 :=
  match goal with
  | |- canon ?ts = ∅ =>
      match eval pattern a0, a1, a2, a3, a4, a5, a6, a7, a8 in ts with
      | ?F _ _ _ _ _ _ _ _ _ =>
          let ts0 := eval vm_compute in (F 0 1 2 3 4 5 6 7 8)%nat in
          replace ts with (rename_terms f ts0) by (vm_compute; reflexivity);
          apply (canon_rename_empty f (fun i => (i < 9)%nat) ts0);
          [ exact Hinj
          | apply symbols_in_Forall; repeat constructor; cbn; lia
          | vm_compute; reflexivity ]
      end
  end.

(** [sx_normal (sx_sub x y) = numeric 0] and [sx_normal x = sx_normal y]
    for two polynomials over nine symbols. *)
Ltac normal_zero_by_renaming f Hinj a0 a1 a2 a3 a4 a5 a6 a7 a8 :=
  match goal with
  | |- sx_normal ?e = numeric 0 =>
      let ts := eval vm_compute in (default [] (terms e)) in
      apply (sx_normal_zero e ts);
      [ vm_compute; reflexivity
      | canon_by_renaming f Hinj a0 a1 a2 a3 a4 a5 a6 a7 a8 ]
  end.

Ltac normal_eq_by_renaming f Hinj a0 a1 a2 a3 a4 a5 a6 a7 a8 :=
  match goal with
  | |- sx_normal ?x = sx_normal ?y =>
      let ta := eval vm_compute in (default [] (terms x)) in
      let tb := eval vm_compute in (default [] (terms y)) in
      apply (sx_normal_eq x y ta tb);
      [ vm_compute; reflexivity
      | vm_compute; reflexivity
      | let ts := eval vm_compute in (ta ++ negate_terms tb) in
        change (canon ts = ∅);
        canon_by_renaming f Hinj a0 a1 a2 a3 a4 a5 a6 a7 a8 ]
  end.

(** C1. For every 3 x 3 matrix whose nine entries are distinct symbols, the
    Laplace expansion [determinant_symbolic_minor] and the permutation sum
    [determinant_symbolic_perm] (which ends within six turns of its loop)
    both return; [matrix::determinant] returns the normal form of the first
    when asked to normalize and the second otherwise; the two results are
    equal up to [normal], that is, the normal form of their difference is
    zero and their normal forms coincide; and each of them is equal up to
    [normal], in the same two senses, to the Leibniz expansion of the 3 x 3
    determinant. *)
Theorem determinant_3x3_algorithms_agree
    (a00 a01 a02 a10 a11 a12 a20 a21 a22 : nat) :
  NoDup [a00; a01; a02; a10; a11; a12; a20; a21; a22] ->
  let M := matrix3 [a00; a01; a02; a10; a11; a12; a20; a21; a22] in
  let L := leibniz3 (symbol a00) (symbol a01) (symbol a02)
                    (symbol a10) (symbol a11) (symbol a12)
                    (symbol a20) (symbol a21) (symbol a22) in
  exists dm dp : sx,
    determinant_symbolic_minor M = Ok dm /\
    (forall fuel, (6 <= fuel)%nat ->
       determinant_symbolic_perm fuel M = Some (Ok dp) /\
       determinant fuel M true = Some (Ok (ex_normal dm)) /\
       determinant fuel M false = Some (Ok dp)) /\
    ex_normal (ex_sub dm dp) = exZERO /\
    ex_is_zero (ex_normal (ex_sub dm dp)) = true /\
    ex_normal (ex_sub dm L) = exZERO /\
    ex_normal (ex_sub dp L) = exZERO /\
    ex_normal dm = ex_normal dp /\
    ex_normal dm = ex_normal L /\
    ex_normal dp = ex_normal L.
Proof.
  intros Hnd M L.
  set (l := [a00; a01; a02; a10; a11; a12; a20; a21; a22]) in *.
  set (f := fun i : nat => default 0%nat (l !! i)).
  assert (Hinj : forall x y : nat,
             (x < 9)%nat -> (y < 9)%nat -> f x = f y -> x = y).
  { intros x y Hx Hy. apply lookup_inj_on; trivial. }
  eexists. eexists.
  split; [vm_compute; reflexivity |].
  split.
  { intros fuel Hfuel. do 6 (destruct fuel as [| fuel]; [lia |]).
    repeat split; vm_compute; reflexivity. }
  subst L; unfold leibniz3.
  split; [| split; [apply is_zero_of_normal | split; [| split]]];
    try match goal with
        | |- ex_normal (ex_sub ?x ?y) = exZERO =>
            change (sx_normal (sx_sub x y) = numeric 0)
        end;
    try normal_zero_by_renaming f Hinj a00 a01 a02 a10 a11 a12 a20 a21 a22.
  repeat split;
    match goal with
    | |- ex_normal ?x = ex_normal ?y => change (sx_normal x = sx_normal y)
    end;
    normal_eq_by_renaming f Hinj a00 a01 a02 a10 a11 a12 a20 a21 a22.
Qed.

Lemma determinant_3x3_algorithms_agree_witness :
  NoDup [0; 1; 2; 3; 4; 5; 6; 7; 8]%nat /\
  exists dm dp : sx,
    determinant_symbolic_minor (matrix3 [0; 1; 2; 3; 4; 5; 6; 7; 8]%nat)
    = Ok dm /\
    determinant_symbolic_perm 6 (matrix3 [0; 1; 2; 3; 4; 5; 6; 7; 8]%nat)
    = Some (Ok dp) /\
    ex_normal (ex_sub dm dp) = exZERO.
Proof.
  assert (Hnd : NoDup [0; 1; 2; 3; 4; 5; 6; 7; 8]%nat)
    by (apply (bool_decide_unpack _); vm_compute; exact I).
  split; [exact Hnd |].
  destruct (determinant_3x3_algorithms_agree 0 1 2 3 4 5 6 7 8 Hnd)
    as (dm & dp & Hm & Hp & Hz & _).
  exists dm, dp. split; [exact Hm |]. split; [| exact Hz].
  exact (proj1 (Hp 6%nat (le_n 6))).
Defined.

End Determinant3.

(** ** container.pl and matrix.cpp: the recursion limit *)

Section RecursionLimit.

Context {ex : Type} `{ExOps ex}.

Variable max_recursion_level : Z.
Variable child_eval child_evalf child_normal
  : Handle.ex -> Z -> result Handle.ex.

(** C5. With a positive [max_recursion_level]: for every container node
    [evalchildren], [evalfchildren] and [normalchildren], and with them
    [eval], [evalf] and the rebuilding step of [normal], raise a
    [runtime_error] at level [-max_recursion_level], and so do
    [matrix::eval] and [matrix::evalf] for every matrix; at a level strictly
    between that bound and 1 the level check lets the call through: the
    result is the evaluation of the children one level down, and an
    exception can only be one a child raised. *)
Theorem recursion_limit_is_fatal (c : Container.container)
    (M : Matrix.matrix ex) :
  0 < max_recursion_level ->
  (Container.evalchildren max_recursion_level child_eval c
     (- max_recursion_level) = Throw runtime_error /\
   Container.evalfchildren max_recursion_level child_evalf c
     (- max_recursion_level) = Throw runtime_error /\
   Container.normalchildren max_recursion_level child_normal c
     (- max_recursion_level) = Throw runtime_error /\
   Container.eval max_recursion_level child_eval c
     (- max_recursion_level) = Throw runtime_error /\
   Container.evalf max_recursion_level child_evalf c
     (- max_recursion_level) = Throw runtime_error /\
   Container.normal_rebuild max_recursion_level child_normal c
     (- max_recursion_level) = Throw runtime_error /\
   Matrix.eval max_recursion_level M (- max_recursion_level)
     = Throw runtime_error /\
   Matrix.evalf max_recursion_level M (- max_recursion_level)
     = Throw runtime_error) /\
  (forall level, - max_recursion_level < level < 1 ->
     Container.evalchildren max_recursion_level child_eval c level
       = Container.map_result (fun it => child_eval it (level - 1))
           (Container.seq c) /\
     Container.evalfchildren max_recursion_level child_evalf c level
       = Container.map_result (fun it => child_evalf it (level - 1))
           (Container.seq c) /\
     Container.normalchildren max_recursion_level child_normal c level
       = Container.map_result (fun it => child_normal it (level - 1))
           (Container.seq c) /\
     (forall exn,
        Container.eval max_recursion_level child_eval c level = Throw exn ->
        exists child, In child (Container.seq c) /\
                      child_eval child (level - 1) = Throw exn) /\
     Matrix.eval max_recursion_level M level
       = (m2 ← Matrix.map_entries M (fun x => ex_eval x (level - 1))
                 (replicate (Z.to_nat (Matrix.row M * Matrix.col M)) exZERO);
          Ok (Matrix.mk_matrix
                (Z.lor Handle.status_flags.dynallocated
                       Handle.status_flags.evaluated)
                0 (Matrix.row M) (Matrix.col M) m2)) /\
     Matrix.evalf max_recursion_level M level
       = (m2 ← Matrix.map_entries M (fun x => ex_evalf x (level - 1))
                 (replicate (Z.to_nat (Matrix.row M * Matrix.col M)) exZERO);
          Ok (Matrix.matrix_of (Matrix.row M) (Matrix.col M) m2))).
Proof.
  intros Hpos.
  assert (Hne1 : (- max_recursion_level =? 1) = false) by (apply Z.eqb_neq; lia).
  assert (Hrefl : (- max_recursion_level =? - max_recursion_level) = true)
    by apply Z.eqb_refl.
  split.
  - unfold Container.eval, Container.evalf, Container.normal_rebuild,
      Container.evalchildren, Container.evalfchildren,
      Container.normalchildren, Matrix.eval, Matrix.evalf.
    rewrite Hne1, Hrefl. cbn. repeat split; reflexivity.
  - intros level Hlevel.
    assert (Hl1 : (level =? 1) = false) by (apply Z.eqb_neq; lia).
    assert (Hlm : (level =? - max_recursion_level) = false)
      by (apply Z.eqb_neq; lia).
    unfold Container.eval, Container.evalchildren, Container.evalfchildren,
      Container.normalchildren, Matrix.eval, Matrix.evalf.
    rewrite Hl1, Hlm. cbn [andb].
    repeat split; try reflexivity.
    intros exn Hthrow.
    destruct (Container.map_result (fun it => child_eval it (level - 1))
                (Container.seq c)) as [v | exn' |] eqn:Hmap;
      cbn in Hthrow; try discriminate.
    injection Hthrow as ->. now apply map_result_throw in Hmap.
Qed.

End RecursionLimit.

Lemma recursion_limit_is_fatal_witness :
  0 < 1024 /\
  Container.eval 1024 (fun it _ => Ok it)
    (Container.mk_container [Handle.mk_ex 1%positive; Handle.mk_ex 2%positive]) (-1024)
  = Throw runtime_error /\
  Matrix.eval 1024 (Sym.matrix3 [0; 1; 2; 3; 4; 5; 6; 7; 8]%nat) (-1024)
  = Throw runtime_error.
Proof.
  assert (Hpos : 0 < 1024) by lia.
  split; [exact Hpos |].
  destruct (recursion_limit_is_fatal 1024
              (fun it _ => Ok it) (fun it _ => Ok it) (fun it _ => Ok it)
              (Container.mk_container [Handle.mk_ex 1%positive; Handle.mk_ex 2%positive])
              (Sym.matrix3 [0; 1; 2; 3; 4; 5; 6; 7; 8]%nat) Hpos)
    as ((_ & _ & _ & Hc & _ & _ & Hm & _) & _).
  split; [exact Hc | exact Hm].
Defined.

(** ** matrix.cpp and archive.cpp: bounds checks *)

Section BoundsChecks.

Context {ex : Type} `{ExOps ex}.

Lemma vget_in_range {A : Type} (v : list A) (i : Z) :
  0 <= i < Z.of_nat (length v) -> exists x, v !! Z.to_nat i = Some x /\ vget v i = Ok x.
Proof.
  intros Hi. unfold vget.
  destruct (Z.ltb_spec i 0); [lia |].
  destruct (lookup_lt_is_Some_2 v (Z.to_nat i)) as [x Hx]; [lia |].
  exists x. now rewrite Hx.
Qed.

Lemma vget_never_throws {A : Type} (v : list A) (i : Z) (exn : exception) :
  vget v i <> Throw exn.
Proof.
  unfold vget. destruct (i <? 0); [discriminate |].
  destruct (v !! Z.to_nat i); discriminate.
Qed.

(** C4. Out-of-bounds access raises [range_error] and in-bounds access
    succeeds.  [matrix::operator()(ro,co)] throws [range_error] exactly when
    [ro<0], [ro>=rows], [co<0] or [co>=cols], and otherwise (on a matrix
    whose vector holds its [rows*cols] entries) returns the element stored
    for row [ro] and column [co], that is [m[ro*col+co]].
    [archive::get_node(id)] and [archive::unatomize(id)], for an [unsigned]
    [id], throw [range_error] exactly when [id] is not less than the size of
    the node table, respectively the atom table, and otherwise return the
    entry stored at [id]. *)
Theorem out_of_bounds_raises_range_error
    (M : Matrix.matrix ex) (ro co : Z) (ar : Archive.archive) (id : Z) :
  Matrix.wf_matrix M -> 0 <= id ->
  (Matrix.at_ M ro co = Throw range_error <->
     ro < 0 \/ Matrix.row M <= ro \/ co < 0 \/ Matrix.col M <= co) /\
  (0 <= ro < Matrix.row M -> 0 <= co < Matrix.col M ->
     exists x, Matrix.m M !! Z.to_nat (ro * Matrix.col M + co) = Some x /\
               Matrix.at_ M ro co = Ok x) /\
  (Archive.get_node ar id = Throw range_error <->
     Z.of_nat (length (Archive.nodes ar)) <= id) /\
  (id < Z.of_nat (length (Archive.nodes ar)) ->
     exists n, Archive.nodes ar !! Z.to_nat id = Some n /\
               Archive.get_node ar id = Ok n) /\
  (Archive.unatomize ar id = Throw range_error <->
     Z.of_nat (length (Archive.atoms ar)) <= id) /\
  (id < Z.of_nat (length (Archive.atoms ar)) ->
     exists s, Archive.atoms ar !! Z.to_nat id = Some s /\
               Archive.unatomize ar id = Ok s).
Proof.
  intros (Hrow & Hcol & Hlen) Hid.
  split; [| split; [| split; [| split; [| split]]]].
  - unfold Matrix.at_.
    destruct (Z.ltb_spec ro 0), (Z.leb_spec (Matrix.row M) ro),
      (Z.ltb_spec co 0), (Z.leb_spec (Matrix.col M) co); cbn;
      try (split; [intros _; lia | reflexivity]).
    split; [| lia]. intros Hthrow. now apply vget_never_throws in Hthrow.
  - intros Hro Hco. unfold Matrix.at_.
    destruct (Z.ltb_spec ro 0), (Z.leb_spec (Matrix.row M) ro),
      (Z.ltb_spec co 0), (Z.leb_spec (Matrix.col M) co); try lia; cbn.
    apply vget_in_range. rewrite Hlen. nia.
  - unfold Archive.get_node.
    destruct (Z.leb_spec (Z.of_nat (length (Archive.nodes ar))) id).
    + split; [trivial | reflexivity].
    + split; [| lia].
      destruct (Archive.nodes ar !! Z.to_nat id); discriminate.
  - intros Hlt. unfold Archive.get_node.
    destruct (Z.leb_spec (Z.of_nat (length (Archive.nodes ar))) id); [lia |].
    destruct (lookup_lt_is_Some_2 (Archive.nodes ar) (Z.to_nat id)) as [n Hn];
      [lia |].
    exists n. now rewrite Hn.
  - unfold Archive.unatomize.
    destruct (Z.leb_spec (Z.of_nat (length (Archive.atoms ar))) id).
    + split; [trivial | reflexivity].
    + split; [| lia].
      destruct (Archive.atoms ar !! Z.to_nat id); discriminate.
  - intros Hlt. unfold Archive.unatomize.
    destruct (Z.leb_spec (Z.of_nat (length (Archive.atoms ar))) id); [lia |].
    destruct (lookup_lt_is_Some_2 (Archive.atoms ar) (Z.to_nat id)) as [s Hs];
      [lia |].
    exists s. now rewrite Hs.
Qed.

End BoundsChecks.

Lemma out_of_bounds_raises_range_error_witness :
  Matrix.wf_matrix (Sym.matrix3 [0; 1; 2; 3; 4; 5; 6; 7; 8]%nat) /\
  0 <= 1 /\
  Matrix.at_ (Sym.matrix3 [0; 1; 2; 3; 4; 5; 6; 7; 8]%nat) 1 2
  = Ok (Sym.symbol 5) /\
  Matrix.at_ (Sym.matrix3 [0; 1; 2; 3; 4; 5; 6; 7; 8]%nat) 3 0
  = Throw range_error /\
  Archive.get_node Archive.empty_archive 1 = Throw range_error.
Proof.
  assert (Hwf : Matrix.wf_matrix (Sym.matrix3 [0; 1; 2; 3; 4; 5; 6; 7; 8]%nat))
    by (repeat split; cbn; lia).
  assert (Hid : 0 <= 1) by lia.
  split; [exact Hwf |]. split; [exact Hid |].
  split; [reflexivity |].
  destruct (out_of_bounds_raises_range_error
              (Sym.matrix3 [0; 1; 2; 3; 4; 5; 6; 7; 8]%nat) 3 0
              Archive.empty_archive 1 Hwf Hid)
    as (Hat & _ & Hnode & _).
  split.
  - apply Hat. right. left. cbn. lia.
  - apply Hnode. cbn. lia.
Defined.

(** ** archive.cpp: de-duplication of nodes *)

Section Deduplication.

Import Archive.

Lemma wrap_succ (id : Z) (k : nat) :
  wrap (wrap (id + 1) + Z.of_nat k) = wrap (id + Z.of_nat (S k)).
Proof.
  unfold wrap. rewrite Zplus_mod_idemp_l. f_equal. lia.
Qed.

(** The search returns the position of the first stored node with the same
    expression. *)
Lemma add_node_search_found (ns : list archive_node) (n : archive_node) :
  forall id,
    (exists x, In x ns /\ has_same_ex_as x n = true) ->
    exists k x,
      ns !! k = Some x /\ has_same_ex_as x n = true /\
      (forall j y, (j < k)%nat -> ns !! j = Some y ->
                   has_same_ex_as y n = false) /\
      add_node_search ns n id = Some (if k is O then id
                                      else wrap (id + Z.of_nat k)).
Proof.
  induction ns as [| x0 ns IH]; intros id (x & Hin & Hsame).
  - destruct Hin.
  - cbn [add_node_search].
    destruct (has_same_ex_as x0 n) eqn:H0.
    + exists O, x0. repeat split; trivial. intros j y Hj. lia.
    + destruct Hin as [-> | Hin]; [congruence |].
      destruct (IH (wrap (id + 1)) (ex_intro _ x (conj Hin Hsame)))
        as (k & y & Hk & Hy & Hfirst & Hres).
      exists (S k), y. repeat split; trivial.
      * intros j z Hj Hz. destruct j as [| j]; cbn in Hz.
        -- congruence.
        -- apply (Hfirst j); [lia | assumption].
      * rewrite Hres. f_equal.
        destruct k as [| k]; [f_equal; lia | apply wrap_succ].
Qed.

Lemma add_node_search_none (ns : list archive_node) (n : archive_node) :
  forall id,
    add_node_search ns n id = None ->
    forall x, In x ns -> has_same_ex_as x n = false.
Proof.
  induction ns as [| x0 ns IH]; intros id Hnone x Hin; [destruct Hin |].
  cbn [add_node_search] in Hnone.
  destruct (has_same_ex_as x0 n) eqn:H0; [discriminate |].
  destruct Hin as [<- | Hin]; [assumption |].
  now apply (IH _ Hnone).
Qed.

Lemma stored_pointers_app (ns ms : list archive_node) :
  stored_pointers (ns ++ ms) = stored_pointers ns ++ stored_pointers ms.
Proof.
  unfold stored_pointers. now rewrite List.filter_app, map_app.
Qed.

Lemma stored_pointers_in (ns : list archive_node) (p : Handle.basic_ptr) :
  In p (stored_pointers ns) ->
  exists x, In x ns /\ has_expression x = true /\ Handle.bp (e x) = p.
Proof.
  unfold stored_pointers. intros Hin.
  apply in_map_iff in Hin. destruct Hin as (x & Hp & Hx).
  apply List.filter_In in Hx. destruct Hx as [Hx Hhas]. eauto.
Qed.

(** [add_node] keeps the stored pointers free of duplicates. *)
Lemma add_node_keeps_unique (ar : archive) (n : archive_node) :
  NoDup (stored_pointers (nodes ar)) ->
  NoDup (stored_pointers (nodes (snd (add_node ar n)))).
Proof.
  intros Hnd. unfold add_node.
  destruct (add_node_search (nodes ar) n 0) as [id |] eqn:Hsearch;
    cbn [snd nodes]; [assumption |].
  rewrite stored_pointers_app. unfold stored_pointers at 2. cbn [List.filter].
  destruct (has_expression n) eqn:Hn; cbn [map].
  - apply NoDup_app. split; [assumption |]. split; [| apply NoDup_singleton].
    intros p Hp Hp'. apply list_elem_of_In in Hp.
    apply list_elem_of_singleton in Hp'. subst p.
    apply stored_pointers_in in Hp. destruct Hp as (x & Hin & Hx & Hbp).
    pose proof (add_node_search_none _ _ _ Hsearch x Hin) as Hdiff.
    unfold has_same_ex_as in Hdiff. rewrite Hx, Hn in Hdiff. cbn in Hdiff.
    apply bool_decide_eq_false in Hdiff. contradiction.
  - now rewrite app_nil_r.
Qed.

Lemma atomize_nodes (ar : archive) (s : string) :
  nodes (snd (atomize ar s)) = nodes ar.
Proof.
  unfold atomize. now destruct (atomize_search (atoms ar) s 0).
Qed.

Lemma run_hook_keeps_unique
    (make : archive -> aex -> archive_node * archive) (calls : list acall) :
  Forall (call_holds (fun value => keeps_unique (fun ar => make ar value)))
         calls ->
  forall n, keeps_unique (fun ar => run_hook make calls n ar).
Proof.
  induction 1 as [| c calls Hc Hcalls IH]; intros n ar Hnd; cbn [run_hook];
    [assumption |].
  destruct c as [nm v | nm v | nm v | nm value].
  - unfold add_bool.
    destruct (atomize ar nm) as [a ar1] eqn:Ha.
    apply IH. change ar1 with (snd (a, ar1)). rewrite <- Ha.
    now rewrite atomize_nodes.
  - unfold add_unsigned.
    destruct (atomize ar nm) as [a ar1] eqn:Ha.
    apply IH. change ar1 with (snd (a, ar1)). rewrite <- Ha.
    now rewrite atomize_nodes.
  - unfold add_string.
    destruct (atomize ar nm) as [a ar1] eqn:Ha.
    destruct (atomize ar1 v) as [a' ar2] eqn:Ha'.
    apply IH. change ar2 with (snd (a', ar2)). rewrite <- Ha'.
    rewrite atomize_nodes. change ar1 with (snd (a, ar1)). rewrite <- Ha.
    now rewrite atomize_nodes.
  - cbn [call_holds] in Hc. specialize (Hc ar Hnd).
    destruct (make ar value) as [child ar1]. cbn [snd] in Hc.
    pose proof (add_node_keeps_unique ar1 child Hc) as Hadd.
    destruct (add_node ar1 child) as [id ar2]. cbn [snd] in Hadd.
    destruct (atomize ar2 nm) as [a ar3] eqn:Ha.
    apply IH. change ar3 with (snd (a, ar3)). rewrite <- Ha.
    now rewrite atomize_nodes.
Qed.

Lemma make_archive_node_keeps_unique (expr : aex) :
  keeps_unique (fun ar => make_archive_node ar expr).
Proof.
  induction expr as [p hook IH] using aex_nested_ind.
  intros ar Hnd. cbn [make_archive_node].
  now apply (run_hook_keeps_unique make_archive_node hook IH).
Qed.

Lemma archive_ex_keeps_unique (ar : archive) (expr : aex) (nm : string) :
  NoDup (stored_pointers (nodes ar)) ->
  NoDup (stored_pointers (nodes (archive_ex ar expr nm))).
Proof.
  intros Hnd. unfold archive_ex.
  pose proof (make_archive_node_keeps_unique expr ar Hnd) as Hmake.
  destruct (make_archive_node ar expr) as [n ar1]. cbn [snd] in Hmake.
  pose proof (add_node_keeps_unique ar1 n Hmake) as Hadd.
  destruct (add_node ar1 n) as [id ar2]. cbn [snd] in Hadd.
  destruct (atomize ar2 nm) as [a ar3] eqn:Ha. cbn [nodes].
  change ar3 with (snd (a, ar3)). rewrite <- Ha.
  now rewrite atomize_nodes.
Qed.

(** C6. Archiving de-duplicates nodes by expression-pointer identity.
    Whenever some stored node holds the pointer-identical expression
    ([has_same_ex_as]), [add_node] leaves the archive as it is and returns
    the id of such a node, the first one; so in every archive built from an
    empty one by calls of [add_node] and [archive_ex], the node table holds
    at most one node per expression pointer. *)
Theorem archive_nodes_deduplicated :
  (forall ar n,
     (exists x, In x (nodes ar) /\ has_same_ex_as x n = true) ->
     exists k x,
       nodes ar !! k = Some x /\ has_same_ex_as x n = true /\
       (forall j y, (j < k)%nat -> nodes ar !! j = Some y ->
                    has_same_ex_as y n = false) /\
       add_node ar n = (wrap (Z.of_nat k), ar)) /\
  (forall ar, archived ar -> NoDup (stored_pointers (nodes ar))).
Proof.
  split.
  - intros ar n Hex.
    destruct (add_node_search_found (nodes ar) n 0 Hex)
      as (k & x & Hk & Hx & Hfirst & Hres).
    exists k, x. repeat split; trivial.
    unfold add_node. rewrite Hres. destruct k; reflexivity.
  - unfold archived. apply rtc_ind_r.
    + constructor.
    + intros ar1 ar2 _ Hstep IH.
      destruct Hstep as [ar n | ar expr nm].
      * now apply add_node_keeps_unique.
      * now apply archive_ex_keeps_unique.
Qed.

End Deduplication.

(** ** archive.cpp: the version check of the reader *)

Section VersionCheck.

Import Archive.

Lemma read_unsigned_loop_no_throw (ins : istream) :
  forall ret shift exn, read_unsigned_loop ins ret shift <> Throw exn.
Proof.
  induction ins as [| b ins IH]; intros ret shift exn; cbn; [discriminate |].
  destruct (32 <=? shift); [discriminate |].
  destruct (Z.land b 128 =? 0); [discriminate | apply IH].
Qed.

Lemma read_unsigned_no_throw (ins : istream) (exn : exception) :
  read_unsigned ins <> Throw exn.
Proof. apply read_unsigned_loop_no_throw. Qed.

(** Case analysis on a [read_unsigned] that is followed by more reading. *)
Tactic Notation "read_step" constr(ins) ident(Hread) ident(v) ident(ins') :=
  let exn' := fresh "exn" in
  destruct (read_unsigned ins) as [[v ins'] | exn' |] eqn:Hread; cbn;
  [ | exfalso; exact (read_unsigned_no_throw _ _ Hread) | discriminate ].

Lemma read_props_no_throw (count : nat) :
  forall i ps ins exn, read_props count i ps ins <> Throw exn.
Proof.
  induction count as [| count IH]; intros i ps ins exn; cbn; [discriminate |].
  read_step ins Hname nm ins1. read_step ins1 Hvalue value ins2. apply IH.
Qed.

Lemma read_archive_node_no_throw (ins : istream) (n : archive_node)
    (exn : exception) :
  read_archive_node ins n <> Throw exn.
Proof.
  unfold read_archive_node. cbn. read_step ins Hnum num ins1.
  destruct (read_props _ _ _ _) as [[ps ins'] | exn' |] eqn:Hprops; cbn;
    try discriminate.
  exfalso. exact (read_props_no_throw _ _ _ _ _ Hprops).
Qed.

Lemma read_exprs_no_throw (count : nat) :
  forall i xs ins exn, read_exprs count i xs ins <> Throw exn.
Proof.
  induction count as [| count IH]; intros i xs ins exn; cbn; [discriminate |].
  read_step ins Hname nm ins1. read_step ins1 Hroot rt ins2. apply IH.
Qed.

Lemma read_nodes_no_throw (count : nat) :
  forall i ns ins exn, read_nodes count i ns ins <> Throw exn.
Proof.
  induction count as [| count IH]; intros i ns ins exn; cbn; [discriminate |].
  destruct (ns !! i) as [n |]; [| discriminate].
  destruct (read_archive_node ins n) as [[n' ins'] | exn' |] eqn:Hnode; cbn;
    try discriminate.
  - apply IH.
  - exfalso. exact (read_archive_node_no_throw _ _ _ Hnode).
Qed.

Variables ARCHIVE_VERSION ARCHIVE_AGE : Z.

(** After the header nothing in the reader raises. *)
Lemma read_archive_throws_in_header (zero : Handle.ex) (ins : istream)
    (ar : archive) (exn : exception) :
  read_archive ARCHIVE_VERSION ARCHIVE_AGE zero ins ar = Throw exn <->
  read_header ARCHIVE_VERSION ARCHIVE_AGE ins = Throw exn.
Proof.
  unfold read_archive.
  destruct (read_header ARCHIVE_VERSION ARCHIVE_AGE ins)
    as [[version ins1] | exn1 |]; cbn;
    [| split; intros [= ->]; reflexivity | split; discriminate].
  split; [| discriminate]. intros Hthrow. exfalso. revert Hthrow.
  read_step ins1 Hatoms num_atoms ins2.
  destruct (read_atoms _ _ _ _) as [ats ins3].
  read_step ins3 Hexprs num_exprs ins4.
  destruct (read_exprs _ _ _ _) as [[xs ins5] | exn5 |] eqn:Hxs; cbn;
    try discriminate;
    [| intros _; exact (read_exprs_no_throw _ _ _ _ _ Hxs)].
  read_step ins5 Hnodes num_nodes ins6.
  destruct (read_nodes _ _ _ _) as [[ns ins7] | exn7 |] eqn:Hns; cbn;
    try discriminate.
  intros _. exact (read_nodes_no_throw _ _ _ _ _ Hns).
Qed.

Hypothesis age_in_range : 0 <= ARCHIVE_AGE <= ARCHIVE_VERSION.
Hypothesis version_in_range : ARCHIVE_VERSION < 2 ^ 32.

Lemma version_rejected_iff (version : Z) :
  version_rejected ARCHIVE_VERSION ARCHIVE_AGE version = true <->
  version > ARCHIVE_VERSION \/ version < ARCHIVE_VERSION - ARCHIVE_AGE.
Proof.
  unfold version_rejected, wrap.
  rewrite !Z.mod_small by lia.
  rewrite orb_true_iff, !Z.ltb_lt. lia.
Qed.

(** C7. With the library's version numbers in their range ([0 <=
    ARCHIVE_AGE <= ARCHIVE_VERSION], fitting an [unsigned]): on a stream
    that starts with the signature [G A R C] followed by a version number,
    the reader raises a [runtime_error] exactly when the version is greater
    than [ARCHIVE_VERSION] or less than [ARCHIVE_VERSION - ARCHIVE_AGE];
    every version in the closed interval between the two passes the check
    (the header is read, and whatever the rest of the stream holds the
    reader raises nothing). *)
Theorem version_check_rejects_outside_interval
    (rest rest' : istream) (version : Z) (zero : Handle.ex) (ar : archive) :
  read_unsigned rest = Ok (version, rest') ->
  let ins := 71 :: 65 :: 82 :: 67 :: rest in
  (read_header ARCHIVE_VERSION ARCHIVE_AGE ins = Throw runtime_error <->
     version > ARCHIVE_VERSION \/ version < ARCHIVE_VERSION - ARCHIVE_AGE) /\
  (read_archive ARCHIVE_VERSION ARCHIVE_AGE zero ins ar = Throw runtime_error
     <->
     version > ARCHIVE_VERSION \/ version < ARCHIVE_VERSION - ARCHIVE_AGE) /\
  (ARCHIVE_VERSION - ARCHIVE_AGE <= version <= ARCHIVE_VERSION ->
     read_header ARCHIVE_VERSION ARCHIVE_AGE ins = Ok (version, rest') /\
     forall exn,
       read_archive ARCHIVE_VERSION ARCHIVE_AGE zero ins ar <> Throw exn).
Proof.
  intros Hread ins.
  assert (Hheader :
            read_header ARCHIVE_VERSION ARCHIVE_AGE ins
            = if version_rejected ARCHIVE_VERSION ARCHIVE_AGE version
              then Throw runtime_error else Ok (version, rest')).
  { unfold read_header, ins. cbn. now rewrite Hread. }
  pose proof (version_rejected_iff version) as Hiff.
  assert (Hfirst :
            read_header ARCHIVE_VERSION ARCHIVE_AGE ins = Throw runtime_error
            <-> version > ARCHIVE_VERSION
                \/ version < ARCHIVE_VERSION - ARCHIVE_AGE).
  { rewrite Hheader, <- Hiff.
    destruct (version_rejected ARCHIVE_VERSION ARCHIVE_AGE version);
      split; congruence. }
  split; [exact Hfirst |].
  split; [now rewrite read_archive_throws_in_header |].
  intros Hin.
  assert (Hok : version_rejected ARCHIVE_VERSION ARCHIVE_AGE version = false).
  { destruct (version_rejected ARCHIVE_VERSION ARCHIVE_AGE version);
      [| reflexivity].
    destruct (proj1 Hiff eq_refl); lia. }
  rewrite Hok in Hheader. split; [exact Hheader |].
  intros exn Hthrow. apply read_archive_throws_in_header in Hthrow.
  congruence.
Qed.

End VersionCheck.

Lemma version_check_rejects_outside_interval_witness :
  0 <= 1 <= 3 /\ 3 < 2 ^ 32 /\
  Archive.read_unsigned [2; 0; 0; 0] = Ok (2, [0; 0; 0]) /\
  Archive.read_header 3 1 [71; 65; 82; 67; 2; 0; 0; 0] = Ok (2, [0; 0; 0]).
Proof.
  assert (Hage : 0 <= 1 <= 3) by lia.
  assert (Hver : 3 < 2 ^ 32) by lia.
  assert (Hread : Archive.read_unsigned [2; 0; 0; 0] = Ok (2, [0; 0; 0]))
    by reflexivity.
  repeat (split; [assumption |]).
  destruct (version_check_rejects_outside_interval 3 1 Hage Hver
              [2; 0; 0; 0] [0; 0; 0] 2 (Handle.mk_ex 1%positive)
              Archive.empty_archive Hread) as (_ & _ & Hpass).
  apply Hpass. lia.
Defined.

(** ** print.cpp: parentheses and precedence *)

Section Parentheses.

Import Print.

Local Open Scope string_scope.

Lemma append_assoc (a b c : string) : (a ++ b) ++ c = a ++ b ++ c.
Proof.
  induction a as [| ch a IH]; [reflexivity |].
  change (String ch ((a ++ b) ++ c) = String ch (a ++ b ++ c)).
  now rewrite IH.
Qed.

Lemma append_nil_r (a : string) : a ++ EmptyString = a.
Proof.
  induction a as [| ch a IH]; [reflexivity |].
  change (String ch (a ++ EmptyString) = String ch a). now rewrite IH.
Qed.





Variable ex : Type.
Variable ex_print : ex -> Z -> string.
Variables power_precedence expairseq_precedence add_precedence
  mul_precedence relational_precedence : Z.
Variable ex_positive : ex -> bool.
Variable ex_equals_int : ex -> Z -> bool.
Variable ex_is_zero : ex -> bool.
Variable ex_is_equal : ex -> ex -> bool.
Variable ex_compare : ex -> ex -> Z.
Variable exONE : ex.
Variable ex_power : ex -> ex -> ex.
Variable recombine_pair_to_ex : expair ex -> ex.
Variable default_overall_coeff : seq_class -> ex.

Lemma put_app (os s : string) : put os s = os ++ s.
Proof. reflexivity. Qed.






End Parentheses.

(** ** inifcns.cpp: what [lsolve] does with a failed elimination *)

Section LsolveErrors.

Import Matrix Inifcns.

Context {ex : Type} `{ExOps ex}.

(** C2, as the code has it.  In the list form of [lsolve], a failure of its
    own checks and of building the system goes to the caller; once the
    system is built, an exception out of the elimination is caught when its
    class is [runtime_error] or derives from it ([range_error],
    [overflow_error]), and [lsolve] then returns the empty list [lst()]; an
    exception of any other class out of the elimination goes to the
    caller. *)
Theorem lsolve_catches_runtime_error (eqns symbols : ex) :
  ex_info eqns info_flags.relation_equal = false ->
  (forall exn, lsolve_build eqns symbols = Throw exn ->
               lsolve eqns symbols = Throw exn) /\
  (forall sys rhs vars exn,
     lsolve_build eqns symbols = Ok (sys, rhs, vars) ->
     fraction_free_elim sys vars rhs = Throw exn ->
     lsolve eqns symbols
     = if derives_from_runtime_error exn then Ok (ex_lst []) else Throw exn).
Proof.
  intros Hlist. unfold lsolve. rewrite Hlist. unfold lsolve_lists. split.
  - intros exn ->. reflexivity.
  - intros sys rhs vars exn -> Helim. cbn.
    unfold lsolve_try_elim. rewrite Helim.
    now destruct (derives_from_runtime_error exn).
Qed.

End LsolveErrors.

Section LsolveSingular.

Import Sym Matrix Inifcns.

(** The system [x == 1, x == 2] in the unknown [x]. *)
Example lsolve_singular_system :
  lsolve_build (lst [relational (symbol 0) (numeric 1);
                     relational (symbol 0) (numeric 2)])
               (lst [symbol 0])
  = Ok (matrix_of 2 1 [numeric 1; numeric 1],
        matrix_of 2 1 [numeric 1; numeric 2],
        matrix_of 1 1 [symbol 0]).
Proof. vm_compute. reflexivity. Qed.

(** C2 as stated fails: for the singular system [x == 1, x == 2] the
    elimination raises a [runtime_error], and [lsolve] does not pass it on
    but returns the empty list. *)
Lemma lsolve_swallows_singular_system :
  fraction_free_elim (matrix_of 2 1 [numeric 1; numeric 1])
                     (matrix_of 1 1 [symbol 0])
                     (matrix_of 2 1 [numeric 1; numeric 2])
  = Throw runtime_error /\
  lsolve (lst [relational (symbol 0) (numeric 1);
               relational (symbol 0) (numeric 2)])
         (lst [symbol 0])
  = Ok (lst []) /\
  ~ (fraction_free_elim (matrix_of 2 1 [numeric 1; numeric 1])
                        (matrix_of 1 1 [symbol 0])
                        (matrix_of 2 1 [numeric 1; numeric 2])
     = Throw runtime_error ->
     lsolve (lst [relational (symbol 0) (numeric 1);
                  relational (symbol 0) (numeric 2)])
            (lst [symbol 0])
     = Throw runtime_error).
Proof.
  assert (Helim : fraction_free_elim (matrix_of 2 1 [numeric 1; numeric 1])
                    (matrix_of 1 1 [symbol 0])
                    (matrix_of 2 1 [numeric 1; numeric 2])
                  = Throw runtime_error) by (vm_compute; reflexivity).
  assert (Hsolve : lsolve (lst [relational (symbol 0) (numeric 1);
                                relational (symbol 0) (numeric 2)])
                          (lst [symbol 0])
                   = Ok (lst [])) by (vm_compute; reflexivity).
  split; [exact Helim |]. split; [exact Hsolve |].
  intros Hpass. specialize (Hpass Helim). rewrite Hsolve in Hpass.
  discriminate.
Qed.

Lemma lsolve_catches_runtime_error_witness :
  ex_info (lst [relational (symbol 0) (numeric 1);
                relational (symbol 0) (numeric 2)])
          info_flags.relation_equal = false /\
  lsolve (lst [relational (symbol 0) (numeric 1);
               relational (symbol 0) (numeric 2)])
         (lst [symbol 0])
  = Ok (ex_lst []).
Proof.
  assert (Hlist : ex_info (lst [relational (symbol 0) (numeric 1);
                                relational (symbol 0) (numeric 2)])
                          info_flags.relation_equal = false) by reflexivity.
  split; [exact Hlist |].
  destruct (lsolve_catches_runtime_error
              (lst [relational (symbol 0) (numeric 1);
                    relational (symbol 0) (numeric 2)])
              (lst [symbol 0]) Hlist) as [_ Hcatch].
  apply (Hcatch (matrix_of 2 1 [numeric 1; numeric 1])
                (matrix_of 2 1 [numeric 1; numeric 2])
                (matrix_of 1 1 [symbol 0]) runtime_error).
  - vm_compute. reflexivity.
  - vm_compute. reflexivity.
Defined.

End LsolveSingular.

(** ** archive.cpp: the atom table *)

Section AtomTable.

Import Archive.

(** The id the search loops reach after [k] steps from [id]. *)
Lemma wrap_small (z : Z) : 0 <= z < 2 ^ 32 -> wrap z = z.
Proof. intros Hz. unfold wrap. now apply Z.mod_small. Qed.

Lemma atomize_search_found (l : list string) (s : string) :
  forall id,
    In s l ->
    exists k,
      l !! k = Some s /\
      (forall j, (j < k)%nat -> l !! j <> Some s) /\
      atomize_search l s id
      = Some (if k is O then id else wrap (id + Z.of_nat k)).
Proof.
  induction l as [| x l IH]; intros id Hin; [destruct Hin |].
  cbn [atomize_search]. destruct (String.eqb_spec x s) as [-> | Hne].
  - exists O. repeat split. intros j Hj. lia.
  - destruct Hin as [-> | Hin]; [contradiction |].
    destruct (IH (wrap (id + 1)) Hin) as (k & Hk & Hfirst & Hres).
    exists (S k). split; [exact Hk |]. split.
    + intros [| j] Hj; cbn; [congruence | apply Hfirst; lia].
    + rewrite Hres. f_equal.
      destruct k as [| k]; [f_equal; lia | apply wrap_succ].
Qed.

Lemma atomize_search_none (l : list string) (s : string) :
  forall id, atomize_search l s id = None -> ~ In s l.
Proof.
  induction l as [| x l IH]; intros id Hnone Hin; [destruct Hin |].
  cbn [atomize_search] in Hnone.
  destruct (String.eqb_spec x s) as [-> | Hne]; [discriminate |].
  destruct Hin as [-> | Hin]; [contradiction |]. now apply (IH _ Hnone).
Qed.

Lemma atomize_search_some_in (l : list string) (s : string) :
  forall id id', atomize_search l s id = Some id' -> In s l.
Proof.
  induction l as [| x l IH]; intros id id'; cbn [atomize_search];
    [discriminate |].
  destruct (String.eqb_spec x s) as [-> | Hne]; [now left |].
  intros Hs. right. now apply (IH _ _ Hs).
Qed.

Lemma atomize_search_new (l : list string) (s : string) :
  forall id,
    ~ In s l ->
    atomize_search (l ++ [s]) s id
    = Some (if length l is O then id else wrap (id + Z.of_nat (length l))).
Proof.
  induction l as [| x l IH]; intros id Hnot; cbn [app atomize_search length].
  - now rewrite String.eqb_refl.
  - destruct (String.eqb_spec x s) as [-> | Hne];
      [exfalso; apply Hnot; now left |].
    rewrite IH by (intros Hin; apply Hnot; now right). f_equal.
    destruct (length l) as [| k]; [f_equal; lia | apply wrap_succ].
Qed.

Lemma index_after (id : Z) (k : nat) :
  id = 0 -> Z.of_nat k < 2 ^ 32 ->
  (if k is O then id else wrap (id + Z.of_nat k)) = Z.of_nat k.
Proof.
  intros -> Hk. destruct k as [| k]; [reflexivity |].
  apply wrap_small. lia.
Qed.

(** What [atomize] returns on a table that an [unsigned] can index: the
    first position [k] of the string in the new table; the table is the old
    one when the string was in it, and the old one with the string appended
    otherwise. *)
Lemma atomize_spec (ar : archive) (s : string) :
  Z.of_nat (length (atoms ar)) < 2 ^ 32 ->
  exists k : nat,
    fst (atomize ar s) = Z.of_nat k /\
    atoms (snd (atomize ar s)) !! k = Some s /\
    (forall j, (j < k)%nat -> atoms (snd (atomize ar s)) !! j <> Some s) /\
    (forall j t, atoms ar !! j = Some t ->
                 atoms (snd (atomize ar s)) !! j = Some t) /\
    ((In s (atoms ar) /\ snd (atomize ar s) = ar) \/
     (~ In s (atoms ar) /\ k = length (atoms ar) /\
      snd (atomize ar s)
      = mk_archive (atoms ar ++ [s]) (exprs ar) (nodes ar))).
Proof.
  intros Hlen. unfold atomize.
  destruct (atomize_search (atoms ar) s 0) as [id |] eqn:Hsearch.
  - pose proof (atomize_search_some_in _ _ _ _ Hsearch) as Hin.
    destruct (atomize_search_found (atoms ar) s 0 Hin)
      as (k & Hk & Hfirst & Hres).
    rewrite Hres in Hsearch. injection Hsearch as <-.
    exists k. cbn [fst snd].
    pose proof (lookup_lt_Some _ _ _ Hk) as Hlt.
    rewrite index_after by (trivial; lia).
    repeat split; trivial. left. split; trivial.
  - pose proof (atomize_search_none _ _ _ Hsearch) as Hnot.
    exists (length (atoms ar)). cbn [fst snd atoms].
    rewrite wrap_small by lia.
    repeat split.
    + rewrite lookup_app_r by lia. now rewrite Nat.sub_diag.
    + intros j Hj Hs. rewrite lookup_app_l in Hs by lia.
      apply Hnot. apply list_elem_of_In. now apply list_elem_of_lookup_2 in Hs.
    + intros j t Hj. rewrite lookup_app_l; [exact Hj |].
      now apply lookup_lt_Some in Hj.
    + right. repeat split; trivial.
Qed.

Lemma unatomize_lookup (ar : archive) (k : nat) (s : string) :
  atoms ar !! k = Some s -> unatomize ar (Z.of_nat k) = Ok s.
Proof.
  intros Hk. unfold unatomize.
  pose proof (lookup_lt_Some _ _ _ Hk) as Hlt.
  destruct (Z.leb_spec (Z.of_nat (length (atoms ar))) (Z.of_nat k)); [lia |].
  now rewrite Nat2Z.id, Hk.
Qed.

Lemma unatomize_ok_lookup (ar : archive) (id : Z) (s : string) :
  0 <= id -> unatomize ar id = Ok s -> atoms ar !! Z.to_nat id = Some s.
Proof.
  intros Hid. unfold unatomize.
  destruct (Z.of_nat (length (atoms ar)) <=? id); [discriminate |].
  destruct (atoms ar !! Z.to_nat id); [congruence | discriminate].
Qed.

(** X1. On an atom table that an [unsigned] can index, [atomize] and
    [unatomize] are inverse to each other and ids are stable: the id
    [atomize] returns for a string gives that string back through
    [unatomize]; asking again for the same string returns the same id and
    changes nothing; every id that was valid before denotes the same string
    afterwards; and any string that is then given this id is the string
    itself. *)
Theorem atomize_unatomize_roundtrip (ar : archive) (s : string) :
  Z.of_nat (length (atoms ar)) + 1 < 2 ^ 32 ->
  unatomize (snd (atomize ar s)) (fst (atomize ar s)) = Ok s /\
  atomize (snd (atomize ar s)) s = atomize ar s /\
  (forall id0 t, 0 <= id0 -> unatomize ar id0 = Ok t ->
                 unatomize (snd (atomize ar s)) id0 = Ok t) /\
  (forall t, fst (atomize (snd (atomize ar s)) t) = fst (atomize ar s) ->
             t = s).
Proof.
  intros Hlen.
  destruct (atomize_spec ar s ltac:(lia))
    as (k & Hid & Hk & Hfirst & Hkeep & Hcase).
  assert (Hlen' : Z.of_nat (length (atoms (snd (atomize ar s)))) < 2 ^ 32).
  { destruct Hcase as [[_ ->] | (_ & _ & ->)]; cbn [atoms]; [lia |].
    rewrite length_app. cbn. lia. }
  split; [rewrite Hid; now apply unatomize_lookup |].
  split; [| split].
  - destruct (atomize_spec (snd (atomize ar s)) s Hlen')
      as (k' & Hid' & Hk' & Hfirst' & Hkeep' & Hcase').
    assert (Hsame : snd (atomize (snd (atomize ar s)) s) = snd (atomize ar s)).
    { destruct Hcase' as [[_ Hs] | (Hnot & _)]; [exact Hs |].
      exfalso. apply Hnot. apply list_elem_of_In.
      now apply list_elem_of_lookup_2 in Hk. }
    rewrite Hsame in Hk', Hfirst'.
    assert (k' = k).
    { destruct (Nat.lt_trichotomy k' k) as [Hlt | [Heq | Hgt]]; trivial.
      - exfalso. now apply (Hfirst k' Hlt).
      - exfalso. now apply (Hfirst' k Hgt). }
    subst k'.
    destruct (atomize (snd (atomize ar s)) s) as [i a] eqn:Hagain.
    destruct (atomize ar s) as [i0 a0] eqn:Hfirstcall.
    cbn [fst snd] in *. congruence.
  - intros id0 t Hid0 Hun.
    apply unatomize_ok_lookup in Hun; trivial. apply Hkeep in Hun.
    apply unatomize_lookup in Hun. now rewrite Z2Nat.id in Hun.
  - intros t Ht.
    destruct (atomize_spec (snd (atomize ar s)) t Hlen')
      as (k' & Hid' & Hk' & _ & Hkeep' & _).
    rewrite Hid', Hid in Ht. apply Nat2Z.inj in Ht. subst k'.
    apply Hkeep' in Hk. congruence.
Qed.

Lemma atomize_unatomize_roundtrip_witness :
  Z.of_nat (length (atoms (mk_archive ["class"; "name"]%string [] []))) + 1
  < 2 ^ 32 /\
  unatomize (snd (atomize (mk_archive ["class"; "name"]%string [] [])
                    "serial"%string))
            (fst (atomize (mk_archive ["class"; "name"]%string [] [])
                    "serial"%string))
  = Ok "serial"%string.
Proof.
  assert (Hlen : Z.of_nat
                   (length (atoms (mk_archive ["class"; "name"]%string [] [])))
                 + 1 < 2 ^ 32) by (cbn; lia).
  split; [exact Hlen |].
  exact (proj1 (atomize_unatomize_roundtrip _ "serial"%string Hlen)).
Defined.

End AtomTable.

(** ** archive.cpp: what archiving keeps and what it stores *)

Section ArchiveStore.

Import Archive.

(** An invariant that [atomize] and [add_node] keep is kept by the
    construction of a node from an expression, whatever its hooks do. *)
Lemma run_hook_keeps (I : archive -> Prop)
    (make : archive -> aex -> archive_node * archive) (calls : list acall) :
  (forall s, keeps I (fun ar => atomize ar s)) ->
  (forall n, keeps I (fun ar => add_node ar n)) ->
  Forall (call_holds (fun value => keeps I (fun ar => make ar value))) calls ->
  forall n, keeps I (fun ar => run_hook make calls n ar).
Proof.
  intros Hatom Hadd.
  induction 1 as [| c calls Hc Hcalls IH]; intros n ar HI; cbn [run_hook];
    [assumption |].
  destruct c as [nm v | nm v | nm v | nm value].
  - unfold add_bool. pose proof (Hatom nm ar HI) as H1.
    destruct (atomize ar nm) as [a ar1]. now apply IH.
  - unfold add_unsigned. pose proof (Hatom nm ar HI) as H1.
    destruct (atomize ar nm) as [a ar1]. now apply IH.
  - unfold add_string. pose proof (Hatom nm ar HI) as H1.
    destruct (atomize ar nm) as [a ar1]. cbn [snd] in H1.
    pose proof (Hatom v ar1 H1) as H2.
    destruct (atomize ar1 v) as [a' ar2]. now apply IH.
  - cbn [call_holds] in Hc. specialize (Hc ar HI).
    destruct (make ar value) as [child ar1]. cbn [snd] in Hc.
    pose proof (Hadd child ar1 Hc) as H2.
    destruct (add_node ar1 child) as [id ar2]. cbn [snd] in H2.
    pose proof (Hatom nm ar2 H2) as H3.
    destruct (atomize ar2 nm) as [a ar3]. now apply IH.
Qed.

Lemma make_archive_node_keeps (I : archive -> Prop) :
  (forall s, keeps I (fun ar => atomize ar s)) ->
  (forall n, keeps I (fun ar => add_node ar n)) ->
  forall expr, keeps I (fun ar => make_archive_node ar expr).
Proof.
  intros Hatom Hadd expr.
  induction expr as [p hook IH] using aex_nested_ind.
  intros ar HI. cbn [make_archive_node].
  now apply (run_hook_keeps I make_archive_node hook Hatom Hadd IH).
Qed.

(** The hooks add properties to the node under construction; they leave
    its expression alone. *)
Lemma run_hook_node (make : archive -> aex -> archive_node * archive)
    (calls : list acall) :
  forall n ar,
    has_expression (fst (run_hook make calls n ar)) = has_expression n /\
    e (fst (run_hook make calls n ar)) = e n.
Proof.
  induction calls as [| c calls IH]; intros n ar; cbn [run_hook];
    [split; reflexivity |].
  destruct c as [nm v | nm v | nm v | nm value];
    unfold add_bool, add_unsigned, add_string;
    repeat match goal with
           | |- context [atomize ?a ?s] => destruct (atomize a s)
           | |- context [make ?a ?v] => destruct (make a v)
           | |- context [add_node ?a ?c] => destruct (add_node a c)
           end;
    match goal with
    | |- context [run_hook _ _ ?n' ?a'] =>
        destruct (IH n' a') as [-> ->]
    end;
    split; reflexivity.
Qed.

Lemma make_archive_node_node (ar : archive) (expr : aex) :
  has_expression (fst (make_archive_node ar expr)) = true /\
  Handle.bp (e (fst (make_archive_node ar expr))) = aex_bp expr.
Proof.
  destruct expr as [p hook]. cbn [make_archive_node aex_bp].
  destruct (run_hook_node make_archive_node hook
              (mk_archive_node [] true (Handle.mk_ex p)) ar) as [-> ->].
  split; reflexivity.
Qed.

Lemma add_node_search_some_in (ns : list archive_node) (n : archive_node) :
  forall id id',
    add_node_search ns n id = Some id' ->
    exists x, In x ns /\ has_same_ex_as x n = true.
Proof.
  induction ns as [| x0 ns IH]; intros id id'; cbn [add_node_search];
    [discriminate |].
  destruct (has_same_ex_as x0 n) eqn:H0.
  - intros _. exists x0. split; [now left | assumption].
  - intros Hs. destruct (IH _ _ Hs) as (x & Hin & Hx).
    exists x. split; [now right | assumption].
Qed.

(** What [add_node] returns on a node table that an [unsigned] can index. *)
Lemma add_node_spec (ar : archive) (n : archive_node) :
  Z.of_nat (length (nodes ar)) < 2 ^ 32 ->
  exists (k : nat) (x : archive_node),
    fst (add_node ar n) = Z.of_nat k /\
    nodes (snd (add_node ar n)) !! k = Some x /\
    atoms (snd (add_node ar n)) = atoms ar /\
    exprs (snd (add_node ar n)) = exprs ar /\
    ((has_same_ex_as x n = true /\ snd (add_node ar n) = ar) \/
     (x = n /\ k = length (nodes ar) /\
      nodes (snd (add_node ar n)) = nodes ar ++ [n] /\
      forall y, In y (nodes ar) -> has_same_ex_as y n = false)).
Proof.
  intros Hlen. unfold add_node.
  destruct (add_node_search (nodes ar) n 0) as [id |] eqn:Hsearch.
  - destruct (add_node_search_found (nodes ar) n 0
                (add_node_search_some_in _ _ _ _ Hsearch))
      as (k & x & Hk & Hx & _ & Hres).
    rewrite Hres in Hsearch. injection Hsearch as <-.
    exists k, x. cbn [fst snd].
    pose proof (lookup_lt_Some _ _ _ Hk) as Hlt.
    rewrite index_after by (trivial; lia).
    repeat split; trivial. left. split; trivial.
  - exists (length (nodes ar)), n. cbn [fst snd nodes atoms exprs].
    rewrite wrap_small by lia. repeat split.
    + rewrite lookup_app_r by lia. now rewrite Nat.sub_diag.
    + right. repeat split; trivial.
      intros y Hy. exact (add_node_search_none _ _ _ Hsearch y Hy).
Qed.

Lemma get_node_lookup (ar : archive) (k : nat) (x : archive_node) :
  nodes ar !! k = Some x -> get_node ar (Z.of_nat k) = Ok x.
Proof.
  intros Hk. unfold get_node.
  pose proof (lookup_lt_Some _ _ _ Hk) as Hlt.
  destruct (Z.leb_spec (Z.of_nat (length (nodes ar))) (Z.of_nat k)); [lia |].
  now rewrite Nat2Z.id, Hk.
Qed.

Lemma has_same_ex_as_true (x n : archive_node) :
  has_same_ex_as x n = true ->
  has_expression x = true /\ has_expression n = true /\
  Handle.bp (e x) = Handle.bp (e n).
Proof.
  unfold has_same_ex_as.
  destruct (has_expression x), (has_expression n); cbn; try discriminate.
  intros Hbp. apply bool_decide_eq_true in Hbp. auto.
Qed.

(** X2. On a node table that an [unsigned] can index, the id [add_node]
    returns is valid, and [get_node] on it gives a node that stores the
    expression added: a node with the same expression pointer when the
    added node has an expression, the added node itself when it has none;
    nodes stored before keep their ids, and the atoms and the table of
    expressions are not touched. *)
Theorem add_node_get_node_roundtrip (ar : archive) (n : archive_node) :
  Z.of_nat (length (nodes ar)) < 2 ^ 32 ->
  (exists x,
     get_node (snd (add_node ar n)) (fst (add_node ar n)) = Ok x /\
     (has_expression n = true ->
        has_expression x = true /\
        Handle.bp (e x) = Handle.bp (e n)) /\
     (has_expression n = false -> x = n)) /\
  (forall id0 y, 0 <= id0 -> get_node ar id0 = Ok y ->
                 get_node (snd (add_node ar n)) id0 = Ok y) /\
  atoms (snd (add_node ar n)) = atoms ar /\
  exprs (snd (add_node ar n)) = exprs ar.
Proof.
  intros Hlen.
  destruct (add_node_spec ar n Hlen)
    as (k & x & Hid & Hk & Hatoms & Hexprs & Hcase).
  repeat split; trivial.
  - exists x. rewrite Hid. split; [now apply get_node_lookup |].
    destruct Hcase as [[Hsame _] | (-> & _)].
    + apply has_same_ex_as_true in Hsame. destruct Hsame as (Hx & Hn & Hbp).
      split; [auto | congruence].
    + split; [auto | reflexivity].
  - intros id0 y Hid0 Hget.
    destruct Hcase as [[_ ->] | (_ & _ & Hnodes & _)]; [exact Hget |].
    unfold get_node in *. rewrite Hnodes, length_app. cbn [length].
    destruct (Z.leb_spec (Z.of_nat (length (nodes ar))) id0);
      [discriminate |].
    destruct (Z.leb_spec (Z.of_nat (length (nodes ar) + 1)) id0); [lia |].
    rewrite lookup_app_l by lia. exact Hget.
Qed.

Lemma add_node_get_node_roundtrip_witness :
  Z.of_nat (length (nodes empty_archive)) < 2 ^ 32 /\
  exists x,
    get_node
      (snd (add_node empty_archive
              (mk_archive_node [] true (Handle.mk_ex 5%positive))))
      (fst (add_node empty_archive
              (mk_archive_node [] true (Handle.mk_ex 5%positive))))
    = Ok x /\
    Handle.bp (e x) = 5%positive.
Proof.
  assert (Hlen : Z.of_nat (length (nodes empty_archive)) < 2 ^ 32)
    by (cbn; lia).
  split; [exact Hlen |].
  destruct (add_node_get_node_roundtrip empty_archive
              (mk_archive_node [] true (Handle.mk_ex 5%positive)) Hlen)
    as ((x & Hget & Hexpr & _) & _).
  exists x. split; [exact Hget |]. now apply Hexpr.
Defined.

Lemma grows_refl (ar : archive) : grows ar ar.
Proof. repeat split; reflexivity. Qed.

Lemma grows_trans (a b c : archive) : grows a b -> grows b c -> grows a c.
Proof.
  intros (He1 & Ha1 & Hn1) (He2 & Ha2 & Hn2).
  repeat split; [congruence | etrans; eassumption | etrans; eassumption].
Qed.

Lemma atomize_grows (ar : archive) (s : string) :
  grows ar (snd (atomize ar s)).
Proof.
  unfold atomize. destruct (atomize_search (atoms ar) s 0);
    cbn [snd]; [apply grows_refl |].
  repeat split; cbn; [now apply prefix_app_r | reflexivity].
Qed.

Lemma add_node_grows (ar : archive) (n : archive_node) :
  grows ar (snd (add_node ar n)).
Proof.
  unfold add_node. destruct (add_node_search (nodes ar) n 0);
    cbn [snd]; [apply grows_refl |].
  repeat split; cbn; [reflexivity | now apply prefix_app_r].
Qed.

Lemma make_archive_node_grows (ar : archive) (expr : aex) :
  grows ar (snd (make_archive_node ar expr)).
Proof.
  apply (make_archive_node_keeps (grows ar)); [| | apply grows_refl].
  - intros s a Ha. exact (grows_trans _ _ _ Ha (atomize_grows a s)).
  - intros n a Ha. exact (grows_trans _ _ _ Ha (add_node_grows a n)).
Qed.

Lemma grows_fits (ar a : archive) :
  grows ar a ->
  Z.of_nat (length (atoms a)) < 2 ^ 32 ->
  Z.of_nat (length (nodes a)) < 2 ^ 32 ->
  Z.of_nat (length (atoms ar)) < 2 ^ 32 /\
  Z.of_nat (length (nodes ar)) < 2 ^ 32.
Proof.
  intros (_ & Ha & Hn) H1 H2.
  apply prefix_length in Ha, Hn. lia.
Qed.

(** What [archive_ex] does to an archive whose result an [unsigned] can
    index. *)
Lemma archive_ex_spec (ar : archive) (expr : aex) (nm : string) :
  Z.of_nat (length (atoms (archive_ex ar expr nm))) < 2 ^ 32 ->
  Z.of_nat (length (nodes (archive_ex ar expr nm))) < 2 ^ 32 ->
  exists (a k : nat) (x : archive_node),
    exprs (archive_ex ar expr nm)
    = exprs ar ++ [mk_archived_ex (Z.of_nat a) (Z.of_nat k)] /\
    atoms ar `prefix_of` atoms (archive_ex ar expr nm) /\
    nodes ar `prefix_of` nodes (archive_ex ar expr nm) /\
    atoms (archive_ex ar expr nm) !! a = Some nm /\
    nodes (archive_ex ar expr nm) !! k = Some x /\
    has_expression x = true /\
    Handle.bp (e x) = aex_bp expr.
Proof.
  unfold archive_ex.
  pose proof (make_archive_node_grows ar expr) as Hg1.
  destruct (make_archive_node_node ar expr) as [Hn Hbp].
  destruct (make_archive_node ar expr) as [n ar1]. cbn [fst snd] in *.
  pose proof (add_node_grows ar1 n) as Hg2.
  pose proof (add_node_spec ar1 n) as Hadd.
  destruct (add_node ar1 n) as [id ar2]. cbn [fst snd] in *.
  pose proof (atomize_grows ar2 nm) as Hg3.
  pose proof (atomize_spec ar2 nm) as Hat.
  destruct (atomize ar2 nm) as [at_ ar3]. cbn [fst snd atoms nodes exprs] in *.
  intros Hatoms Hnodes.
  destruct (grows_fits _ _ Hg3 Hatoms Hnodes) as [Hatoms2 Hnodes2].
  destruct (grows_fits _ _ Hg2 Hatoms2 Hnodes2) as [Hatoms1 Hnodes1].
  destruct (Hadd Hnodes1) as (k & x & -> & Hk & _ & _ & Hcase).
  destruct (Hat Hatoms2) as (a & -> & Ha & _).
  pose proof (grows_trans _ _ _ Hg1 (grows_trans _ _ _ Hg2 Hg3))
    as (Hexprs & Hpa & Hpn).
  exists a, k, x. rewrite Hexprs.
  destruct Hg3 as (_ & _ & Hn3).
  repeat split; trivial.
  - exact (prefix_lookup_Some _ _ _ _ Hk Hn3).
  - destruct Hcase as [[Hsame _] | (-> & _)]; [| exact Hn].
    now apply has_same_ex_as_true in Hsame.
  - destruct Hcase as [[Hsame _] | (-> & _)]; [| exact Hbp].
    apply has_same_ex_as_true in Hsame. destruct Hsame as (_ & _ & ->).
    exact Hbp.
Qed.

Lemma get_top_node_lookup (ar : archive) (i k : nat) (a : Z)
    (x : archive_node) :
  exprs ar !! i = Some (mk_archived_ex a (Z.of_nat k)) ->
  nodes ar !! k = Some x ->
  get_top_node ar (Z.of_nat i) = Ok x.
Proof.
  intros Hi Hk. unfold get_top_node.
  pose proof (lookup_lt_Some _ _ _ Hi) as Hlt.
  destruct (Z.leb_spec (Z.of_nat (length (exprs ar))) (Z.of_nat i)); [lia |].
  rewrite Nat2Z.id, Hi. cbn [root]. now rewrite Nat2Z.id, Hk.
Qed.

(** X3. When the tables of the result can be indexed by an [unsigned],
    [archive_ex] adds exactly one archived expression: the count goes up by
    one, [get_top_node] at the old count gives a node that carries the
    pointer of the expression archived, the name stored with it unatomizes
    to the name passed, and the top nodes stored before are still found at
    their indices. *)
Theorem archive_ex_get_top_node (ar : archive) (expr : aex) (nm : string) :
  fits_unsigned (archive_ex ar expr nm) ->
  num_expressions (archive_ex ar expr nm) = num_expressions ar + 1 /\
  (exists x,
     get_top_node (archive_ex ar expr nm) (num_expressions ar) = Ok x /\
     has_expression x = true /\
     Handle.bp (e x) = aex_bp expr) /\
  (exists ae,
     exprs (archive_ex ar expr nm) = exprs ar ++ [ae] /\
     unatomize (archive_ex ar expr nm) (name ae) = Ok nm) /\
  (forall index y, 0 <= index -> get_top_node ar index = Ok y ->
                   get_top_node (archive_ex ar expr nm) index = Ok y).
Proof.
  intros (Hatoms & Hexprs & Hnodes).
  destruct (archive_ex_spec ar expr nm Hatoms Hnodes)
    as (a & k & x & He & Hpa & Hpn & Ha & Hk & Hx & Hbp).
  rewrite He, length_app in Hexprs. cbn [length] in Hexprs.
  unfold num_expressions. rewrite He, length_app. cbn [length].
  rewrite !wrap_small by lia.
  split; [lia |]. split; [| split].
  - exists x. split; [| split; assumption].
    apply (get_top_node_lookup _ _ k (Z.of_nat a)); [| exact Hk].
    rewrite He, lookup_app_r by lia. now rewrite Nat.sub_diag.
  - eexists. split; [reflexivity |]. cbn [name].
    now apply unatomize_lookup.
  - intros index y Hindex. unfold get_top_node. rewrite He, length_app.
    cbn [length].
    destruct (Z.leb_spec (Z.of_nat (length (exprs ar))) index);
      [discriminate |].
    destruct (Z.leb_spec (Z.of_nat (length (exprs ar) + 1)) index); [lia |].
    rewrite lookup_app_l by lia.
    destruct (exprs ar !! Z.to_nat index) as [ae |]; [| discriminate].
    destruct (nodes ar !! Z.to_nat (root ae)) as [n |] eqn:Hroot;
      [| discriminate].
    now rewrite (prefix_lookup_Some _ _ _ _ Hroot Hpn).
Qed.

Lemma archive_ex_get_top_node_witness :
  exists x,
    get_top_node
      (archive_ex empty_archive
         (AEx 7%positive [call_add_unsigned "serial"%string 3])
         "expr"%string) 0
    = Ok x /\
    Handle.bp (e x) = 7%positive.
Proof.
  assert (Hfits : fits_unsigned
                    (archive_ex empty_archive
                       (AEx 7%positive [call_add_unsigned "serial"%string 3])
                       "expr"%string))
    by (repeat split; vm_compute; reflexivity).
  destruct (archive_ex_get_top_node empty_archive
              (AEx 7%positive [call_add_unsigned "serial"%string 3])
              "expr"%string Hfits)
    as (_ & (x & Hget & _ & Hbp) & _).
  exists x. split; [exact Hget | exact Hbp].
Defined.

Lemma atomize_keeps_NoDup (s : string) :
  keeps (fun ar => List.NoDup (atoms ar)) (fun ar => atomize ar s).
Proof.
  intros ar Hnd. unfold atomize.
  destruct (atomize_search (atoms ar) s 0) eqn:Hsearch; cbn [snd atoms];
    [assumption |].
  apply atomize_search_none in Hsearch.
  apply NoDup_ListNoDup, NoDup_app. apply NoDup_ListNoDup in Hnd.
  split; [assumption |]. split; [| apply NoDup_singleton].
  intros t Ht Hin. apply list_elem_of_singleton in Hin as ->.
  apply Hsearch. now apply list_elem_of_In.
Qed.

Lemma add_node_keeps_NoDup (n : archive_node) :
  keeps (fun ar => List.NoDup (atoms ar)) (fun ar => add_node ar n).
Proof.
  intros ar Hnd. unfold add_node.
  now destruct (add_node_search (nodes ar) n 0).
Qed.

(** X4. The atom table of an archive built from the empty one by
    [add_node] and [archive_ex] never holds a string twice, whatever the
    archiving hooks of the expressions do: an atom id stands for one
    string and a string has one id. *)
Theorem archived_atoms_NoDup (ar : archive) :
  archived ar -> List.NoDup (atoms ar).
Proof.
  unfold archived. revert ar. apply rtc_ind_r; [constructor |].
  intros ar ar' _ Hstep Hnd. destruct Hstep as [ar n | ar expr nm].
  - now apply add_node_keeps_NoDup.
  - unfold archive_ex.
    pose proof (make_archive_node_keeps _ atomize_keeps_NoDup
                  add_node_keeps_NoDup expr ar Hnd) as H1.
    destruct (make_archive_node ar expr) as [n ar1]. cbn [snd] in H1.
    pose proof (add_node_keeps_NoDup n ar1 H1) as H2.
    destruct (add_node ar1 n) as [id ar2]. cbn [snd] in H2.
    pose proof (atomize_keeps_NoDup nm ar2 H2) as H3.
    destruct (atomize ar2 nm) as [a ar3]. exact H3.
Qed.

Lemma archived_atoms_NoDup_witness :
  List.NoDup
    (atoms
       (archive_ex empty_archive
          (AEx 7%positive
             [call_add_string "name"%string "x"%string;
              call_add_ex "name"%string (AEx 9%positive [])])
          "x"%string)).
Proof.
  apply archived_atoms_NoDup.
  eapply rtc_l; [apply step_archive_ex | apply rtc_refl].
Defined.

Lemma archive_step_grows (ar ar' : archive) :
  archive_step ar ar' ->
  (length (atoms ar) <= length (atoms ar'))%nat /\
  (length (exprs ar) <= length (exprs ar'))%nat /\
  (length (nodes ar) <= length (nodes ar'))%nat.
Proof.
  intros [a n | a expr nm].
  - destruct (add_node_grows a n) as (He & Ha & Hn).
    apply prefix_length in Ha, Hn. rewrite He. lia.
  - unfold archive_ex.
    pose proof (make_archive_node_grows a expr) as Hg1.
    destruct (make_archive_node a expr) as [n ar1]. cbn [snd] in Hg1.
    pose proof (add_node_grows ar1 n) as Hg2.
    destruct (add_node ar1 n) as [id ar2]. cbn [snd] in Hg2.
    pose proof (atomize_grows ar2 nm) as Hg3.
    destruct (atomize ar2 nm) as [at_ ar3]. cbn [snd] in Hg3.
    destruct (grows_trans _ _ _ Hg1 (grows_trans _ _ _ Hg2 Hg3))
      as (He & Ha & Hn).
    apply prefix_length in Ha, Hn. cbn [atoms exprs nodes].
    rewrite length_app, He. cbn [length]. lia.
Qed.

Lemma exprs_valid_grows (ar a : archive) :
  exprs_valid ar ->
  atoms ar `prefix_of` atoms a -> nodes ar `prefix_of` nodes a ->
  forall ae, In ae (exprs ar) ->
    (exists s, atoms a !! Z.to_nat (name ae) = Some s /\ 0 <= name ae) /\
    (exists x, nodes a !! Z.to_nat (root ae) = Some x /\ 0 <= root ae /\
               has_expression x = true).
Proof.
  intros Hv Ha Hn ae Hin.
  destruct (Hv ae Hin) as ((s & Hs & Hs0) & (x & Hx & Hx0 & Hxe)).
  split.
  - exists s. split; [exact (prefix_lookup_Some _ _ _ _ Hs Ha) | exact Hs0].
  - exists x. split; [exact (prefix_lookup_Some _ _ _ _ Hx Hn) |].
    split; assumption.
Qed.

Lemma archived_exprs_valid (ar : archive) :
  archived ar -> fits_unsigned ar -> exprs_valid ar.
Proof.
  unfold archived. revert ar.
  apply (rtc_ind_r (fun ar => fits_unsigned ar -> exprs_valid ar)).
  - intros _ ae [].
  - intros ar ar' _ Hstep IH (Hatoms & Hexprs & Hnodes).
    pose proof (archive_step_grows _ _ Hstep) as (Hla & Hle & Hln).
    assert (Hv : exprs_valid ar) by (apply IH; repeat split; lia).
    destruct Hstep as [ar n | ar expr nm].
    + destruct (add_node_grows ar n) as (He & Ha & Hn).
      intros ae Hin. rewrite He in Hin.
      now apply (exprs_valid_grows ar).
    + destruct (archive_ex_spec ar expr nm Hatoms Hnodes)
        as (a & k & x & He & Hpa & Hpn & Ha & Hk & Hx & _).
      intros ae Hin. rewrite He in Hin. apply in_app_or in Hin.
      destruct Hin as [Hin | [<- | []]];
        [now apply (exprs_valid_grows ar) |].
      cbn [name root]. rewrite !Nat2Z.id. split.
      * exists nm. split; [exact Ha | lia].
      * exists x. repeat split; [exact Hk | lia | exact Hx].
Qed.

(** X5. In an archive built from the empty one by [add_node] and
    [archive_ex] whose tables an [unsigned] can index, every index below
    [num_expressions] is served: [get_top_node] returns a node, and it
    carries an expression; the name stored with the expression is an atom
    of the archive.  No such call raises or reads outside a vector. *)
Theorem archived_top_nodes_valid (ar : archive) (index : Z) :
  archived ar -> fits_unsigned ar ->
  0 <= index < num_expressions ar ->
  exists (x : archive_node) (ae : archived_ex) (s : string),
    get_top_node ar index = Ok x /\ has_expression x = true /\
    exprs ar !! Z.to_nat index = Some ae /\
    unatomize ar (name ae) = Ok s.
Proof.
  intros Har Hfits Hindex.
  pose proof (archived_exprs_valid ar Har Hfits) as Hv.
  destruct Hfits as (Hatoms & Hexprs & Hnodes).
  unfold num_expressions in Hindex. rewrite wrap_small in Hindex by lia.
  destruct (lookup_lt_is_Some_2 (exprs ar) (Z.to_nat index)) as [ae Hae];
    [lia |].
  assert (Hin : In ae (exprs ar))
    by (apply list_elem_of_In; eapply list_elem_of_lookup_2; exact Hae).
  destruct (Hv ae Hin) as ((s & Hs & Hs0) & (x & Hx & Hx0 & Hxe)).
  exists x, ae, s. unfold get_top_node.
  destruct (Z.leb_spec (Z.of_nat (length (exprs ar))) index); [lia |].
  rewrite Hae, Hx. repeat split; trivial.
  rewrite <- (Z2Nat.id (name ae)) by exact Hs0.
  now apply unatomize_lookup.
Qed.

Lemma archived_top_nodes_valid_witness :
  exists (x : archive_node) (ae : archived_ex) (s : string),
    get_top_node
      (archive_ex empty_archive
         (AEx 7%positive [call_add_ex "op"%string (AEx 9%positive [])])
         "expr"%string) 0 = Ok x /\
    has_expression x = true /\
    exprs
      (archive_ex empty_archive
         (AEx 7%positive [call_add_ex "op"%string (AEx 9%positive [])])
         "expr"%string) !! Z.to_nat 0 = Some ae /\
    unatomize
      (archive_ex empty_archive
         (AEx 7%positive [call_add_ex "op"%string (AEx 9%positive [])])
         "expr"%string) (name ae) = Ok s.
Proof.
  apply archived_top_nodes_valid.
  - eapply rtc_l; [apply step_archive_ex | apply rtc_refl].
  - repeat split; vm_compute; reflexivity.
  - vm_compute. split; [discriminate | reflexivity].
Defined.

End ArchiveStore.

(** ** archive.cpp: the stream format is read back as written *)

Section WireArchive.

Import Archive.

Lemma write_props_app (ps : list property) :
  forall os, write_props os ps = os ++ write_props [] ps.
Proof.
  induction ps as [| pr ps IH]; intros os; cbn [write_props].
  - now rewrite app_nil_r.
  - rewrite IH. symmetry. rewrite IH.
    rewrite (write_unsigned_app (pvalue pr) (write_unsigned os _)).
    rewrite (write_unsigned_app (pvalue pr) (write_unsigned [] _)).
    rewrite (write_unsigned_app _ os).
    now rewrite <- !app_assoc.
Qed.

Lemma write_archive_node_app (n : archive_node) (os : ostream) :
  write_archive_node os n = os ++ write_archive_node [] n.
Proof.
  unfold write_archive_node. rewrite write_props_app. symmetry.
  rewrite write_props_app, (write_unsigned_app _ os).
  now rewrite <- !app_assoc.
Qed.

Lemma write_string_app (s : string) :
  forall os, write_string os s = os ++ write_string [] s.
Proof.
  induction s as [| c s IH]; intros os; cbn [write_string]; [reflexivity |].
  rewrite IH. symmetry. rewrite IH. unfold put. now rewrite <- !app_assoc.
Qed.

Lemma write_atoms_app (ats : list string) :
  forall os, write_atoms os ats = os ++ write_atoms [] ats.
Proof.
  induction ats as [| s ats IH]; intros os; cbn [write_atoms].
  - now rewrite app_nil_r.
  - rewrite IH. symmetry. rewrite IH, (write_string_app s os).
    now rewrite <- !app_assoc.
Qed.

Lemma write_exprs_app (xs : list archived_ex) :
  forall os, write_exprs os xs = os ++ write_exprs [] xs.
Proof.
  induction xs as [| x xs IH]; intros os; cbn [write_exprs].
  - now rewrite app_nil_r.
  - rewrite IH. symmetry. rewrite IH.
    rewrite (write_unsigned_app (root x) (write_unsigned os _)).
    rewrite (write_unsigned_app (root x) (write_unsigned [] _)).
    rewrite (write_unsigned_app _ os).
    now rewrite <- !app_assoc.
Qed.

Lemma write_nodes_app (ns : list archive_node) :
  forall os, write_nodes os ns = os ++ write_nodes [] ns.
Proof.
  induction ns as [| n ns IH]; intros os; cbn [write_nodes].
  - now rewrite app_nil_r.
  - rewrite IH. symmetry. rewrite IH, (write_archive_node_app n os).
    now rewrite <- !app_assoc.
Qed.

(** The bytes of an archive, in the order of the format. *)
Lemma write_archive_layout (ARCHIVE_VERSION : Z) (ar : archive) :
  write_archive ARCHIVE_VERSION [] ar
  = [71; 65; 82; 67]
    ++ write_unsigned [] (wrap ARCHIVE_VERSION)
    ++ write_unsigned [] (wrap (Z.of_nat (length (atoms ar))))
    ++ write_atoms [] (atoms ar)
    ++ write_unsigned [] (wrap (Z.of_nat (length (exprs ar))))
    ++ write_exprs [] (exprs ar)
    ++ write_unsigned [] (wrap (Z.of_nat (length (nodes ar))))
    ++ write_nodes [] (nodes ar).
Proof.
  unfold write_archive, put. cbn [app].
  rewrite write_nodes_app, (write_unsigned_app _ (write_exprs _ _)).
  rewrite write_exprs_app, (write_unsigned_app _ (write_atoms _ _)).
  rewrite write_atoms_app, (write_unsigned_app _ (write_unsigned _ _)).
  rewrite (write_unsigned_app (wrap ARCHIVE_VERSION)).
  now rewrite <- !app_assoc.
Qed.

Lemma getline_write_string (s : string) (rest : istream) :
  no_nul s = true ->
  getline (write_string [] s ++ rest) = (s, rest).
Proof.
  induction s as [| c s IH]; cbn [no_nul write_string]; intros Hs.
  - reflexivity.
  - apply andb_prop in Hs. destruct Hs as [Hc Hs].
    rewrite write_string_app. unfold put. cbn [app getline].
    destruct (Z.eqb_spec (Z.of_N (N_of_ascii c)) 0) as [H0 | _].
    + exfalso. assert (Hc0 : c = Ascii.zero).
      { rewrite <- (ascii_N_embedding c).
        replace (N_of_ascii c) with 0%N by lia. reflexivity. }
      rewrite Hc0 in Hc. discriminate.
    + rewrite (IH Hs), N2Z.id, ascii_N_embedding. reflexivity.
Qed.

Lemma read_atoms_write (l : list string) (rest : istream) :
  Forall (fun s => no_nul s = true) l ->
  forall i ats,
    read_atoms (length l) i ats (write_atoms [] l ++ rest)
    = (list_inserts i l ats, rest).
Proof.
  induction 1 as [| s l Hs Hl IH]; intros i ats;
    cbn [length read_atoms write_atoms list_inserts]; [reflexivity |].
  rewrite write_atoms_app, <- app_assoc, (getline_write_string _ _ Hs).
  rewrite IH. f_equal. symmetry. apply list_insert_inserts_lt. lia.
Qed.

Lemma read_exprs_write (l : list archived_ex) (rest : istream) :
  Forall valid_archived_ex l ->
  forall i xs,
    read_exprs (length l) i xs (write_exprs [] l ++ rest)
    = Ok (list_inserts i l xs, rest).
Proof.
  induction 1 as [| x l [Hname Hroot] Hl IH]; intros i xs;
    cbn [length read_exprs write_exprs list_inserts]; [reflexivity |].
  rewrite write_exprs_app, (write_unsigned_app (root x)), <- !app_assoc.
  rewrite (read_write_unsigned _ _ Hname). cbn.
  rewrite (read_write_unsigned _ _ Hroot). cbn.
  rewrite IH. do 2 f_equal. destruct x.
  symmetry. apply list_insert_inserts_lt. lia.
Qed.

(** Type and name of a property share one [unsigned]; both come back when
    the name fits 29 bits. *)
Lemma name_type_packed (ty nm : Z) :
  0 <= ty < 8 -> 0 <= nm < 2 ^ 29 ->
  is_unsigned (wrap (Z.lor ty (wrap (Z.shiftl nm 3)))) /\
  Z.land (wrap (Z.lor ty (wrap (Z.shiftl nm 3)))) 7 = ty /\
  Z.shiftr (wrap (Z.lor ty (wrap (Z.shiftl nm 3)))) 3 = nm.
Proof.
  intros Hty Hnm.
  assert (Hpacked : Z.lor ty (wrap (Z.shiftl nm 3)) = ty + 8 * nm).
  { rewrite (wrap_small (Z.shiftl nm 3))
      by (rewrite Z.shiftl_mul_pow2 by lia; lia).
    rewrite lor_shiftl_disjoint by (change (2 ^ 3) with 8; lia).
    change (2 ^ 3) with 8. lia. }
  rewrite Hpacked, wrap_small by lia.
  replace (ty + 8 * nm) with (ty + nm * 8) by lia.
  split; [unfold is_unsigned; lia |]. split.
  - change 7 with (Z.ones 3). rewrite Z.land_ones by lia.
    change (2 ^ 3) with 8. rewrite Z.mod_add by lia.
    apply Z.mod_small; lia.
  - rewrite Z.shiftr_div_pow2 by lia. change (2 ^ 3) with 8.
    rewrite Z.div_add by lia.
    rewrite Z.div_small by lia. lia.
Qed.

Lemma name_type_packed_mod (ty nm : Z) :
  0 <= ty < 8 -> 0 <= nm ->
  is_unsigned (wrap (Z.lor ty (wrap (Z.shiftl nm 3)))) /\
  Z.land (wrap (Z.lor ty (wrap (Z.shiftl nm 3)))) 7 = ty /\
  Z.shiftr (wrap (Z.lor ty (wrap (Z.shiftl nm 3)))) 3 = nm mod 2 ^ 29.
Proof.
  intros Hty Hnm.
  assert (Hmod : 0 <= nm mod 2 ^ 29 < 2 ^ 29) by (apply Z.mod_pos_bound; lia).
  replace (wrap (Z.shiftl nm 3)) with (wrap (Z.shiftl (nm mod 2 ^ 29) 3)).
  - now apply name_type_packed.
  - rewrite !Z.shiftl_mul_pow2 by lia. rewrite (wrap_small (_ * _)) by lia.
    unfold wrap. change (2 ^ 32) with (2 ^ 29 * 2 ^ 3).
    now rewrite Z.mul_mod_distr_r by lia.
Qed.

Lemma read_props_write_mod (l : list property) (rest : istream) :
  Forall writable_property l ->
  forall i ps,
    read_props (length l) i ps (write_props [] l ++ rest)
    = Ok (list_inserts i (map truncate_name l) ps, rest).
Proof.
  induction 1 as [| pr l (Hty & Hnm & Hval) Hl IH]; intros i ps;
    cbn [length read_props write_props list_inserts map]; [reflexivity |].
  destruct (name_type_packed_mod (ptype pr) (pname pr) Hty (proj1 Hnm))
    as (Hpacked & Htype & Hname).
  rewrite write_props_app, (write_unsigned_app (pvalue pr)), <- !app_assoc.
  rewrite (read_write_unsigned _ _ Hpacked). cbn.
  rewrite (read_write_unsigned _ _ Hval). cbn.
  rewrite Htype, Hname, IH. do 2 f_equal.
  symmetry. apply list_insert_inserts_lt. lia.
Qed.

Lemma valid_writable (pr : property) :
  valid_property pr -> writable_property pr /\ truncate_name pr = pr.
Proof.
  intros (Hty & Hnm & Hval). split.
  - repeat split; try apply Hty; try apply Hval; lia.
  - unfold truncate_name. rewrite Z.mod_small by lia. now destruct pr.
Qed.

Lemma truncate_name_valid (l : list property) :
  Forall valid_property l ->
  Forall writable_property l /\ map truncate_name l = l.
Proof.
  induction 1 as [| pr l Hpr Hl [IHw IHm]]; [split; [constructor | reflexivity] |].
  destruct (valid_writable pr Hpr) as [Hw Ht].
  split; [now constructor |]. cbn [map]. now rewrite Ht, IHm.
Qed.

Lemma list_inserts_all {A : Type} (l ps : list A) :
  length ps = length l -> list_inserts 0 l ps = l.
Proof.
  intros Hlen.
  rewrite <- (app_nil_r ps), list_inserts_0_r by (symmetry; exact Hlen).
  apply app_nil_r.
Qed.

Lemma read_archive_node_write_mod (n n0 : archive_node) (rest : istream) :
  Z.of_nat (length (props n)) < 2 ^ 32 ->
  Forall writable_property (props n) ->
  read_archive_node (write_archive_node [] n ++ rest) n0
  = Ok (mk_archive_node (map truncate_name (props n)) (has_expression n0)
          (e n0), rest).
Proof.
  intros Hlen Hprops. unfold read_archive_node, write_archive_node.
  rewrite write_props_app, <- app_assoc, wrap_small by lia.
  rewrite read_write_unsigned by (unfold is_unsigned; lia). cbn.
  rewrite Nat2Z.id, (read_props_write_mod _ _ Hprops). cbn.
  rewrite list_inserts_all
    by (rewrite length_resize, length_map; reflexivity).
  reflexivity.
Qed.

Lemma read_archive_node_write (n n0 : archive_node) (rest : istream) :
  valid_node n ->
  read_archive_node (write_archive_node [] n ++ rest) n0
  = Ok (read_into n n0, rest).
Proof.
  intros [Hlen Hprops].
  destruct (truncate_name_valid _ Hprops) as [Hw Hmap].
  rewrite (read_archive_node_write_mod n n0 rest Hlen Hw).
  unfold read_into. now rewrite Hmap.
Qed.

Lemma read_nodes_write (l : list archive_node) (rest : istream) :
  Forall valid_node l ->
  forall i ns,
    (i + length l <= length ns)%nat ->
    read_nodes (length l) i ns (write_nodes [] l ++ rest)
    = Ok (list_inserts i (zip_with read_into l (drop i ns)) ns, rest).
Proof.
  induction 1 as [| n l Hn Hl IH]; intros i ns Hlen;
    cbn [length read_nodes write_nodes] in *; [reflexivity |].
  destruct (lookup_lt_is_Some_2 ns i) as [n0 Hn0]; [lia |].
  rewrite Hn0, write_nodes_app, <- app_assoc.
  rewrite (read_archive_node_write _ _ _ Hn). cbn.
  rewrite IH by (rewrite length_insert; lia).
  rewrite (drop_S _ _ _ Hn0). cbn [zip_with list_inserts].
  rewrite drop_insert_lt by lia.
  do 2 f_equal. symmetry. apply list_insert_inserts_lt. lia.
Qed.

Lemma read_header_write (ARCHIVE_VERSION ARCHIVE_AGE : Z) (rest : istream) :
  0 <= ARCHIVE_AGE <= ARCHIVE_VERSION -> ARCHIVE_VERSION < 2 ^ 32 ->
  read_header ARCHIVE_VERSION ARCHIVE_AGE
    ([71; 65; 82; 67] ++ write_unsigned [] (wrap ARCHIVE_VERSION) ++ rest)
  = Ok (ARCHIVE_VERSION, rest).
Proof.
  intros Hage Hversion. unfold read_header. cbn [app get].
  rewrite wrap_small by lia. cbn.
  rewrite read_write_unsigned by (unfold is_unsigned; lia). cbn.
  destruct (version_rejected ARCHIVE_VERSION ARCHIVE_AGE ARCHIVE_VERSION)
    eqn:Hrej; [| reflexivity].
  apply version_rejected_iff in Hrej; lia.
Qed.

Lemma truncate_name_fixed (l : list property) :
  Forall writable_property l ->
  map truncate_name l = l <-> Forall (fun pr => pname pr < 2 ^ 29) l.
Proof.
  induction 1 as [| pr l (_ & Hnm & _) Hl IH]; cbn [map].
  - split; [constructor | reflexivity].
  - split.
    + intros [= Hpr Hmap]. constructor; [| now apply IH].
      rewrite <- Hpr. cbn [truncate_name pname].
      apply Z.mod_pos_bound. lia.
    + intros Hall. apply Forall_cons in Hall. destruct Hall as [Hpr Hall].
      f_equal; [| now apply IH].
      unfold truncate_name. rewrite Z.mod_small by (destruct Hnm; lia).
      now destruct pr.
Qed.

(** X6. A node written to a stream and read back into a node [n0] has the
    properties written, in order, each with its type and value and with
    its name reduced modulo [2 ^ 29], and keeps the expression of [n0];
    what follows the node in the stream is left unread.  The properties
    come back exactly as they were precisely when every name is below
    [2 ^ 29], type and name sharing one [unsigned]. *)
Theorem write_read_archive_node_roundtrip (n n0 : archive_node)
    (rest : istream) :
  Z.of_nat (length (props n)) < 2 ^ 32 ->
  Forall writable_property (props n) ->
  exists ps,
    read_archive_node (write_archive_node [] n ++ rest) n0
    = Ok (mk_archive_node ps (has_expression n0) (e n0), rest) /\
    ps = map truncate_name (props n) /\
    (ps = props n <-> Forall (fun pr => pname pr < 2 ^ 29) (props n)).
Proof.
  intros Hlen Hprops. exists (map truncate_name (props n)).
  split; [now apply read_archive_node_write_mod |].
  split; [reflexivity | now apply truncate_name_fixed].
Qed.

Lemma write_read_archive_node_roundtrip_witness :
  exists ps,
    read_archive_node
      (write_archive_node []
         (mk_archive_node
            [mk_property 1 (2 ^ 29 + 5) 300; mk_property 3 2 0]
            true (Handle.mk_ex 7%positive)) ++ [9])
      (mk_archive_node [] false (Handle.mk_ex 1%positive))
    = Ok (mk_archive_node ps false (Handle.mk_ex 1%positive), [9]) /\
    ps = [mk_property 1 5 300; mk_property 3 2 0].
Proof.
  destruct (write_read_archive_node_roundtrip
              (mk_archive_node
                 [mk_property 1 (2 ^ 29 + 5) 300; mk_property 3 2 0]
                 true (Handle.mk_ex 7%positive))
              (mk_archive_node [] false (Handle.mk_ex 1%positive)) [9])
    as (ps & Hread & Hps & _).
  - vm_compute. reflexivity.
  - repeat constructor; cbn; lia.
  - exists ps. split; [exact Hread | exact Hps].
Defined.

Lemma zip_with_read_into_fresh (zero : Handle.ex) (l : list archive_node) :
  zip_with read_into l (replicate (length l) (fresh_node zero))
  = map (forget_node zero) l.
Proof.
  induction l as [| n l IH]; [reflexivity |].
  cbn [length replicate zip_with map]. now rewrite IH.
Qed.

(** X7. With the library's version numbers in their range, an archive
    that the format can hold is read back as written: atoms and archived
    expressions are those written, every node has the properties written,
    and the rest of the stream is left unread.  The nodes keep the
    expressions of the nodes they are read into; read into an archive
    without nodes, the result is the archive written after [forget]. *)
Theorem write_read_archive_roundtrip (ARCHIVE_VERSION ARCHIVE_AGE : Z)
    (zero : Handle.ex) (ar ar0 : archive) (rest : istream) :
  0 <= ARCHIVE_AGE <= ARCHIVE_VERSION -> ARCHIVE_VERSION < 2 ^ 32 ->
  storable ar ->
  read_archive ARCHIVE_VERSION ARCHIVE_AGE zero
    (write_archive ARCHIVE_VERSION [] ar ++ rest) ar0
  = Ok (mk_archive (atoms ar) (exprs ar)
          (zip_with read_into (nodes ar)
             (resize (length (nodes ar)) (fresh_node zero) (nodes ar0))),
        rest) /\
  (nodes ar0 = [] ->
   read_archive ARCHIVE_VERSION ARCHIVE_AGE zero
     (write_archive ARCHIVE_VERSION [] ar ++ rest) ar0
   = Ok (forget zero ar, rest)).
Proof.
  intros Hage Hversion ((Hla & Hle & Hln) & Hatoms & Hexprs & Hnodes).
  assert (Hread :
    read_archive ARCHIVE_VERSION ARCHIVE_AGE zero
      (write_archive ARCHIVE_VERSION [] ar ++ rest) ar0
    = Ok (mk_archive (atoms ar) (exprs ar)
            (zip_with read_into (nodes ar)
               (resize (length (nodes ar)) (fresh_node zero) (nodes ar0))),
          rest)).
  { unfold read_archive. rewrite write_archive_layout, <- !app_assoc.
    rewrite (app_assoc [71; 65; 82; 67]), <- (app_assoc [71; 65; 82; 67]).
    rewrite read_header_write by assumption.
    rewrite !wrap_small by lia.
    unfold mbind, result_bind. cbn [rbind].
    rewrite read_write_unsigned by (unfold is_unsigned; lia).
    cbn [rbind]. rewrite Nat2Z.id, (read_atoms_write _ _ Hatoms).
    rewrite read_write_unsigned by (unfold is_unsigned; lia).
    cbn [rbind]. rewrite Nat2Z.id, (read_exprs_write _ _ Hexprs).
    cbn [rbind].
    rewrite read_write_unsigned by (unfold is_unsigned; lia).
    cbn [rbind]. rewrite Nat2Z.id.
    rewrite (read_nodes_write _ _ Hnodes)
      by (rewrite length_resize; cbn [Nat.add]; reflexivity).
    cbn [rbind]. rewrite drop_0.
    rewrite (list_inserts_all (atoms ar)) by apply length_resize.
    rewrite (list_inserts_all (exprs ar)) by apply length_resize.
    rewrite list_inserts_all
      by (rewrite length_zip_with, !length_resize; lia).
    reflexivity. }
  split; [exact Hread |].
  intros Hempty. rewrite Hread, Hempty. unfold forget.
  now rewrite resize_nil, zip_with_read_into_fresh.
Qed.

Lemma write_read_archive_roundtrip_witness :
  read_archive 1 1 (Handle.mk_ex 1%positive)
    (write_archive 1 []
       (mk_archive ["n"; "e"]%string [mk_archived_ex 1 0]
          [mk_archive_node [mk_property 1 0 300] true
             (Handle.mk_ex 7%positive)]) ++ [5])
    empty_archive
  = Ok (forget (Handle.mk_ex 1%positive)
          (mk_archive ["n"; "e"]%string [mk_archived_ex 1 0]
             [mk_archive_node [mk_property 1 0 300] true
                (Handle.mk_ex 7%positive)]), [5]).
Proof.
  apply write_read_archive_roundtrip; [lia | lia | | reflexivity].
  unfold storable, fits_unsigned, valid_archived_ex, valid_node,
    valid_property, is_unsigned.
  cbn [atoms exprs nodes props name root ptype pname pvalue length].
  repeat first [split | apply List.Forall_cons | apply List.Forall_nil];
    try reflexivity; cbn [props name root ptype pname pvalue length]; lia.
Defined.

End WireArchive.

(** ** archive.cpp: the properties of a node *)

Section NodeProperties.

Import Archive.

(** A string that was atomized keeps its id: asking again changes
    nothing. *)
Lemma atomize_again (ar : archive) (s : string) :
  atomize (snd (atomize ar s)) s = atomize ar s.
Proof.
  unfold atomize at 2 3.
  destruct (atomize_search (atoms ar) s 0) as [id |] eqn:Hsearch; cbn [snd].
  - unfold atomize. now rewrite Hsearch.
  - unfold atomize. cbn [atoms].
    rewrite atomize_search_new by exact (atomize_search_none _ _ _ Hsearch).
    f_equal. now destruct (length (atoms ar)).
Qed.

(** The id of a string that is in the table is its first index, also
    after the table has grown. *)
Lemma atomize_stable (ar a : archive) (s : string) (k : nat) :
  Z.of_nat (length (atoms a)) < 2 ^ 32 ->
  atoms ar `prefix_of` atoms a ->
  atoms ar !! k = Some s ->
  (forall j, (j < k)%nat -> atoms ar !! j <> Some s) ->
  atomize a s = (Z.of_nat k, a).
Proof.
  intros Hlen Hpre Hk Hfirst.
  destruct (atomize_spec a s Hlen) as (k' & Hid & Hk' & Hfirst' & _ & Hcase).
  pose proof (prefix_lookup_Some _ _ _ _ Hk Hpre) as Hka.
  assert (Hsame : snd (atomize a s) = a).
  { destruct Hcase as [[_ Hs] | (Hnot & _)]; [exact Hs |].
    exfalso. apply Hnot, list_elem_of_In.
    now apply list_elem_of_lookup_2 in Hka. }
  rewrite Hsame in Hk', Hfirst'.
  assert (k' = k) as ->.
  { destruct (Nat.lt_trichotomy k' k) as [Hlt | [Heq | Hgt]]; trivial.
    - exfalso. apply (Hfirst k' Hlt).
      destruct Hpre as [l Hl]. rewrite Hl in Hk'.
      rewrite lookup_app_l in Hk'; [exact Hk' |].
      apply lookup_lt_Some in Hk. lia.
    - exfalso. now apply (Hfirst' k Hgt). }
  destruct (atomize a s) as [i a']. cbn [fst snd] in *.
  rewrite Hid, Hsame. reflexivity.
Qed.

Lemma find_property_app (ps : list property) (pr : property)
    (type : property_type) (name_atom : archive_atom) :
  find_property (ps ++ [pr]) type name_atom
  = match find_property ps type name_atom with
    | Some old => Some old
    | None =>
        if (ptype pr =? property_type_code type) && (pname pr =? name_atom)
        then Some pr else None
    end.
Proof.
  induction ps as [| p ps IH]; cbn [app find_property]; [reflexivity |].
  now destruct ((ptype p =? property_type_code type) && (pname p =? name_atom)).
Qed.

(** X8. [find_unsigned] and [find_bool] return the first property of the
    name and type asked for.  So after [add_unsigned] the value found
    under the name is the one already there if there was one, and the one
    added otherwise; the same holds for [add_bool] and [find_bool]; and
    adding a property of one of the two types does not change what is
    found under that name for the other type. *)
Theorem add_find_first_wins (ar : archive) (n : archive_node) (nm : string) :
  (forall value,
     find_unsigned (snd (add_unsigned ar n nm value))
       (fst (add_unsigned ar n nm value)) nm
     = (match fst (find_unsigned ar n nm) with
        | Some old => Some old
        | None => Some value
        end, snd (add_unsigned ar n nm value))) /\
  (forall value,
     find_bool (snd (add_bool ar n nm value))
       (fst (add_bool ar n nm value)) nm
     = (match fst (find_bool ar n nm) with
        | Some old => Some old
        | None => Some value
        end, snd (add_bool ar n nm value))) /\
  (forall value,
     find_bool (snd (add_unsigned ar n nm value))
       (fst (add_unsigned ar n nm value)) nm
     = (fst (find_bool ar n nm), snd (add_unsigned ar n nm value))) /\
  (forall value,
     find_unsigned (snd (add_bool ar n nm value))
       (fst (add_bool ar n nm value)) nm
     = (fst (find_unsigned ar n nm), snd (add_bool ar n nm value))).
Proof.
  pose proof (atomize_again ar nm) as Hagain.
  unfold find_unsigned, find_bool, add_unsigned, add_bool.
  destruct (atomize ar nm) as [a ar1]. cbn [fst snd] in *.
  repeat split; intros value; rewrite Hagain; cbn [fst snd props push_prop];
    rewrite find_property_app; cbn [ptype pname pvalue property_type_code];
    rewrite ?Z.eqb_refl; cbn [andb Z.eqb];
    match goal with
    | |- context [find_property ?ps ?t ?x] => destruct (find_property ps t x)
    end; try reflexivity.
  now destruct value.
Qed.

(** X9. A string added under a name that the node has no string for is
    found again under that name: the two atoms [add_string] makes are
    still the ids of name and value when [find_string] looks, provided
    the atom table stays within what an [unsigned] can index. *)
Theorem add_string_find_string (ar : archive) (n : archive_node)
    (nm value : string) :
  Z.of_nat (length (atoms ar)) + 2 < 2 ^ 32 ->
  fst (find_string ar n nm) = Ok None ->
  find_string (snd (add_string ar n nm value))
    (fst (add_string ar n nm value)) nm
  = (Ok (Some value), snd (add_string ar n nm value)).
Proof.
  intros Hlen. unfold find_string, add_string.
  destruct (atomize_spec ar nm ltac:(lia))
    as (k & Hid & Hk & Hfirst & _ & Hcase).
  pose proof (atomize_grows ar nm) as (_ & Hpre1 & _).
  destruct (atomize ar nm) as [a ar1]. cbn [fst snd] in *. subst a.
  assert (Hlen1 : Z.of_nat (length (atoms ar1)) + 1 < 2 ^ 32).
  { destruct Hcase as [[_ ->] | (_ & _ & ->)]; cbn [atoms]; [lia |].
    rewrite length_app. cbn [length]. lia. }
  destruct (atomize_spec ar1 value ltac:(lia))
    as (kv & Hidv & Hkv & _ & _ & Hcasev).
  pose proof (atomize_grows ar1 value) as (_ & Hpre2 & _).
  destruct (atomize ar1 value) as [v ar2]. cbn [fst snd] in *. subst v.
  assert (Hlen2 : Z.of_nat (length (atoms ar2)) < 2 ^ 32).
  { destruct Hcasev as [[_ ->] | (_ & _ & ->)]; cbn [atoms]; [lia |].
    rewrite length_app. cbn [length]. lia. }
  rewrite (atomize_stable ar1 ar2 nm k Hlen2 Hpre2 Hk Hfirst).
  cbn [props push_prop]. rewrite find_property_app.
  cbn [ptype pname pvalue]. rewrite !Z.eqb_refl. cbn [andb].
  destruct (find_property (props n) PTYPE_STRING (Z.of_nat k)) as [old |].
  - cbn. destruct (unatomize ar1 (pvalue old)); discriminate.
  - intros _. cbn [pvalue]. now rewrite (unatomize_lookup _ _ _ Hkv).
Qed.

Lemma add_string_find_string_witness :
  find_string
    (snd (add_string empty_archive
            (mk_archive_node [] true (Handle.mk_ex 7%positive))
            "name"%string "x"%string))
    (fst (add_string empty_archive
            (mk_archive_node [] true (Handle.mk_ex 7%positive))
            "name"%string "x"%string))
    "name"%string
  = (Ok (Some "x"%string),
     snd (add_string empty_archive
            (mk_archive_node [] true (Handle.mk_ex 7%positive))
            "name"%string "x"%string)).
Proof.
  apply add_string_find_string; [cbn; lia | reflexivity].
Defined.

End NodeProperties.

(** ** archive.cpp: the shape of an encoded number *)

Section WireBytes.

Import Archive.

Lemma tagged_byte (v : Z) :
  Z.lor (Z.land v 0x7f) 0x80 = v mod 128 + 128.
Proof.
  rewrite land_127_mod. change 0x80 with (Z.shiftl 1 7).
  rewrite lor_shiftl_disjoint; [reflexivity | lia | | lia].
  change (2 ^ 7) with 128. apply Z.mod_pos_bound. lia.
Qed.

Lemma write_unsigned_shape (v : Z) :
  0 <= v ->
  exists (init : list byte) (last : byte),
    write_unsigned [] v = init ++ [last] /\
    Forall (fun b => 0x80 <= b < 0x100) init /\
    0 <= last < 0x80 /\
    (last = 0 -> v = 0) /\
    v < 2 ^ (7 * (Z.of_nat (length init) + 1)) /\
    (init <> [] -> 2 ^ (7 * Z.of_nat (length init)) <= v).
Proof.
  induction v as [v Hv | v Hv IH] using shift7_ind; intros Hpos.
  - exists [], v. rewrite write_unsigned_small by trivial.
    split; [reflexivity |]. split; [constructor |].
    split; [lia |]. split; [trivial |].
    split; [cbn; lia | congruence].
  - assert (Hshift : Z.shiftr v 7 = v / 128)
      by (rewrite Z.shiftr_div_pow2 by lia; reflexivity).
    assert (Hdiv : 1 <= v / 128)
      by (apply Z.div_le_lower_bound; lia).
    destruct IH as (init & last & Hw & Hinit & Hlast & Hzero & Hup & Hlow);
      [rewrite Hshift; lia |].
    rewrite Hshift in *.
    exists (Z.lor (Z.land v 0x7f) 0x80 :: init), last.
    rewrite write_unsigned_large by trivial. rewrite Hshift, Hw.
    pose proof (Z.mod_pos_bound v 128 ltac:(lia)) as Hmod.
    pose proof (Z.div_mod v 128 ltac:(lia)) as Hdm.
    set (P := 2 ^ (7 * Z.of_nat (length init))) in *.
    assert (HP : 0 < P) by (apply Z.pow_pos_nonneg; lia).
    assert (Hup' : v `div` 128 < 128 * P).
    { replace (7 * (Z.of_nat (length init) + 1))
        with (7 + 7 * Z.of_nat (length init)) in Hup by lia.
      rewrite Z.pow_add_r in Hup by lia. exact Hup. }
    split; [reflexivity |].
    split; [constructor; [rewrite tagged_byte; lia | exact Hinit] |].
    split; [exact Hlast |].
    split; [intros H0; specialize (Hzero H0); lia |].
    cbn [length]. rewrite Nat2Z.inj_succ.
    replace (7 * (Z.succ (Z.of_nat (length init)) + 1))
      with (7 + (7 + 7 * Z.of_nat (length init))) by lia.
    replace (7 * Z.succ (Z.of_nat (length init)))
      with (7 + 7 * Z.of_nat (length init)) by lia.
    rewrite !Z.pow_add_r by lia. fold P. change (2 ^ 7) with 128.
    split; [nia |].
    intros _. destruct init as [| b init].
    + subst P. cbn [length] in *. change (2 ^ (7 * Z.of_nat 0)) with 1. lia.
    + specialize (Hlow ltac:(discriminate)). nia.
Qed.

(** X10. The bytes [write_unsigned] puts for an [unsigned] value: every
    byte but the last has its high bit set and fits a [char], the last
    is below [0x80], and there are as few as the value allows: [k] bytes
    exactly when the value is below [2 ^ (7 k)] and, for [k > 1], not
    below [2 ^ (7 (k - 1))], the last byte being zero only for the value
    zero; so never more than five. *)
Theorem write_unsigned_bytes (v : Z) :
  is_unsigned v ->
  exists (init : list byte) (last : byte),
    write_unsigned [] v = init ++ [last] /\
    Forall (fun b => 0x80 <= b < 0x100) init /\
    0 <= last < 0x80 /\
    (last = 0 -> v = 0) /\
    v < 2 ^ (7 * (Z.of_nat (length init) + 1)) /\
    (init <> [] -> 2 ^ (7 * Z.of_nat (length init)) <= v) /\
    (length (write_unsigned [] v) <= 5)%nat.
Proof.
  intros [Hpos Hlt].
  destruct (write_unsigned_shape v Hpos)
    as (init & last & Hw & Hinit & Hlast & Hzero & Hup & Hlow).
  exists init, last. repeat split; trivial; try apply Hlast.
  rewrite Hw, length_app. cbn [length].
  destruct (le_lt_dec (length init) 4) as [Hle | Hgt]; [lia |].
  exfalso.
  assert (Hne : init <> []) by (destruct init; [cbn in Hgt; lia | discriminate]).
  specialize (Hlow Hne).
  assert (2 ^ 35 <= 2 ^ (7 * Z.of_nat (length init)))
    by (apply Z.pow_le_mono_r; lia).
  assert (2 ^ 32 < 2 ^ 35) by (apply Z.pow_lt_mono_r; lia).
  lia.
Qed.

Lemma write_unsigned_bytes_witness :
  exists (init : list byte) (last : byte),
    write_unsigned [] 0x4000 = init ++ [last] /\
    Forall (fun b => 0x80 <= b < 0x100) init /\
    0 <= last < 0x80.
Proof.
  destruct (write_unsigned_bytes 0x4000) as (init & last & Hw & Hi & Hl & _).
  - unfold is_unsigned. lia.
  - exists init, last. repeat split; trivial; apply Hl.
Defined.

End WireBytes.

(** ** archive.cpp: forgetting the expressions of the nodes *)

Section Forget.

Import Archive.

Lemma add_node_search_forgotten (zero : Handle.ex) (ns : list archive_node)
    (n : archive_node) :
  forall id, add_node_search (map (forget_node zero) ns) n id = None.
Proof.
  induction ns as [| x ns IH]; intros id; cbn [map add_node_search];
    [reflexivity |].
  unfold has_same_ex_as at 1. cbn [forget_node has_expression negb orb].
  apply IH.
Qed.

(** X11. After [forget] no node of the archive counts as storing an
    expression: the stored pointers are gone, [add_node] finds no node to
    share and appends whatever node it is given, returning the old node
    count; properties, atoms and archived expressions are as before, and
    forgetting twice is forgetting once. *)
Theorem forget_loses_sharing (zero : Handle.ex) (ar : archive)
    (n : archive_node) :
  stored_pointers (nodes (forget zero ar)) = [] /\
  add_node (forget zero ar) n
  = (wrap (Z.of_nat (length (nodes ar))),
     mk_archive (atoms ar) (exprs ar)
       (map (forget_node zero) (nodes ar) ++ [n])) /\
  map props (nodes (forget zero ar)) = map props (nodes ar) /\
  forget zero (forget zero ar) = forget zero ar.
Proof.
  unfold forget. cbn [nodes atoms exprs]. split; [| split; [| split]].
  - unfold stored_pointers.
    induction (nodes ar) as [| x ns IH]; [reflexivity |].
    cbn [map List.filter forget_node has_expression]. exact IH.
  - unfold add_node. cbn [nodes atoms exprs].
    now rewrite add_node_search_forgotten, length_map.
  - induction (nodes ar) as [| x ns IH]; [reflexivity |].
    cbn [map forget_node props]. now rewrite IH.
  - f_equal. induction (nodes ar) as [| x ns IH]; [reflexivity |].
    cbn [map]. now rewrite IH.
Qed.

End Forget.

(** ** matrix.cpp: loops that fill a vector *)

Section Loops.

(** A counted loop whose body keeps an invariant runs to its end. *)
Lemma for_up_inv {S : Type} (I : Z -> S -> Prop)
    (body : Z -> S -> result S) :
  forall n i s,
    I i s ->
    (forall j s0, i <= j < i + Z.of_nat n -> I j s0 ->
                  exists s', body j s0 = Ok s' /\ I (j + 1) s') ->
    exists s', for_up n i body s = Ok s' /\ I (i + Z.of_nat n) s'.
Proof.
  induction n as [| n IH]; intros i s Hi Hbody; cbn [for_up].
  - exists s. split; [reflexivity |]. now rewrite Z.add_0_r.
  - destruct (Hbody i s ltac:(lia) Hi) as (s1 & Hs1 & Hi1).
    rewrite Hs1. cbn.
    destruct (IH (i + 1) s1 Hi1) as (s' & Hs' & Hi').
    + intros j s0 Hj. apply Hbody. lia.
    + exists s'. split; [exact Hs' |].
      now replace (i + Z.of_nat (Datatypes.S n)) with (i + 1 + Z.of_nat n)
        by lia.
Qed.

Lemma for_range_inv {S : Type} (I : Z -> S -> Prop)
    (body : Z -> S -> result S) (lo hi : Z) (s : S) :
  lo <= hi ->
  I lo s ->
  (forall j s0, lo <= j < hi -> I j s0 ->
                exists s', body j s0 = Ok s' /\ I (j + 1) s') ->
  exists s', for_range lo hi body s = Ok s' /\ I hi s'.
Proof.
  intros Hle Hlo Hbody. unfold for_range.
  destruct (for_up_inv I body (Z.to_nat (hi - lo)) lo s Hlo)
    as (s' & Hs' & Hhi).
  - intros j s0 Hj. apply Hbody. lia.
  - exists s'. split; [exact Hs' |].
    now replace (lo + Z.of_nat (Z.to_nat (hi - lo))) with hi in Hhi by lia.
Qed.

(** Row and column are determined by the index [r * C + c]. *)
Lemma grid_index_inj (C r c r' c' : Z) :
  0 <= c < C -> 0 <= c' < C -> r * C + c = r' * C + c' ->
  r = r' /\ c = c'.
Proof.
  intros Hc Hc' Heq. assert (r = r') by nia. subst r'. lia.
Qed.

Lemma vset_in_range {A : Type} (v : list A) (i : Z) (x : A) :
  0 <= i < Z.of_nat (length v) -> vset v i x = Ok (<[Z.to_nat i := x]> v).
Proof.
  intros Hi. unfold vset.
  destruct (Z.ltb_spec i 0); [lia |].
  destruct (Z.leb_spec (Z.of_nat (length v)) i); [lia | reflexivity].
Qed.

(** Two nested loops over rows and columns whose body stores [val r c] at
    index [r * C + c], as long as that entry is still the one the vector
    started with, fill the whole vector. *)
Lemma fill_grid_fresh {A : Type} (R C : Z)
    (body : Z -> Z -> list A -> result (list A)) (val : Z -> Z -> A)
    (t : list A) :
  0 <= R -> 0 <= C -> Z.of_nat (length t) = R * C ->
  (forall r c t0, 0 <= r < R -> 0 <= c < C ->
                  Z.of_nat (length t0) = R * C ->
                  t0 !! Z.to_nat (r * C + c) = t !! Z.to_nat (r * C + c) ->
                  body r c t0 = vset t0 (r * C + c) (val r c)) ->
  exists t',
    for_range 0 R (fun r t0 => for_range 0 C (fun c t1 => body r c t1) t0) t
    = Ok t' /\
    Z.of_nat (length t') = R * C /\
    forall r c, 0 <= r < R -> 0 <= c < C ->
                t' !! Z.to_nat (r * C + c) = Some (val r c).
Proof.
  intros HR HC Hlen Hbody.
  set (K := fun (k : Z) (t0 : list A) =>
              Z.of_nat (length t0) = R * C /\
              (forall r c, 0 <= r < R -> 0 <= c < C -> r * C + c < k ->
                           t0 !! Z.to_nat (r * C + c) = Some (val r c)) /\
              (forall r c, 0 <= r < R -> 0 <= c < C -> k <= r * C + c ->
                           t0 !! Z.to_nat (r * C + c)
                           = t !! Z.to_nat (r * C + c))).
  destruct (for_range_inv (fun r t0 => K (r * C) t0)
              (fun r t0 => for_range 0 C (fun c t1 => body r c t1) t0)
              0 R t HR) as (t' & Ht' & Hlen' & Hval & _).
  - split; [exact Hlen |]. split; [| reflexivity].
    intros r c Hr Hc Hlt. nia.
  - intros r t0 Hr Hk.
    destruct (for_range_inv (fun c t1 => K (r * C + c) t1)
                (fun c t1 => body r c t1) 0 C t0 HC)
      as (t1 & Ht1 & Hk1).
    + now rewrite Z.add_0_r.
    + intros c t1 Hc (Hlen1 & Hval1 & Hfresh1).
      assert (Hidx : 0 <= r * C + c < Z.of_nat (length t1)) by nia.
      rewrite (Hbody r c t1 Hr Hc Hlen1 (Hfresh1 r c Hr Hc ltac:(lia))).
      rewrite (vset_in_range _ _ _ Hidx).
      eexists. split; [reflexivity |]. split; [| split].
      * now rewrite length_insert.
      * intros r' c' Hr' Hc' Hlt.
        destruct (Z.eq_dec (r' * C + c') (r * C + c)) as [Heq | Hne].
        -- destruct (grid_index_inj C r' c' r c Hc' Hc Heq) as [-> ->].
           apply list_lookup_insert_eq. lia.
        -- rewrite list_lookup_insert_ne by lia.
           apply Hval1; trivial. lia.
      * intros r' c' Hr' Hc' Hge.
        rewrite list_lookup_insert_ne by nia.
        apply Hfresh1; trivial. lia.
    + exists t1. split; [exact Ht1 |].
      now replace ((r + 1) * C) with (r * C + C) by lia.
  - exists t'. split; [exact Ht' |]. split; [exact Hlen' |].
    intros r c Hr Hc. apply Hval; trivial. nia.
Qed.

(** The same for a body that stores [val r c] whatever the vector
    holds. *)
Lemma fill_grid {A : Type} (R C : Z)
    (body : Z -> Z -> list A -> result (list A)) (val : Z -> Z -> A)
    (t : list A) :
  0 <= R -> 0 <= C -> Z.of_nat (length t) = R * C ->
  (forall r c t0, 0 <= r < R -> 0 <= c < C ->
                  Z.of_nat (length t0) = R * C ->
                  body r c t0 = vset t0 (r * C + c) (val r c)) ->
  exists t',
    for_range 0 R (fun r t0 => for_range 0 C (fun c t1 => body r c t1) t0) t
    = Ok t' /\
    Z.of_nat (length t') = R * C /\
    forall r c, 0 <= r < R -> 0 <= c < C ->
                t' !! Z.to_nat (r * C + c) = Some (val r c).
Proof.
  intros HR HC Hlen Hbody.
  apply fill_grid_fresh; trivial.
  intros r c t0 Hr Hc Hlen0 _. now apply Hbody.
Qed.

(** Vectors of [R * C] entries that agree at every row and column are
    equal. *)
Lemma grid_list_eq {A : Type} (R C : Z) (t1 t2 : list A) :
  0 <= R -> 0 <= C ->
  Z.of_nat (length t1) = R * C -> Z.of_nat (length t2) = R * C ->
  (forall r c, 0 <= r < R -> 0 <= c < C ->
               t1 !! Z.to_nat (r * C + c) = t2 !! Z.to_nat (r * C + c)) ->
  t1 = t2.
Proof.
  intros HR HC H1 H2 Hagree. apply list_eq. intros i.
  destruct (le_lt_dec (length t1) i) as [Hge | Hlt].
  - rewrite !lookup_ge_None_2; trivial; lia.
  - assert (HCpos : 0 < C) by nia.
    pose proof (Z.div_mod (Z.of_nat i) C ltac:(lia)) as Hdm.
    pose proof (Z.mod_pos_bound (Z.of_nat i) C HCpos) as Hmod.
    assert (Hdiv : 0 <= Z.of_nat i / C < R).
    { split; [apply Z.div_pos; lia |].
      apply Z.div_lt_upper_bound; [lia |]. nia. }
    specialize (Hagree (Z.of_nat i / C) (Z.of_nat i mod C) Hdiv Hmod).
    replace (Z.of_nat i / C * C + Z.of_nat i mod C) with (Z.of_nat i)
      in Hagree by lia.
    now rewrite Nat2Z.id in Hagree.
Qed.

End Loops.

(** ** matrix.cpp: entries set, transposed and added *)

Section MatrixEntries.

Context {ex : Type} `{ExOps ex}.

Lemma vget_lookup {A : Type} (v : list A) (i : Z) (x : A) :
  0 <= i -> v !! Z.to_nat i = Some x -> vget v i = Ok x.
Proof.
  intros Hi Hx. unfold vget.
  destruct (Z.ltb_spec i 0); [lia |]. now rewrite Hx.
Qed.

Lemma at_in_range (M : Matrix.matrix ex) (ro co : Z) :
  0 <= ro < Matrix.row M -> 0 <= co < Matrix.col M ->
  Matrix.at_ M ro co = vget (Matrix.m M) (ro * Matrix.col M + co).
Proof.
  intros Hro Hco. unfold Matrix.at_.
  destruct (Z.ltb_spec ro 0), (Z.leb_spec (Matrix.row M) ro),
    (Z.ltb_spec co 0), (Z.leb_spec (Matrix.col M) co); try lia.
  reflexivity.
Qed.

Lemma at_out_of_range (M : Matrix.matrix ex) (ro co : Z) :
  ~ (0 <= ro < Matrix.row M /\ 0 <= co < Matrix.col M) ->
  Matrix.at_ M ro co = Throw range_error.
Proof.
  intros Hout. unfold Matrix.at_.
  destruct (Z.ltb_spec ro 0), (Z.leb_spec (Matrix.row M) ro),
    (Z.ltb_spec co 0), (Z.leb_spec (Matrix.col M) co); try reflexivity.
  exfalso. apply Hout. lia.
Qed.

(** X12. On a matrix that is not shared and holds its [rows * cols]
    entries, [set] at a position inside the matrix succeeds, leaves the
    shape alone, makes [operator()] return the value stored at that
    position and changes no other position; and [set] raises
    [range_error] for exactly the positions for which [operator()]
    does. *)
Theorem set_at_roundtrip (M : Matrix.matrix ex) (ro co : Z) (value : ex) :
  Matrix.wf_matrix M -> Matrix.refcount M <= 1 ->
  (Matrix.set M ro co value = Throw range_error <->
   Matrix.at_ M ro co = Throw range_error) /\
  (0 <= ro < Matrix.row M -> 0 <= co < Matrix.col M ->
   exists M',
     Matrix.set M ro co value = Ok M' /\
     Matrix.wf_matrix M' /\
     Matrix.row M' = Matrix.row M /\ Matrix.col M' = Matrix.col M /\
     Matrix.at_ M' ro co = Ok value /\
     forall r c, (r, c) <> (ro, co) ->
                 Matrix.at_ M' r c = Matrix.at_ M r c).
Proof.
  intros (Hrow & Hcol & Hlen) Hshared. split.
  - unfold Matrix.set, Matrix.at_, Matrix.ensure_if_modifiable.
    destruct (Z.ltb_spec ro 0), (Z.leb_spec (Matrix.row M) ro),
      (Z.ltb_spec co 0), (Z.leb_spec (Matrix.col M) co); cbn;
      try (split; reflexivity).
    destruct (Z.ltb_spec 1 (Matrix.refcount M)); [lia |]. cbn.
    rewrite vset_in_range by nia. cbn.
    split; [discriminate |]. intros Hthrow.
    now apply vget_never_throws in Hthrow.
  - intros Hro Hco.
    assert (Hidx : 0 <= ro * Matrix.col M + co
                   < Z.of_nat (length (Matrix.m M))) by nia.
    unfold Matrix.set, Matrix.ensure_if_modifiable.
    destruct (Z.ltb_spec ro 0), (Z.leb_spec (Matrix.row M) ro),
      (Z.ltb_spec co 0), (Z.leb_spec (Matrix.col M) co); try lia; cbn.
    destruct (Z.ltb_spec 1 (Matrix.refcount M)); [lia |]. cbn.
    rewrite (vset_in_range _ _ _ Hidx). cbn.
    eexists. split; [reflexivity |].
    split; [repeat split; cbn; trivial; now rewrite length_insert |].
    split; [reflexivity |]. split; [reflexivity |]. split.
    + rewrite at_in_range by (cbn; lia). cbn.
      apply vget_lookup; [lia |]. apply list_lookup_insert_eq. lia.
    + intros r c Hne.
      destruct (Z_lt_le_dec r 0) as [Hr0 | Hr0];
        [rewrite !at_out_of_range by (cbn; lia); reflexivity |].
      destruct (Z_lt_le_dec r (Matrix.row M)) as [Hr1 | Hr1];
        [| rewrite !at_out_of_range by (cbn; lia); reflexivity].
      destruct (Z_lt_le_dec c 0) as [Hc0 | Hc0];
        [rewrite !at_out_of_range by (cbn; lia); reflexivity |].
      destruct (Z_lt_le_dec c (Matrix.col M)) as [Hc1 | Hc1];
        [| rewrite !at_out_of_range by (cbn; lia); reflexivity].
      rewrite !at_in_range by (cbn; lia). cbn. unfold vget.
      destruct (Z.ltb_spec (r * Matrix.col M + c) 0); [reflexivity |].
      rewrite list_lookup_insert_ne; [reflexivity |].
      intros Heq. apply Hne.
      destruct (grid_index_inj (Matrix.col M) ro co r c) as [-> ->];
        trivial; lia.
Qed.

(** What [transpose] computes on a matrix that holds its entries. *)
Lemma transpose_spec (M : Matrix.matrix ex) :
  Matrix.wf_matrix M ->
  exists t,
    Matrix.transpose M
    = Ok (Matrix.matrix_of (Matrix.col M) (Matrix.row M) t) /\
    Z.of_nat (length t) = Matrix.col M * Matrix.row M /\
    forall r c, 0 <= r < Matrix.col M -> 0 <= c < Matrix.row M ->
      t !! Z.to_nat (r * Matrix.row M + c)
      = Matrix.m M !! Z.to_nat (c * Matrix.col M + r) /\
      is_Some (Matrix.m M !! Z.to_nat (c * Matrix.col M + r)).
Proof.
  intros (Hrow & Hcol & Hlen). unfold Matrix.transpose.
  destruct (fill_grid (Matrix.col M) (Matrix.row M)
              (fun r c trans =>
                 x ← vget (Matrix.m M) (c * Matrix.col M + r);
                 vset trans (r * Matrix.row M + c) x)
              (fun r c =>
                 default exZERO
                   (Matrix.m M !! Z.to_nat (c * Matrix.col M + r)))
              (replicate (Z.to_nat (Matrix.col M * Matrix.row M)) exZERO)
              Hcol Hrow)
    as (t & Ht & Hlent & Hval).
  - rewrite length_replicate. nia.
  - intros r c t0 Hr Hc Ht0.
    destruct (vget_in_range (Matrix.m M) (c * Matrix.col M + r))
      as (x & Hx & Hget); [nia |].
    now rewrite Hget, Hx.
  - rewrite Ht. cbn. exists t. split; [reflexivity |].
    split; [exact Hlent |]. intros r c Hr Hc.
    rewrite (Hval r c Hr Hc).
    destruct (vget_in_range (Matrix.m M) (c * Matrix.col M + r))
      as (x & Hx & _); [nia |].
    rewrite Hx. split; [reflexivity | eauto].
Qed.

(** X13. [transpose] of a matrix that holds its [rows * cols] entries
    returns a matrix of the exchanged shape whose entry at row [r] and
    column [c] is the entry of the original at row [c] and column [r];
    transposing twice gives back the shape and the entries. *)
Theorem transpose_involution (M : Matrix.matrix ex) :
  Matrix.wf_matrix M ->
  exists T TT,
    Matrix.transpose M = Ok T /\
    Matrix.wf_matrix T /\
    Matrix.row T = Matrix.col M /\ Matrix.col T = Matrix.row M /\
    (forall r c, Matrix.at_ T r c = Matrix.at_ M c r) /\
    Matrix.transpose T = Ok TT /\
    Matrix.row TT = Matrix.row M /\ Matrix.col TT = Matrix.col M /\
    Matrix.m TT = Matrix.m M.
Proof.
  intros Hwf. pose proof Hwf as (Hrow & Hcol & Hlen).
  destruct (transpose_spec M Hwf) as (t & Ht & Hlent & Hval).
  set (T := Matrix.matrix_of (Matrix.col M) (Matrix.row M) t) in *.
  assert (HwfT : Matrix.wf_matrix T) by (repeat split; cbn; trivial).
  destruct (transpose_spec T HwfT) as (tt & Htt & Hlentt & Hvaltt).
  cbn [Matrix.row Matrix.col Matrix.m Matrix.matrix_of T] in Htt, Hlentt,
    Hvaltt.
  exists T, (Matrix.matrix_of (Matrix.row M) (Matrix.col M) tt).
  split; [exact Ht |]. split; [exact HwfT |].
  split; [reflexivity |]. split; [reflexivity |]. split; [| split].
  - intros r c.
    destruct (Z_lt_le_dec r 0) as [Hr0 | Hr0];
      [rewrite !at_out_of_range by (cbn; lia); reflexivity |].
    destruct (Z_lt_le_dec r (Matrix.col M)) as [Hr1 | Hr1];
      [| rewrite !at_out_of_range by (cbn; lia); reflexivity].
    destruct (Z_lt_le_dec c 0) as [Hc0 | Hc0];
      [rewrite !at_out_of_range by (cbn; lia); reflexivity |].
    destruct (Z_lt_le_dec c (Matrix.row M)) as [Hc1 | Hc1];
      [| rewrite !at_out_of_range by (cbn; lia); reflexivity].
    rewrite !at_in_range by (cbn; lia). cbn. unfold vget.
    destruct (Z.ltb_spec (r * Matrix.row M + c) 0); [nia |].
    destruct (Z.ltb_spec (c * Matrix.col M + r) 0); [nia |].
    now rewrite (proj1 (Hval r c ltac:(lia) ltac:(lia))).
  - exact Htt.
  - split; [reflexivity |]. split; [reflexivity |]. cbn.
    apply (grid_list_eq (Matrix.row M) (Matrix.col M)); trivial.
    intros r c Hr Hc.
    rewrite (proj1 (Hvaltt r c Hr Hc)).
    now rewrite (proj1 (Hval c r Hc Hr)).
Qed.

End MatrixEntries.

Lemma set_at_roundtrip_witness :
  exists M',
    Matrix.set (Sym.matrix3 [0; 1; 2; 3; 4; 5; 6; 7; 8]%nat) 1 2
      (Sym.symbol 9) = Ok M' /\
    Matrix.at_ M' 1 2 = Ok (Sym.symbol 9) /\
    Matrix.at_ M' 2 1 = Ok (Sym.symbol 7).
Proof.
  destruct (set_at_roundtrip (Sym.matrix3 [0; 1; 2; 3; 4; 5; 6; 7; 8]%nat)
              1 2 (Sym.symbol 9)) as (_ & Hset).
  - repeat split; cbn; lia.
  - cbn. lia.
  - destruct (Hset ltac:(cbn; lia) ltac:(cbn; lia))
      as (M' & HM' & _ & _ & _ & Hat & Hframe).
    exists M'. split; [exact HM' |]. split; [exact Hat |].
    rewrite Hframe by discriminate. reflexivity.
Defined.

Lemma transpose_involution_witness :
  exists T,
    Matrix.transpose (Sym.matrix3 [0; 1; 2; 3; 4; 5; 6; 7; 8]%nat) = Ok T /\
    Matrix.at_ T 0 2 = Ok (Sym.symbol 6).
Proof.
  destruct (transpose_involution
              (Sym.matrix3 [0; 1; 2; 3; 4; 5; 6; 7; 8]%nat))
    as (T & _ & Ht & _ & _ & _ & Hat & _).
  - repeat split; cbn; lia.
  - exists T. split; [exact Ht |]. rewrite Hat. reflexivity.
Defined.

(** ** matrix.cpp: sums, differences and the trace *)

Section MatrixAlgebra.

Context {ex : Type} `{ExOps ex}.

Lemma entrywise_never_throws (op : ex -> ex -> ex) (sum : list ex) :
  forall other exn, Matrix.entrywise op sum other <> Throw exn.
Proof.
  induction sum as [| x sum IH]; intros other exn; cbn [Matrix.entrywise];
    [discriminate |].
  destruct other as [| y other]; [discriminate |].
  specialize (IH other exn).
  destruct (Matrix.entrywise op sum other); cbn; congruence.
Qed.

(** The loop of [add] and [sub] stays inside [other.m] exactly when it is
    not the shorter vector, and then combines the entries in pairs. *)
Lemma entrywise_zip (op : ex -> ex -> ex) (sum : list ex) :
  forall other,
    Matrix.entrywise op sum other
    = if (length sum <=? length other)%nat
      then Ok (zip_with op sum other) else Undefined.
Proof.
  induction sum as [| x sum IH]; intros other; cbn [Matrix.entrywise];
    [reflexivity |].
  destruct other as [| y other]; [reflexivity |].
  rewrite IH. cbn [length zip_with].
  change (S (length sum) <=? S (length other))%nat
    with (length sum <=? length other)%nat.
  now destruct (length sum <=? length other)%nat.
Qed.

Lemma wf_same_length (M other : Matrix.matrix ex) :
  Matrix.wf_matrix M -> Matrix.wf_matrix other ->
  Matrix.row M = Matrix.row other -> Matrix.col M = Matrix.col other ->
  length (Matrix.m M) = length (Matrix.m other).
Proof.
  intros (_ & _ & Hlen) (_ & _ & Hlen') Hrow Hcol.
  apply Nat2Z.inj. rewrite Hlen, Hlen', Hrow, Hcol. reflexivity.
Qed.

(** X14. [add] and [sub] raise [logic_error] exactly when the two shapes
    differ.  On two matrices of one shape that hold their entries they
    return the matrix of that shape whose entries are the sums,
    respectively the differences, of the entries at the same position. *)
Theorem add_sub_entrywise (M other : Matrix.matrix ex) :
  (Matrix.add M other = Throw logic_error <->
   Matrix.col M <> Matrix.col other \/ Matrix.row M <> Matrix.row other) /\
  (Matrix.sub M other = Throw logic_error <->
   Matrix.col M <> Matrix.col other \/ Matrix.row M <> Matrix.row other) /\
  (Matrix.wf_matrix M -> Matrix.wf_matrix other ->
   Matrix.row M = Matrix.row other -> Matrix.col M = Matrix.col other ->
   exists S D,
     Matrix.add M other = Ok S /\ Matrix.sub M other = Ok D /\
     Matrix.wf_matrix S /\ Matrix.wf_matrix D /\
     Matrix.row S = Matrix.row M /\ Matrix.col S = Matrix.col M /\
     Matrix.row D = Matrix.row M /\ Matrix.col D = Matrix.col M /\
     forall r c, 0 <= r < Matrix.row M -> 0 <= c < Matrix.col M ->
       exists x y,
         Matrix.at_ M r c = Ok x /\ Matrix.at_ other r c = Ok y /\
         Matrix.at_ S r c = Ok (ex_add x y) /\
         Matrix.at_ D r c = Ok (ex_sub x y)).
Proof.
  split; [| split].
  - unfold Matrix.add.
    destruct (Z.eqb_spec (Matrix.col M) (Matrix.col other)),
      (Z.eqb_spec (Matrix.row M) (Matrix.row other)); cbn;
      try (split; [intros _; auto | reflexivity]).
    split; [| intros [? | ?]; contradiction].
    intros Hthrow. exfalso.
    destruct (Matrix.entrywise ex_add (Matrix.m M) (Matrix.m other))
      eqn:Hloop; cbn in Hthrow; try discriminate.
    now apply entrywise_never_throws in Hloop.
  - unfold Matrix.sub.
    destruct (Z.eqb_spec (Matrix.col M) (Matrix.col other)),
      (Z.eqb_spec (Matrix.row M) (Matrix.row other)); cbn;
      try (split; [intros _; auto | reflexivity]).
    split; [| intros [? | ?]; contradiction].
    intros Hthrow. exfalso.
    destruct (Matrix.entrywise ex_sub (Matrix.m M) (Matrix.m other))
      eqn:Hloop; cbn in Hthrow; try discriminate.
    now apply entrywise_never_throws in Hloop.
  - intros Hwf Hwf' Hrow Hcol.
    pose proof (wf_same_length M other Hwf Hwf' Hrow Hcol) as Hsame.
    pose proof Hwf as (Hr & Hc & Hlen).
    unfold Matrix.add, Matrix.sub. rewrite !entrywise_zip.
    rewrite <- Hrow, <- Hcol, !Z.eqb_refl, <- Hsame, Nat.leb_refl. cbn.
    do 2 eexists. split; [reflexivity |]. split; [reflexivity |].
    split; [repeat split; cbn; trivial;
            rewrite length_zip_with, <- Hsame, Nat.min_id; exact Hlen |].
    split; [repeat split; cbn; trivial;
            rewrite length_zip_with, <- Hsame, Nat.min_id; exact Hlen |].
    do 4 (split; [reflexivity |]).
    intros r c Hrr Hcc.
    destruct (vget_in_range (Matrix.m M) (r * Matrix.col M + c))
      as (x & Hx & Hgetx); [nia |].
    destruct (vget_in_range (Matrix.m other) (r * Matrix.col M + c))
      as (y & Hy & Hgety); [rewrite <- Hsame; nia |].
    exists x, y.
    rewrite (at_in_range M), (at_in_range other) by lia.
    rewrite !at_in_range by (cbn; lia). cbn. rewrite <- Hcol.
    split; [exact Hgetx |]. split; [exact Hgety |].
    split; (apply vget_lookup; [nia |]);
      rewrite lookup_zip_with, Hx, Hy; reflexivity.
Qed.

End MatrixAlgebra.

Lemma add_sub_entrywise_witness :
  exists S,
    Matrix.add (Sym.matrix3 [0; 1; 2; 3; 4; 5; 6; 7; 8]%nat)
      (Sym.matrix3 [9; 10; 11; 12; 13; 14; 15; 16; 17]%nat) = Ok S /\
    Matrix.at_ S 1 1 = Ok (Sym.sx_add (Sym.symbol 4) (Sym.symbol 13)).
Proof.
  destruct (add_sub_entrywise (Sym.matrix3 [0; 1; 2; 3; 4; 5; 6; 7; 8]%nat)
              (Sym.matrix3 [9; 10; 11; 12; 13; 14; 15; 16; 17]%nat))
    as (_ & _ & Hsum).
  destruct Hsum as (S & D & Hadd & _ & _ & _ & _ & _ & _ & _ & Hat);
    [repeat split; cbn; lia | repeat split; cbn; lia
    | reflexivity | reflexivity |].
  exists S. split; [exact Hadd |].
  destruct (Hat 1 1 ltac:(cbn; lia) ltac:(cbn; lia))
    as (x & y & Hx & Hy & HS & _).
  rewrite HS. cbn in Hx, Hy.
  injection Hx as <-. injection Hy as <-. reflexivity.
Defined.

(** ** matrix.cpp: transposition against sums and the trace; entry by
    entry evaluation *)

Section MatrixCompose.

Context {ex : Type} `{ExOps ex}.

Lemma for_up_ext {S : Type} (body1 body2 : Z -> S -> result S) :
  forall n i s,
    (forall j s0, i <= j < i + Z.of_nat n -> body1 j s0 = body2 j s0) ->
    for_up n i body1 s = for_up n i body2 s.
Proof.
  induction n as [| n IH]; intros i s Hext; cbn [for_up]; [reflexivity |].
  rewrite (Hext i s) by lia.
  destruct (body2 i s) as [s1 | exn |]; cbn; try reflexivity.
  apply IH. intros j s0 Hj. apply Hext. lia.
Qed.

Lemma for_range_ext {S : Type} (body1 body2 : Z -> S -> result S)
    (lo hi : Z) (s : S) :
  (forall j s0, lo <= j < hi -> body1 j s0 = body2 j s0) ->
  for_range lo hi body1 s = for_range lo hi body2 s.
Proof.
  intros Hext. unfold for_range. apply for_up_ext.
  intros j s0 Hj. apply Hext. lia.
Qed.

Lemma entrywise_ok (op : ex -> ex -> ex) (M other : Matrix.matrix ex) :
  Matrix.wf_matrix M -> Matrix.wf_matrix other ->
  Matrix.row M = Matrix.row other -> Matrix.col M = Matrix.col other ->
  Matrix.entrywise op (Matrix.m M) (Matrix.m other)
  = Ok (zip_with op (Matrix.m M) (Matrix.m other)) /\
  Matrix.wf_matrix
    (Matrix.matrix_of (Matrix.row M) (Matrix.col M)
       (zip_with op (Matrix.m M) (Matrix.m other))).
Proof.
  intros Hwf Hwf' Hrow Hcol.
  pose proof (wf_same_length M other Hwf Hwf' Hrow Hcol) as Hsame.
  destruct Hwf as (Hr & Hc & Hlen).
  rewrite entrywise_zip, <- Hsame, Nat.leb_refl.
  split; [reflexivity |]. repeat split; cbn; trivial.
  now rewrite length_zip_with, <- Hsame, Nat.min_id.
Qed.

(** Transposition goes through an entrywise operation. *)
Lemma transpose_entrywise (op : ex -> ex -> ex) (A B : Matrix.matrix ex) :
  Matrix.wf_matrix A -> Matrix.wf_matrix B ->
  Matrix.row A = Matrix.row B -> Matrix.col A = Matrix.col B ->
  exists TA TB,
    Matrix.transpose A = Ok TA /\ Matrix.transpose B = Ok TB /\
    Matrix.row TA = Matrix.col A /\ Matrix.col TA = Matrix.row A /\
    Matrix.row TB = Matrix.col A /\ Matrix.col TB = Matrix.row A /\
    Matrix.transpose
      (Matrix.matrix_of (Matrix.row A) (Matrix.col A)
         (zip_with op (Matrix.m A) (Matrix.m B)))
    = Ok (Matrix.matrix_of (Matrix.col A) (Matrix.row A)
            (zip_with op (Matrix.m TA) (Matrix.m TB))) /\
    Matrix.entrywise op (Matrix.m TA) (Matrix.m TB)
    = Ok (zip_with op (Matrix.m TA) (Matrix.m TB)).
Proof.
  intros HwfA HwfB Hrow Hcol.
  destruct (entrywise_ok op A B HwfA HwfB Hrow Hcol) as [_ HwfS].
  pose proof HwfA as (Hr & Hc & Hlen).
  destruct (transpose_spec A HwfA) as (ta & Hta & Hlena & Hvala).
  destruct (transpose_spec B HwfB) as (tb & Htb & Hlenb & Hvalb).
  destruct (transpose_spec _ HwfS) as (ts & Hts & Hlens & Hvals).
  cbn [Matrix.row Matrix.col Matrix.m Matrix.matrix_of] in Hts, Hlens, Hvals.
  rewrite <- Hrow, <- Hcol in Htb, Hlenb, Hvalb.
  do 2 eexists. split; [exact Hta |]. split; [exact Htb |].
  do 4 (split; [reflexivity |]). cbn [Matrix.m Matrix.matrix_of].
  assert (Hlenab : length ta = length tb) by (apply Nat2Z.inj; lia).
  split.
  - rewrite Hts. do 2 f_equal.
    apply (grid_list_eq (Matrix.col A) (Matrix.row A)); trivial.
    + rewrite length_zip_with, <- Hlenab, Nat.min_id. exact Hlena.
    + intros r c Hrr Hcc.
      rewrite (proj1 (Hvals r c Hrr Hcc)), !lookup_zip_with.
      rewrite (proj1 (Hvala r c Hrr Hcc)), (proj1 (Hvalb r c Hrr Hcc)).
      reflexivity.
  - now rewrite entrywise_zip, <- Hlenab, Nat.leb_refl.
Qed.

(** X15. Transposition commutes with [add] and with [sub]: for two
    matrices of one shape that hold their entries, the transposed sum is
    the sum of the transposed matrices, and likewise for the
    difference. *)
Theorem transpose_add_sub (A B : Matrix.matrix ex) :
  Matrix.wf_matrix A -> Matrix.wf_matrix B ->
  Matrix.row A = Matrix.row B -> Matrix.col A = Matrix.col B ->
  exists TA TB S D TS TD,
    Matrix.transpose A = Ok TA /\ Matrix.transpose B = Ok TB /\
    Matrix.add A B = Ok S /\ Matrix.sub A B = Ok D /\
    Matrix.transpose S = Ok TS /\ Matrix.add TA TB = Ok TS /\
    Matrix.transpose D = Ok TD /\ Matrix.sub TA TB = Ok TD.
Proof.
  intros HwfA HwfB Hrow Hcol.
  destruct (transpose_entrywise ex_add A B HwfA HwfB Hrow Hcol)
    as (TA & TB & HTA & HTB & HrA & HcA & HrB & HcB & HTS & Hadd).
  destruct (transpose_entrywise ex_sub A B HwfA HwfB Hrow Hcol)
    as (TA' & TB' & HTA' & HTB' & _ & _ & _ & _ & HTD & Hsub).
  rewrite HTA in HTA'. injection HTA' as <-.
  rewrite HTB in HTB'. injection HTB' as <-.
  destruct (entrywise_ok ex_add A B HwfA HwfB Hrow Hcol) as [HS _].
  destruct (entrywise_ok ex_sub A B HwfA HwfB Hrow Hcol) as [HD _].
  exists TA, TB. do 4 eexists.
  split; [exact HTA |]. split; [exact HTB |].
  split; [unfold Matrix.add; rewrite <- Hrow, <- Hcol, !Z.eqb_refl, HS;
          reflexivity |].
  split; [unfold Matrix.sub; rewrite <- Hrow, <- Hcol, !Z.eqb_refl, HD;
          reflexivity |].
  split; [exact HTS |].
  split; [unfold Matrix.add;
          rewrite HrA, HcA, HrB, HcB, !Z.eqb_refl, Hadd; reflexivity |].
  split; [exact HTD |].
  unfold Matrix.sub. rewrite HrA, HcA, HrB, HcB, !Z.eqb_refl, Hsub.
  reflexivity.
Qed.

(** X16. The trace of the transposed matrix is the trace of the matrix:
    both raise [logic_error] when the matrix is not square, and both add
    up the same diagonal entries in the same order when it is. *)
Theorem trace_transpose (M : Matrix.matrix ex) :
  Matrix.wf_matrix M ->
  exists T, Matrix.transpose M = Ok T /\ Matrix.trace T = Matrix.trace M.
Proof.
  intros Hwf. pose proof Hwf as (Hr & Hc & Hlen).
  destruct (transpose_spec M Hwf) as (t & Ht & Hlent & Hval).
  eexists. split; [exact Ht |].
  unfold Matrix.trace. cbn [Matrix.row Matrix.col Matrix.m Matrix.matrix_of].
  destruct (Z.eqb_spec (Matrix.col M) (Matrix.row M)) as [Heq | Hne].
  - rewrite <- Heq, Z.eqb_refl. cbn [negb].
    apply for_range_ext. intros r tr Hrr.
    rewrite <- Heq in Hval.
    unfold vget.
    destruct (Z.ltb_spec (r * Matrix.col M + r) 0); [reflexivity |].
    now rewrite (proj1 (Hval r r Hrr Hrr)).
  - destruct (Z.eqb_spec (Matrix.row M) (Matrix.col M)); [congruence |].
    reflexivity.
Qed.

(** The loops of [eval] and [evalf] over a matrix whose entries all
    evaluate. *)
Lemma map_entries_spec (M : Matrix.matrix ex) (f : ex -> result ex)
    (g : ex -> ex) (m2 : list ex) :
  Matrix.wf_matrix M ->
  Z.of_nat (length m2) = Matrix.row M * Matrix.col M ->
  (forall x, In x (Matrix.m M) -> f x = Ok (g x)) ->
  Matrix.map_entries M f m2 = Ok (map g (Matrix.m M)).
Proof.
  intros (Hr & Hc & Hlen) Hlen2 Hf. unfold Matrix.map_entries.
  destruct (fill_grid (Matrix.row M) (Matrix.col M)
              (fun r c m2 =>
                 x ← vget (Matrix.m M) (r * Matrix.col M + c);
                 y ← f x;
                 vset m2 (r * Matrix.col M + c) y)
              (fun r c =>
                 g (default exZERO
                      (Matrix.m M !! Z.to_nat (r * Matrix.col M + c))))
              m2 Hr Hc Hlen2)
    as (t & Ht & Hlent & Hval).
  - intros r c t0 Hrr Hcc Ht0.
    destruct (vget_in_range (Matrix.m M) (r * Matrix.col M + c))
      as (x & Hx & Hget); [nia |].
    rewrite Hget, Hx. cbn.
    rewrite (Hf x); [reflexivity |].
    apply list_elem_of_In. eapply list_elem_of_lookup_2. exact Hx.
  - rewrite Ht. f_equal.
    apply (grid_list_eq (Matrix.row M) (Matrix.col M)); trivial.
    + now rewrite length_map.
    + intros r c Hrr Hcc. rewrite (Hval r c Hrr Hcc), list_lookup_fmap.
      destruct (vget_in_range (Matrix.m M) (r * Matrix.col M + c))
        as (x & Hx & _); [nia |].
      now rewrite Hx.
Qed.

(** X17. [expand] of a matrix that holds its [rows * cols] entries
    returns the matrix of the same shape whose entries are the expanded
    entries, in the same order; no index leaves the vectors. *)
Theorem expand_entrywise (M : Matrix.matrix ex) :
  Matrix.wf_matrix M ->
  Matrix.expand M
  = Ok (Matrix.matrix_of (Matrix.row M) (Matrix.col M)
          (map ex_expand (Matrix.m M))).
Proof.
  intros (Hr & Hc & Hlen). unfold Matrix.expand.
  set (N := Matrix.row M * Matrix.col M) in *.
  assert (HN : 0 <= N) by (subst N; nia).
  destruct (for_range_inv
              (fun i (t : list ex) =>
                 Z.of_nat (length t) = N /\
                 forall j, (Z.of_nat j < i) ->
                           t !! j = ex_expand <$> Matrix.m M !! j)
              (fun i tmp => x ← vget (Matrix.m M) i; vset tmp i (ex_expand x))
              0 N (replicate (Z.to_nat N) exZERO) HN)
    as (t & Ht & Hlent & Hval).
  - split; [rewrite length_replicate; lia |]. intros j Hj. lia.
  - intros i t0 Hi [Hlen0 Hval0].
    destruct (vget_in_range (Matrix.m M) i) as (x & Hx & Hget); [lia |].
    rewrite Hget. cbn. rewrite vset_in_range by lia.
    eexists. split; [reflexivity |]. split; [now rewrite length_insert |].
    intros j Hj. destruct (Nat.eq_dec j (Z.to_nat i)) as [-> | Hne].
    + rewrite list_lookup_insert_eq by lia. now rewrite Hx.
    + rewrite list_lookup_insert_ne by lia. apply Hval0. lia.
  - rewrite Ht. cbn. do 2 f_equal. apply list_eq. intros j.
    rewrite list_lookup_fmap.
    destruct (le_lt_dec (length t) j) as [Hge | Hlt].
    + rewrite !lookup_ge_None_2; trivial; lia.
    + apply Hval. lia.
Qed.

Variable max_recursion_level : Z.

(** X18. Away from the recursion limit, and unless the call is the one at
    level 1 on a matrix flagged as evaluated, [eval] of a matrix whose
    entries all evaluate one level down returns a matrix of the same
    shape, flagged as evaluated, whose entries are the evaluated entries
    in the same order; [evalf] likewise at every level but 1, where it
    returns the matrix itself. *)
Theorem eval_entrywise (M : Matrix.matrix ex) (level : Z) (ev evf : ex -> ex) :
  Matrix.wf_matrix M ->
  level <> - max_recursion_level ->
  (forall x, In x (Matrix.m M) -> ex_eval x (level - 1) = Ok (ev x)) ->
  (forall x, In x (Matrix.m M) -> ex_evalf x (level - 1) = Ok (evf x)) ->
  (level <> 1 \/
   Z.land (Matrix.flags M) Handle.status_flags.evaluated = 0 ->
   Matrix.eval max_recursion_level M level
   = Ok (Matrix.mk_matrix
           (Z.lor Handle.status_flags.dynallocated
                  Handle.status_flags.evaluated)
           0 (Matrix.row M) (Matrix.col M) (map ev (Matrix.m M)))) /\
  (level <> 1 ->
   Matrix.evalf max_recursion_level M level
   = Ok (Matrix.matrix_of (Matrix.row M) (Matrix.col M)
           (map evf (Matrix.m M)))) /\
  Matrix.evalf max_recursion_level M 1 = Ok M.
Proof.
  intros Hwf Hlevel Hev Hevf. pose proof Hwf as (Hr & Hc & Hlen).
  assert (Hrep : Z.of_nat
                   (length (replicate
                              (Z.to_nat (Matrix.row M * Matrix.col M))
                              (exZERO : ex)))
                 = Matrix.row M * Matrix.col M)
    by (rewrite length_replicate; nia).
  split; [| split].
  - intros Hcase. unfold Matrix.eval.
    replace ((level =? 1)
             && negb (Z.land (Matrix.flags M)
                        Handle.status_flags.evaluated =? 0))
      with false.
    + destruct (Z.eqb_spec level (- max_recursion_level)); [contradiction |].
      now rewrite (map_entries_spec M _ ev _ Hwf Hrep Hev).
    + symmetry. destruct Hcase as [Hne | Hflag].
      * destruct (Z.eqb_spec level 1); [contradiction | reflexivity].
      * rewrite Hflag. cbn. apply andb_false_r.
  - intros Hne. unfold Matrix.evalf.
    destruct (Z.eqb_spec level 1); [contradiction |].
    destruct (Z.eqb_spec level (- max_recursion_level)); [contradiction |].
    now rewrite (map_entries_spec M _ evf _ Hwf Hrep Hevf).
  - reflexivity.
Qed.

End MatrixCompose.

Lemma transpose_add_sub_witness :
  exists TA TB S TS,
    Matrix.transpose (Sym.matrix3 [0; 1; 2; 3; 4; 5; 6; 7; 8]%nat) = Ok TA /\
    Matrix.transpose (Sym.matrix3 [8; 7; 6; 5; 4; 3; 2; 1; 0]%nat) = Ok TB /\
    Matrix.add (Sym.matrix3 [0; 1; 2; 3; 4; 5; 6; 7; 8]%nat)
      (Sym.matrix3 [8; 7; 6; 5; 4; 3; 2; 1; 0]%nat) = Ok S /\
    Matrix.transpose S = Ok TS /\ Matrix.add TA TB = Ok TS.
Proof.
  destruct (transpose_add_sub
              (Sym.matrix3 [0; 1; 2; 3; 4; 5; 6; 7; 8]%nat)
              (Sym.matrix3 [8; 7; 6; 5; 4; 3; 2; 1; 0]%nat))
    as (TA & TB & S & D & TS & TD & HTA & HTB & HS & _ & HTS & Hadd & _);
    [repeat split; cbn; lia | repeat split; cbn; lia
    | reflexivity | reflexivity |].
  exists TA, TB, S, TS. repeat split; assumption.
Defined.

Lemma trace_transpose_witness :
  exists T,
    Matrix.transpose (Sym.matrix3 [0; 1; 2; 3; 4; 5; 6; 7; 8]%nat) = Ok T /\
    Matrix.trace T
    = Matrix.trace (Sym.matrix3 [0; 1; 2; 3; 4; 5; 6; 7; 8]%nat).
Proof.
  apply trace_transpose. repeat split; cbn; lia.
Defined.

Lemma expand_entrywise_witness :
  Matrix.expand (Sym.matrix3 [0; 1; 2; 3; 4; 5; 6; 7; 8]%nat)
  = Ok (Matrix.matrix_of 3 3
          (map ex_expand
             (Matrix.m (Sym.matrix3 [0; 1; 2; 3; 4; 5; 6; 7; 8]%nat)))).
Proof.
  apply (expand_entrywise (Sym.matrix3 [0; 1; 2; 3; 4; 5; 6; 7; 8]%nat)).
  repeat split; cbn; lia.
Defined.

Lemma eval_entrywise_witness :
  Matrix.eval 1024 (Sym.matrix3 [0; 1; 2; 3; 4; 5; 6; 7; 8]%nat) 0
  = Ok (Matrix.mk_matrix 3 0 3 3
          (map (fun x => x)
             (Matrix.m (Sym.matrix3 [0; 1; 2; 3; 4; 5; 6; 7; 8]%nat)))).
Proof.
  destruct (eval_entrywise 1024
              (Sym.matrix3 [0; 1; 2; 3; 4; 5; 6; 7; 8]%nat)
              0 (fun x => x) (fun x => x)) as (Heval & _).
  - repeat split; cbn; lia.
  - lia.
  - reflexivity.
  - reflexivity.
  - apply Heval. left. lia.
Defined.

(** ** matrix.cpp: the sign of a permutation *)

Section PermutationSign.

Import Matrix.

Lemma permutation_sign_inner_none (tl : list Z) :
  forall x sigma,
    permutation_sign_inner x tl sigma = None -> ~ NoDup (x :: tl).
Proof.
  induction tl as [| y tl IH]; intros x sigma; cbn [permutation_sign_inner];
    [discriminate |].
  destruct (Z.eqb_spec x y) as [-> | Hne].
  - intros _ Hnd. apply NoDup_cons in Hnd. destruct Hnd as [Hin _].
    apply Hin. now left.
  - destruct (Z.ltb_spec y x) as [Hlt | Hge].
    + destruct (permutation_sign_inner y tl (- sigma)) as [[[x' tl'] sg] |]
        eqn:Hinner; [discriminate |].
      intros _ Hnd. apply (IH _ _ Hinner).
      apply NoDup_cons in Hnd. apply Hnd.
    + destruct (permutation_sign_inner x tl sigma) as [[[x' tl'] sg] |]
        eqn:Hinner; [discriminate |].
      intros _ Hnd. apply (IH _ _ Hinner).
      apply NoDup_cons in Hnd. destruct Hnd as [Hin Hnd].
      apply NoDup_cons in Hnd. destruct Hnd as [_ Hnd].
      apply NoDup_cons. split; [| exact Hnd].
      intros Hx. apply Hin. now right.
Qed.

(** One pass of the inner loop brings the least element to the front,
    below all the others, and keeps the elements. *)
Lemma permutation_sign_inner_some (tl : list Z) :
  forall x sigma x' tl' sg,
    permutation_sign_inner x tl sigma = Some (x', tl', sg) ->
    x' :: tl' ≡ₚ x :: tl /\
    Forall (fun y => x' < y) tl' /\
    (sg = sigma \/ sg = - sigma) /\
    x' <= x.
Proof.
  induction tl as [| y tl IH]; intros x sigma x' tl' sg;
    cbn [permutation_sign_inner].
  - intros [= <- <- <-].
    split; [reflexivity |]. split; [constructor |]. split; [auto | lia].
  - destruct (Z.eqb_spec x y) as [-> | Hne]; [discriminate |].
    destruct (Z.ltb_spec y x) as [Hlt | Hge].
    + destruct (permutation_sign_inner y tl (- sigma)) as [[[x0 tl0] sg0] |]
        eqn:Hinner; [| discriminate].
      intros [= <- <- <-].
      destruct (IH _ _ _ _ _ Hinner) as (Hperm & Hall & Hsg & Hle).
      split; [| split; [| split]].
      * transitivity (x :: x0 :: tl0); [apply perm_swap |].
        now apply Permutation_skip.
      * constructor; [lia | exact Hall].
      * destruct Hsg as [-> | ->]; [now right | left; lia].
      * lia.
    + destruct (permutation_sign_inner x tl sigma) as [[[x0 tl0] sg0] |]
        eqn:Hinner; [| discriminate].
      intros [= <- <- <-].
      destruct (IH _ _ _ _ _ Hinner) as (Hperm & Hall & Hsg & Hle).
      split; [| split; [| split]].
      * transitivity (y :: x0 :: tl0); [apply perm_swap |].
        transitivity (y :: x :: tl); [| apply perm_swap].
        now apply Permutation_skip.
      * constructor; [lia | exact Hall].
      * exact Hsg.
      * exact Hle.
Qed.

Lemma permutation_sign_outer_spec (n : nat) :
  forall s sigma,
    (length s <= n)%nat -> sigma <> 0 ->
    (permutation_sign_outer n s sigma = 0 <-> ~ NoDup s) /\
    (permutation_sign_outer n s sigma = 0 \/
     permutation_sign_outer n s sigma = sigma \/
     permutation_sign_outer n s sigma = - sigma).
Proof.
  induction n as [| n IH]; intros s sigma Hlen Hsigma.
  - destruct s; [| cbn in Hlen; lia]. cbn.
    split; [| auto]. split; [contradiction |].
    intros Hnd. exfalso. apply Hnd. constructor.
  - destruct s as [| x [| y tl]]; cbn [permutation_sign_outer].
    + split; [| auto]. split; [contradiction |].
      intros Hnd. exfalso. apply Hnd. constructor.
    + split; [| auto]. split; [contradiction |].
      intros Hnd. exfalso. apply Hnd. apply NoDup_singleton.
    + destruct (permutation_sign_inner x (y :: tl) sigma)
        as [[[x' tl'] sg] |] eqn:Hinner.
      * destruct (permutation_sign_inner_some _ _ _ _ _ _ Hinner)
          as (Hperm & Hall & Hsg & _).
        assert (Hlen' : (length tl' <= n)%nat).
        { apply Permutation_length in Hperm. cbn [length] in *. lia. }
        assert (Hsg0 : sg <> 0) by (destruct Hsg; lia).
        destruct (IH tl' sg Hlen' Hsg0) as [Hiff Hval].
        split.
        -- rewrite Hiff, <- Hperm, NoDup_cons.
           split; [intros Hnd [_ Hnd']; contradiction |].
           intros Hnd Hnd'. apply Hnd. split; [| exact Hnd'].
           intros Hin. rewrite Forall_forall in Hall.
           specialize (Hall _ Hin). lia.
        -- destruct Hval as [H0 | [Hs | Hs]]; [auto | |];
             destruct Hsg as [-> | ->]; rewrite Hs; auto.
           right. left. lia.
      * split; [| auto]. split; [| reflexivity].
        intros _. exact (permutation_sign_inner_none _ _ _ Hinner).
Qed.

(** On a strictly increasing vector the inner loop exchanges nothing. *)
Lemma permutation_sign_inner_sorted (tl : list Z) :
  forall x sigma,
    Forall (fun y => x < y) tl ->
    permutation_sign_inner x tl sigma = Some (x, tl, sigma).
Proof.
  induction tl as [| y tl IH]; intros x sigma Hall;
    cbn [permutation_sign_inner]; [reflexivity |].
  apply Forall_cons in Hall. destruct Hall as [Hxy Hall].
  destruct (Z.eqb_spec x y); [lia |].
  destruct (Z.ltb_spec y x); [lia |].
  now rewrite IH.
Qed.

Lemma permutation_sign_outer_sorted (n : nat) :
  forall s sigma,
    StronglySorted Z.lt s -> permutation_sign_outer n s sigma = sigma.
Proof.
  induction n as [| n IH]; intros s sigma Hs; [now destruct s |].
  destruct s as [| x [| y tl]]; cbn [permutation_sign_outer]; trivial.
  apply StronglySorted_inv in Hs. destruct Hs as [Htl Hall].
  rewrite permutation_sign_inner_sorted by exact Hall.
  now apply IH.
Qed.

(** X19. [permutation_sign] returns 0, 1 or -1, and it returns 0 exactly
    when the vector has fewer than two elements or holds an element
    twice: two equal elements are always compared at some point.  On a
    strictly increasing vector of two or more elements it returns 1. *)
Theorem permutation_sign_zero_iff (s : list Z) :
  (permutation_sign s = 0 <-> (length s < 2)%nat \/ ~ NoDup s) /\
  (permutation_sign s = 0 \/ permutation_sign s = 1 \/
   permutation_sign s = -1) /\
  ((2 <= length s)%nat -> StronglySorted Z.lt s -> permutation_sign s = 1).
Proof.
  unfold permutation_sign.
  destruct (Nat.ltb_spec (length s) 2) as [Hlt | Hge].
  - split; [| split]; [| auto | lia].
    split; [auto | reflexivity].
  - destruct (permutation_sign_outer_spec (length s) s 1 (le_n _)
                ltac:(lia)) as [Hiff Hval].
    split; [| split].
    + rewrite Hiff. split; [auto |]. intros [Hlt | Hnd]; [lia | exact Hnd].
    + exact Hval.
    + intros _ Hsorted. now apply permutation_sign_outer_sorted.
Qed.

End PermutationSign.

(** ** matrix.cpp: pivoting *)

Section Pivot.

Context {ex : Type} `{ExOps ex}.

Lemma pivot_search_spec (M : Matrix.matrix ex) (ro : Z) :
  Matrix.wf_matrix M -> 0 <= ro < Matrix.col M ->
  forall n r,
    0 <= r -> r + Z.of_nat n = Matrix.row M ->
    exists k,
      Matrix.pivot_search n M ro r = Ok k /\
      ((r <= k < Matrix.row M /\
        (exists x, Matrix.m M !! Z.to_nat (k * Matrix.col M + ro) = Some x /\
                   ex_is_zero x = false) /\
        forall j, r <= j < k -> Matrix.zero_in_column M ro j) \/
       (k = ro /\ forall j, r <= j < Matrix.row M -> Matrix.zero_in_column M ro j)).
Proof.
  intros (Hr & Hc & Hlen) Hro.
  induction n as [| n IH]; intros r Hr0 Hrn; cbn [Matrix.pivot_search].
  - exists ro. split; [reflexivity |]. right. split; [reflexivity |].
    intros j Hj. lia.
  - destruct (vget_in_range (Matrix.m M) (r * Matrix.col M + ro))
      as (x & Hx & Hget); [nia |].
    rewrite Hget. cbn.
    destruct (ex_is_zero x) eqn:Hzero; cbn [negb].
    + destruct (IH (r + 1) ltac:(lia) ltac:(lia)) as (k & Hk & Hcase).
      exists k. split; [exact Hk |].
      assert (Hhere : Matrix.zero_in_column M ro r) by (exists x; auto).
      destruct Hcase as [(Hrange & Hnz & Hbelow) | (-> & Hall)].
      * left. split; [lia |]. split; [exact Hnz |].
        intros j Hj. destruct (Z.eq_dec j r) as [-> | Hne]; [exact Hhere |].
        apply Hbelow. lia.
      * right. split; [reflexivity |].
        intros j Hj. destruct (Z.eq_dec j r) as [-> | Hne]; [exact Hhere |].
        apply Hall. lia.
    + exists r. split; [reflexivity |]. left.
      split; [lia |]. split; [exists x; auto |]. intros j Hj. lia.
Qed.

(** The loop of [pivot] that exchanges the rows [k] and [ro]. *)
Lemma swap_rows_spec (M : Matrix.matrix ex) (k ro : Z) :
  Matrix.wf_matrix M ->
  0 <= k < Matrix.row M -> 0 <= ro < Matrix.row M -> k <> ro ->
  exists m',
    for_range 0 (Matrix.col M) (fun c m' =>
      a ← vget m' (k * Matrix.col M + c);
      b ← vget m' (ro * Matrix.col M + c);
      m1 ← vset m' (k * Matrix.col M + c) b;
      vset m1 (ro * Matrix.col M + c) a) (Matrix.m M) = Ok m' /\
    Z.of_nat (length m') = Matrix.row M * Matrix.col M /\
    forall r c, 0 <= r < Matrix.row M -> 0 <= c < Matrix.col M ->
      m' !! Z.to_nat (r * Matrix.col M + c)
      = Matrix.m M !! Z.to_nat
          ((if r =? k then ro else if r =? ro then k else r) * Matrix.col M
           + c).
Proof.
  intros (Hr & Hc & Hlen) Hk Hro Hne.
  set (C := Matrix.col M) in *. set (R := Matrix.row M) in *.
  destruct (for_range_inv
              (fun c (m' : list ex) =>
                 Z.of_nat (length m') = R * C /\
                 (forall r c', 0 <= r < R -> 0 <= c' < C -> c' < c ->
                    m' !! Z.to_nat (r * C + c')
                    = Matrix.m M !! Z.to_nat
                        ((if r =? k then ro else if r =? ro then k else r) * C
                         + c')) /\
                 (forall r c', 0 <= r < R -> 0 <= c' < C -> c <= c' ->
                    m' !! Z.to_nat (r * C + c')
                    = Matrix.m M !! Z.to_nat (r * C + c')))
              (fun c m' =>
                 a ← vget m' (k * C + c);
                 b ← vget m' (ro * C + c);
                 m1 ← vset m' (k * C + c) b;
                 vset m1 (ro * C + c) a)
              0 C (Matrix.m M) Hc)
    as (m' & Hm' & Hlen' & Hdone & _).
  - split; [exact Hlen |]. split; [intros; lia | reflexivity].
  - intros c m0 Hcc (Hlen0 & Hswapped & Hrest).
    destruct (vget_in_range m0 (k * C + c)) as (a & Ha & Hgeta); [nia |].
    destruct (vget_in_range m0 (ro * C + c)) as (b & Hb & Hgetb); [nia |].
    rewrite Hgeta. cbn. rewrite Hgetb. cbn.
    rewrite vset_in_range by nia. cbn.
    rewrite vset_in_range by (rewrite length_insert; nia).
    eexists. split; [reflexivity |].
    rewrite (Hrest k c Hk Hcc ltac:(lia)) in Ha.
    rewrite (Hrest ro c Hro Hcc ltac:(lia)) in Hb.
    assert (Hidx : forall r r' c', 0 <= c' < C -> 0 <= r -> 0 <= r' ->
              (r, c') <> (r', c) ->
              Z.to_nat (r' * C + c) <> Z.to_nat (r * C + c')).
    { intros r r' c' Hc' Hr0 Hr0' Hdiff Heq. apply Hdiff.
      assert (Heq' : r' * C + c = r * C + c') by nia.
      destruct (grid_index_inj C r' c r c' Hcc Hc' Heq') as [-> ->].
      reflexivity. }
    split; [now rewrite !length_insert |]. split.
    + intros r c' Hrr Hc' Hlt.
      destruct (Z.eq_dec c' c) as [-> | Hcne].
      * destruct (Z.eqb_spec r k) as [-> | Hrk].
        -- rewrite list_lookup_insert_ne
             by (apply Hidx; try lia; intros [= ?]; lia).
           rewrite list_lookup_insert_eq by nia. now rewrite Hb.
        -- destruct (Z.eqb_spec r ro) as [-> | Hrro].
           ++ rewrite list_lookup_insert_eq
                by (rewrite length_insert; nia).
              now rewrite Ha.
           ++ rewrite !list_lookup_insert_ne
                by (apply Hidx; try lia; intros [= ?]; lia).
              apply Hrest; trivial. lia.
      * rewrite !list_lookup_insert_ne
          by (apply Hidx; try lia; intros [= ?]; lia).
        apply Hswapped; trivial. lia.
    + intros r c' Hrr Hc' Hle.
      rewrite !list_lookup_insert_ne
        by (apply Hidx; try lia; intros [= ?]; lia).
      apply Hrest; trivial. lia.
  - exists m'. split; [exact Hm' |]. split; [exact Hlen' |].
    intros r c Hrr Hcc. apply Hdone; trivial. lia.
Qed.

Lemma at_lookup (M : Matrix.matrix ex) (r c : Z) (x : ex) :
  0 <= r < Matrix.row M -> 0 <= c < Matrix.col M ->
  Matrix.m M !! Z.to_nat (r * Matrix.col M + c) = Some x ->
  Matrix.at_ M r c = Ok x.
Proof.
  intros Hr Hc Hx. rewrite at_in_range by trivial.
  apply vget_lookup; [nia | exact Hx].
Qed.

(** X20. [pivot] on row [ro] of a matrix that holds its entries, [ro]
    being a row and a column of it: the result is -1 exactly when column
    [ro] is zero from row [ro] down, and then the matrix is left as it
    was; otherwise the entry at [(ro, ro)] of the matrix is not zero
    afterwards; the result is 0 when no rows were exchanged, and else the
    number, greater than [ro], of the first row with a non-zero entry in
    column [ro], which has changed places with row [ro], every other row
    being as before. *)
Theorem pivot_brings_nonzero (M : Matrix.matrix ex) (ro : Z) :
  Matrix.wf_matrix M -> 0 <= ro < Matrix.row M -> ro < Matrix.col M ->
  exists indx M',
    Matrix.pivot M ro = Ok (indx, M') /\
    Matrix.wf_matrix M' /\
    Matrix.row M' = Matrix.row M /\ Matrix.col M' = Matrix.col M /\
    (indx = -1 <->
     forall r, ro <= r < Matrix.row M ->
               exists x, Matrix.at_ M r ro = Ok x /\ ex_is_zero x = true) /\
    (indx = -1 \/ indx = 0 -> M' = M) /\
    (indx <> -1 ->
     exists x, Matrix.at_ M' ro ro = Ok x /\ ex_is_zero x = false) /\
    (indx <> -1 -> indx <> 0 ->
     ro < indx < Matrix.row M /\
     (forall r, ro <= r < indx ->
                exists x, Matrix.at_ M r ro = Ok x /\ ex_is_zero x = true) /\
     forall c,
       Matrix.at_ M' ro c = Matrix.at_ M indx c /\
       Matrix.at_ M' indx c = Matrix.at_ M ro c /\
       forall r, r <> ro -> r <> indx ->
                 Matrix.at_ M' r c = Matrix.at_ M r c).
Proof.
  intros Hwf Hro Hroc. pose proof Hwf as (Hr & Hc & Hlen).
  destruct (pivot_search_spec M ro Hwf ltac:(lia)
              (Z.to_nat (Matrix.row M - ro)) ro ltac:(lia) ltac:(lia))
    as (k & Hsearch & Hcase).
  assert (Hzero_at : forall j, ro <= j < Matrix.row M ->
            Matrix.zero_in_column M ro j ->
            exists x, Matrix.at_ M j ro = Ok x /\ ex_is_zero x = true).
  { intros j Hj (x & Hx & Hz). exists x. split; [| exact Hz].
    apply at_lookup; trivial; lia. }
  unfold Matrix.pivot. rewrite Hsearch. cbn.
  destruct Hcase as [(Hk & (x & Hx & Hnz) & Hbelow) | (-> & Hall)].
  - assert (Hk0 : 0 <= k * Matrix.col M + ro) by nia.
    rewrite (vget_lookup _ _ _ Hk0 Hx). cbn. rewrite Hnz.
    assert (Hnot_all :
              ~ (forall r, ro <= r < Matrix.row M ->
                   exists y, Matrix.at_ M r ro = Ok y /\ ex_is_zero y = true)).
    { intros Hall. destruct (Hall k Hk) as (y & Hy & Hyz).
      rewrite (at_lookup M k ro x) in Hy by (trivial; lia).
      injection Hy as ->. congruence. }
    destruct (Z.eqb_spec k ro) as [-> | Hne]; cbn [negb].
    + exists 0, M. split; [reflexivity |]. split; [exact Hwf |].
      do 2 (split; [reflexivity |]).
      split; [split; [lia | intros Hall; contradiction] |].
      split; [reflexivity |].
      split; [intros _; exists x; split; [| exact Hnz];
              apply at_lookup; trivial; lia |].
      intros _ H0. contradiction.
    + destruct (swap_rows_spec M k ro Hwf ltac:(lia) Hro Hne)
        as (m' & Hm' & Hlen' & Hswap).
      rewrite Hm'. cbn.
      set (M' := Matrix.mk_matrix (Matrix.flags M) (Matrix.refcount M)
                   (Matrix.row M) (Matrix.col M) m').
      assert (HwfM' : Matrix.wf_matrix M') by (repeat split; cbn; trivial).
      assert (Hat' : forall r c,
                Matrix.at_ M' r c
                = Matrix.at_ M
                    (if r =? k then ro else if r =? ro then k else r) c).
      { intros r c.
        destruct (Z_lt_le_dec r 0) as [Hr0 | Hr0];
          [rewrite !at_out_of_range;
           [reflexivity
           | destruct (Z.eqb_spec r k), (Z.eqb_spec r ro); lia
           | cbn; lia] |].
        destruct (Z_lt_le_dec r (Matrix.row M)) as [Hr1 | Hr1];
          [| rewrite !at_out_of_range;
             [reflexivity
             | destruct (Z.eqb_spec r k), (Z.eqb_spec r ro); lia
             | cbn; lia]].
        destruct (Z_lt_le_dec c 0) as [Hc0 | Hc0];
          [rewrite !at_out_of_range by (cbn; lia); reflexivity |].
        destruct (Z_lt_le_dec c (Matrix.col M)) as [Hc1 | Hc1];
          [| rewrite !at_out_of_range by (cbn; lia); reflexivity].
        rewrite (at_in_range M') by (cbn; lia).
        rewrite (at_in_range M)
          by (destruct (Z.eqb_spec r k), (Z.eqb_spec r ro); lia).
        cbn [Matrix.m Matrix.col M']. unfold vget.
        destruct (Z.ltb_spec (r * Matrix.col M + c) 0); [nia |].
        destruct (Z.ltb_spec
                    ((if r =? k then ro else if r =? ro then k else r)
                     * Matrix.col M + c) 0);
          [destruct (Z.eqb_spec r k), (Z.eqb_spec r ro); nia |].
        now rewrite (Hswap r c ltac:(lia) ltac:(lia)). }
      exists k, M'. split; [reflexivity |]. split; [exact HwfM' |].
      do 2 (split; [reflexivity |]).
      split; [split; [lia | intros Hall; contradiction] |].
      split; [intros [? | ?]; lia |].
      split.
      * intros _. exists x. split; [| exact Hnz].
        rewrite Hat'. destruct (Z.eqb_spec ro k); [lia |].
        rewrite Z.eqb_refl. apply at_lookup; trivial; lia.
      * intros _ _. split; [lia |]. split.
        -- intros r Hrr. apply Hzero_at; [lia |]. apply Hbelow. lia.
        -- intros c. rewrite !Hat'. rewrite !Z.eqb_refl.
           destruct (Z.eqb_spec ro k); [lia |].
           split; [reflexivity |]. split; [reflexivity |].
           intros r Hr1 Hr2. rewrite Hat'.
           destruct (Z.eqb_spec r k); [lia |].
           destruct (Z.eqb_spec r ro); [lia | reflexivity].
  - destruct (Hall ro ltac:(lia)) as (x & Hx & Hz).
    assert (Hk0 : 0 <= ro * Matrix.col M + ro) by nia.
    rewrite (vget_lookup _ _ _ Hk0 Hx). cbn. rewrite Hz.
    exists (-1), M. split; [reflexivity |]. split; [exact Hwf |].
    do 2 (split; [reflexivity |]).
    split; [split; [| reflexivity];
            intros _ r Hrr; apply Hzero_at; trivial; now apply Hall |].
    split; [reflexivity |].
    split; [intros Hne; contradiction |].
    intros Hne. contradiction.
Qed.

End Pivot.

Lemma pivot_brings_nonzero_witness :
  exists indx M',
    Matrix.pivot
      (Matrix.matrix_of 2 2
         [Sym.numeric 0; Sym.symbol 1; Sym.symbol 2; Sym.symbol 3]) 0
    = Ok (indx, M') /\
    (indx <> -1 ->
     exists x, Matrix.at_ M' 0 0 = Ok x /\ ex_is_zero x = false).
Proof.
  destruct (pivot_brings_nonzero
              (Matrix.matrix_of 2 2
                 [Sym.numeric 0; Sym.symbol 1; Sym.symbol 2; Sym.symbol 3])
              0)
    as (indx & M' & Hpivot & _ & _ & _ & _ & _ & Hnz & _).
  - repeat split; cbn; lia.
  - cbn. lia.
  - cbn. lia.
  - exists indx, M'. split; [exact Hpivot | exact Hnz].
Defined.

(** ** container.pl: substitution against its obsolete form; comparison *)

Section ContainerCompare.

Import Handle Container.

Variable ex_subs : ex -> list ex -> list ex -> result ex.
Variable basic_compare : basic_ptr -> basic_ptr -> Z.
Variable basic_is_equal : basic_ptr -> basic_ptr -> bool.

Lemma are_ex_trivially_equal_eq (e1 e2 : ex) :
  are_ex_trivially_equal e1 e2 = true -> e1 = e2.
Proof.
  unfold are_ex_trivially_equal. intros Heq.
  apply bool_decide_eq_true in Heq. destruct e1, e2. cbn in Heq.
  now subst.
Qed.

Lemma subschildren_from_obsolete (ls lr rest : list ex) :
  forall before,
    (tail ← map_result (fun it => ex_subs it ls lr) rest;
     Ok (before ++ tail))
    = match subschildren_from ex_subs before rest ls lr with
      | Ok None => Ok (before ++ rest)
      | Ok (Some v) => Ok v
      | Throw exn => Throw exn
      | Undefined => Undefined
      end.
Proof.
  induction rest as [| cit rest IH]; intros before;
    cbn [map_result subschildren_from]; [reflexivity |].
  destruct (ex_subs cit ls lr) as [s | exn |] eqn:Hs; cbn; try reflexivity.
  destruct (are_ex_trivially_equal cit s) eqn:Ht; cbn [negb].
  - apply are_ex_trivially_equal_eq in Ht. subst s.
    replace (before ++ cit :: rest) with ((before ++ [cit]) ++ rest)
      by (now rewrite <- app_assoc).
    rewrite <- IH.
    destruct (map_result (fun it => ex_subs it ls lr) rest); cbn;
      try reflexivity.
    now rewrite <- app_assoc.
  - destruct (map_result (fun it => ex_subs it ls lr) rest); reflexivity.
Qed.

(** X21. [subschildren] computes what the obsolete [subschildren] of the
    source computed: when it returns a sequence, that sequence is [subs]
    of every child in order; when it returns the null pointer, [subs] of
    every child is the child itself; and it raises exactly the exception
    the obsolete loop would raise. *)
Theorem subschildren_refines_obsolete (c : container) (ls lr : list ex) :
  subschildren_obsolete ex_subs c ls lr
  = match subschildren ex_subs c ls lr with
    | Ok None => Ok (seq c)
    | Ok (Some v) => Ok v
    | Throw exn => Throw exn
    | Undefined => Undefined
    end.
Proof.
  unfold subschildren_obsolete, subschildren.
  pose proof (subschildren_from_obsolete ls lr (seq c) []) as Hloop.
  cbn [app] in Hloop. rewrite <- Hloop.
  now destruct (map_result (fun it => ex_subs it ls lr) (seq c)).
Qed.

Lemma compare_seq_zero (it1 : list ex) :
  forall it2,
    compare_seq basic_compare it1 it2 = 0 <->
    Forall2 (fun x y => compare basic_compare x y = 0) it1 it2.
Proof.
  induction it1 as [| x it1 IH]; intros [| y it2]; cbn [compare_seq].
  - split; [constructor | reflexivity].
  - split; [discriminate | intros Hall; inversion Hall].
  - split; [discriminate | intros Hall; inversion Hall].
  - destruct (Z.eqb_spec (compare basic_compare x y) 0) as [Hz | Hnz];
      cbn [negb].
    + rewrite IH. split.
      * intros Hall. now constructor.
      * intros Hall. now inversion Hall.
    + split; [contradiction |]. intros Hall. inversion Hall. contradiction.
Qed.

Lemma is_equal_seq_spec (it1 : list ex) :
  forall it2,
    length it1 = length it2 ->
    exists b,
      is_equal_seq basic_is_equal it1 it2 = Ok b /\
      (b = true <->
       Forall2 (fun x y => is_equal basic_is_equal x y = true) it1 it2).
Proof.
  induction it1 as [| x it1 IH]; intros [| y it2] Hlen;
    cbn [is_equal_seq]; try discriminate.
  - exists true. split; [reflexivity |]. split; [constructor | reflexivity].
  - destruct (is_equal basic_is_equal x y) eqn:Hxy; cbn [negb].
    + destruct (IH it2 ltac:(cbn in Hlen; lia)) as (b & Hb & Hiff).
      exists b. split; [exact Hb |]. rewrite Hiff. split.
      * intros Hall. now constructor.
      * intros Hall. now inversion Hall.
    + exists false. split; [reflexivity |]. split; [discriminate |].
      intros Hall. inversion Hall. congruence.
Qed.

Lemma compare_same_handle (x : ex) : compare basic_compare x x = 0.
Proof. unfold compare. now destruct (decide (bp x = bp x)). Qed.

Lemma is_equal_same_handle (x : ex) : is_equal basic_is_equal x x = true.
Proof. unfold is_equal. now destruct (decide (bp x = bp x)). Qed.

Lemma compare_seq_refl (l : list ex) : compare_seq basic_compare l l = 0.
Proof.
  induction l as [| x l IH]; cbn [compare_seq]; [reflexivity |].
  now rewrite compare_same_handle.
Qed.

Lemma is_equal_seq_refl (l : list ex) :
  is_equal_seq basic_is_equal l l = Ok true.
Proof.
  induction l as [| x l IH]; cbn [is_equal_seq]; [reflexivity |].
  now rewrite is_equal_same_handle.
Qed.

(** X22. A container compares equal to itself, whatever the comparison of
    the children's classes does: handles on one node are equal without a
    call.  [compare_same_type] is 0 exactly when the two sequences have
    the same length and every pair of children compares as 0;
    [is_equal_same_type] always returns, never reading past the other
    sequence, and says [true] exactly when the lengths agree and every
    pair of children is equal; and the two agree when [is_equal] of the
    children means that [compare] is 0. *)
Theorem container_compare_equal (c o : container) :
  compare_same_type basic_compare c c = 0 /\
  is_equal_same_type basic_is_equal c c = Ok true /\
  (compare_same_type basic_compare c o = 0 <->
   Forall2 (fun x y => compare basic_compare x y = 0) (seq c) (seq o)) /\
  (exists b,
     is_equal_same_type basic_is_equal c o = Ok b /\
     (b = true <->
      Forall2 (fun x y => is_equal basic_is_equal x y = true)
        (seq c) (seq o))) /\
  ((forall x y, is_equal basic_is_equal x y
                = (compare basic_compare x y =? 0)) ->
   is_equal_same_type basic_is_equal c o
   = Ok (compare_same_type basic_compare c o =? 0)).
Proof.
  assert (Hequal :
    exists b,
      is_equal_same_type basic_is_equal c o = Ok b /\
      (b = true <->
       Forall2 (fun x y => is_equal basic_is_equal x y = true)
         (seq c) (seq o))).
  { unfold is_equal_same_type.
    destruct (Nat.eqb_spec (length (seq c)) (length (seq o))) as [Hlen | Hne];
      cbn [negb]; [now apply is_equal_seq_spec |].
    exists false. split; [reflexivity |]. split; [discriminate |].
    intros Hall. apply Forall2_length in Hall. contradiction. }
  split; [| split; [| split; [| split]]].
  - apply compare_seq_refl.
  - unfold is_equal_same_type. rewrite Nat.eqb_refl. cbn [negb].
    apply is_equal_seq_refl.
  - apply compare_seq_zero.
  - exact Hequal.
  - intros Hagree. destruct Hequal as (b & -> & Hb). f_equal.
    destruct (Z.eqb_spec (compare_same_type basic_compare c o) 0)
      as [Hz | Hnz].
    + apply Hb. apply compare_seq_zero in Hz.
      eapply Forall2_impl; [exact Hz |].
      intros x y Hxy. cbn in Hxy. rewrite Hagree, Hxy. reflexivity.
    + destruct b; [| reflexivity]. exfalso. apply Hnz.
      apply compare_seq_zero.
      eapply Forall2_impl; [apply Hb; reflexivity |].
      intros x y Hxy. cbn in Hxy. rewrite Hagree in Hxy.
      now apply Z.eqb_eq in Hxy.
Qed.

End ContainerCompare.

(** ** ex.h: reference counts under copy, destruction and assignment *)

Section HandleCounts.

Import Handle.

Lemma incr_decr (b : basic) :
  0 <= refcount b -> refcount b + 1 < 2 ^ 32 ->
  decr_refcount (incr_refcount b) = b.
Proof.
  intros H0 H1. unfold decr_refcount, incr_refcount. cbn [flags refcount].
  rewrite (wrap_small (refcount b + 1)) by lia.
  replace (refcount b + 1 - 1) with (refcount b) by lia.
  rewrite wrap_small by lia. now destruct b.
Qed.

(** X23. A copy of a handle that is then destroyed leaves the store as it
    was: on a live, dynamically allocated node whose count is at least 1
    and can still grow, the copy constructor adds one to the count of the
    node and hands out the same pointer, and the destructor of the copy
    takes it back without deleting the node.  The destructor of the only
    handle on a node deletes it. *)
Theorem copy_then_destroy (other : ex) (b : basic) (h : heap) :
  h !! bp other = Some b ->
  Z.land (flags b) status_flags.dynallocated <> 0 ->
  0 < refcount b -> refcount b + 1 < 2 ^ 32 ->
  (exists e' h',
     ex_copy other h = Ok (e', h') /\
     bp e' = bp other /\
     h' !! bp other = Some (mk_basic (flags b) (refcount b + 1)) /\
     ex_destroy e' h' = Ok h) /\
  (refcount b = 1 -> ex_destroy other h = Ok (delete (bp other) h)).
Proof.
  intros Hb Hdyn Hpos Hmax.
  unfold ex_copy, ex_destroy, heap in *. split.
  - rewrite Hb.
    destruct (Z.eqb_spec (Z.land (flags b) status_flags.dynallocated) 0);
      [contradiction |].
    do 2 eexists. split; [reflexivity |]. split; [reflexivity |].
    split.
    + rewrite lookup_insert_eq. unfold incr_refcount.
      now rewrite wrap_small by lia.
    + cbn [bp]. rewrite lookup_insert_eq.
      cbn [incr_refcount flags].
      destruct (Z.eqb_spec (Z.land (flags b) status_flags.dynallocated) 0);
        [contradiction |].
      rewrite incr_decr by lia.
      destruct (Z.eqb_spec (refcount b) 0); [lia |].
      rewrite insert_insert_eq. now rewrite insert_id.
  - intros Hone. rewrite Hb.
    destruct (Z.eqb_spec (Z.land (flags b) status_flags.dynallocated) 0);
      [contradiction |].
    unfold decr_refcount. cbn [refcount]. rewrite Hone. reflexivity.
Qed.

(** X24. Assignment counts the new node before it lets go of the old one.
    So assigning a handle to itself, or to another handle on the same
    node, changes nothing, even when it is the only handle on the node;
    and between two nodes it adds one to the count of the node assigned,
    takes one from the count of the node given up, which is deleted
    exactly when that was its last handle, and leaves every other node
    alone. *)
Theorem assign_moves_one_reference (this other : ex) (b bo : basic)
    (h : heap) :
  h !! bp this = Some b -> h !! bp other = Some bo ->
  Z.land (flags b) status_flags.dynallocated <> 0 ->
  Z.land (flags bo) status_flags.dynallocated <> 0 ->
  0 < refcount b < 2 ^ 32 -> 0 <= refcount bo -> refcount bo + 1 < 2 ^ 32 ->
  (bp this = bp other -> ex_assign this other h = Ok (this, h)) /\
  (bp this <> bp other ->
   exists h',
     ex_assign this other h = Ok (mk_ex (bp other), h') /\
     h' !! bp other = Some (mk_basic (flags bo) (refcount bo + 1)) /\
     h' !! bp this
     = (if refcount b =? 1 then None
        else Some (mk_basic (flags b) (refcount b - 1))) /\
     forall p, p <> bp this -> p <> bp other -> h' !! p = h !! p).
Proof.
  intros Hb Hbo Hdyn Hdyno Hrc Hrco0 Hrco1.
  unfold ex_assign, heap in *. rewrite Hb, Hbo.
  destruct (Z.eqb_spec (Z.land (flags b) status_flags.dynallocated) 0);
    [contradiction |].
  destruct (Z.eqb_spec (Z.land (flags bo) status_flags.dynallocated) 0);
    [contradiction |].
  cbn [orb]. split.
  - intros Hsame. rewrite Hsame in *. rewrite lookup_insert_eq.
    assert (bo = b) by congruence. subst bo.
    rewrite incr_decr by lia.
    destruct (Z.eqb_spec (refcount b) 0); [lia |].
    rewrite insert_insert_eq, insert_id by exact Hb.
    destruct this as [p], other as [q]. cbn in Hsame. now subst.
  - intros Hne. rewrite lookup_insert_ne by congruence. rewrite Hb.
    eexists. split; [reflexivity |].
    unfold decr_refcount, incr_refcount. cbn [refcount flags].
    rewrite (wrap_small (refcount b - 1)), (wrap_small (refcount bo + 1))
      by lia.
    destruct (Z.eqb_spec (refcount b - 1) 0) as [Hlast | Hmore].
    + destruct (Z.eqb_spec (refcount b) 1); [| lia].
      split; [| split].
      * rewrite lookup_delete_ne by congruence. apply lookup_insert_eq.
      * apply lookup_delete_eq.
      * intros p Hp1 Hp2.
        rewrite lookup_delete_ne, lookup_insert_ne by congruence.
        reflexivity.
    + destruct (Z.eqb_spec (refcount b) 1); [lia |].
      split; [| split].
      * rewrite lookup_insert_ne by congruence. apply lookup_insert_eq.
      * apply lookup_insert_eq.
      * intros p Hp1 Hp2. rewrite !lookup_insert_ne by congruence.
        reflexivity.
Qed.

Lemma copy_then_destroy_witness :
  exists e' h',
    ex_copy (mk_ex 1%positive) {[ 1%positive := mk_basic 1 1 ]}
    = Ok (e', h') /\
    ex_destroy e' h' = Ok {[ 1%positive := mk_basic 1 1 ]}.
Proof.
  destruct (copy_then_destroy (mk_ex 1%positive) (mk_basic 1 1)
              {[ 1%positive := mk_basic 1 1 ]})
    as ((e' & h' & Hcopy & _ & _ & Hdestroy) & _).
  - reflexivity.
  - cbn. discriminate.
  - cbn. lia.
  - cbn. lia.
  - exists e', h'. split; [exact Hcopy | exact Hdestroy].
Defined.

Lemma assign_moves_one_reference_witness :
  ex_assign (mk_ex 1%positive) (mk_ex 1%positive)
    {[ 1%positive := mk_basic 1 1 ]}
  = Ok (mk_ex 1%positive, {[ 1%positive := mk_basic 1 1 ]}).
Proof.
  destruct (assign_moves_one_reference (mk_ex 1%positive) (mk_ex 1%positive)
              (mk_basic 1 1) (mk_basic 1 1)
              {[ 1%positive := mk_basic 1 1 ]})
    as (Hself & _).
  - reflexivity.
  - reflexivity.
  - cbn. discriminate.
  - cbn. discriminate.
  - cbn. lia.
  - cbn. lia.
  - cbn. lia.
  - apply Hself. reflexivity.
Defined.

End HandleCounts.

(** ** container.pl: printing a container *)

Section ContainerPrint.

Import Print.

Local Open Scope string_scope.

Variable ex : Type.
Variable ex_print : ex -> Z -> string.

Lemma container_printseq_items_joined (delim : ascii) (this_precedence : Z)
    (more : list ex) :
  forall os it,
    container_printseq_items ex ex_print os it more delim this_precedence
    = os ++ joined (String delim EmptyString)
              (map (fun e => ex_print e this_precedence) (it :: more)).
Proof.
  induction more as [| next more IH]; intros os it;
    cbn [container_printseq_items]; [reflexivity |].
  rewrite IH. unfold print_ex, put, put_char.
  change (map (fun e => ex_print e this_precedence) (it :: next :: more))
    with (ex_print it this_precedence
          :: map (fun e => ex_print e this_precedence) (next :: more)).
  cbn [joined map]. now rewrite !append_assoc.
Qed.

(** X25. A container is printed inside its brackets whatever the context:
    the output is the opening bracket, the children printed at the
    precedence of the container with commas between them, and the closing
    bracket, for every [upper_precedence], also for an empty container. *)
Theorem container_print_always_brackets (open_bracket close_bracket : ascii)
    (seq : list ex) (os : ostream) (upper_precedence : Z) :
  container_print ex ex_print open_bracket close_bracket seq os
    upper_precedence
  = os ++ String open_bracket
            (joined ","
               (map (fun e => ex_print e container_precedence) seq)
             ++ String close_bracket EmptyString).
Proof.
  unfold container_print, container_printseq.
  change (container_precedence <=? wrap (container_precedence + 1))%Z
    with true.
  cbv iota. destruct seq as [| it more].
  - unfold put_char. cbn [map joined]. now rewrite append_assoc.
  - rewrite container_printseq_items_joined. unfold put_char.
    now rewrite !append_assoc.
Qed.

End ContainerPrint.

(** ** matrix.cpp: the product of two matrices *)

Section MatrixProduct.

Context {ex : Type} `{ExOps ex}.

Lemma for_up_never_throws {S : Type} (body : Z -> S -> result S) :
  (forall j s exn, body j s <> Throw exn) ->
  forall n i s exn, for_up n i body s <> Throw exn.
Proof.
  intros Hbody. induction n as [| n IH]; intros i s exn; cbn [for_up];
    [discriminate |].
  destruct (body i s) as [s1 | exn1 |] eqn:Hs; cbn.
  - apply IH.
  - now apply Hbody in Hs.
  - discriminate.
Qed.

Lemma vset_never_throws {A : Type} (v : list A) (i : Z) (x : A)
    (exn : exception) :
  vset v i x <> Throw exn.
Proof. unfold vset. destruct ((i <? 0) || _); discriminate. Qed.

(** The sum accumulated after [l] turns of the innermost loop. *)
Lemma mul_inner_loop (M other : Matrix.matrix ex) (i j : Z) (t0 : list ex) :
  Matrix.wf_matrix M -> Matrix.wf_matrix other ->
  Matrix.col M = Matrix.row other ->
  0 <= i < Matrix.row M -> 0 <= j < Matrix.col other ->
  Z.of_nat (length t0) = Matrix.row M * Matrix.col other ->
  t0 !! Z.to_nat (i * Matrix.col other + j) = Some exZERO ->
  for_range 0 (Matrix.col M) (fun l prod =>
    p ← vget prod (i * Matrix.col other + j);
    a ← vget (Matrix.m M) (i * Matrix.col M + l);
    b ← vget (Matrix.m other) (l * Matrix.col other + j);
    vset prod (i * Matrix.col other + j) (ex_add p (ex_mul a b))) t0
  = vset t0 (i * Matrix.col other + j) (Matrix.mul_entry M other i j).
Proof.
  intros (Hr & Hc & Hlen) (Hr' & Hc' & Hlen') Hshape Hi Hj Hlen0 Hzero.
  set (idx := i * Matrix.col other + j) in *.
  assert (Hidx : 0 <= idx < Z.of_nat (length t0)) by (subst idx; nia).
  set (partial := fun l : nat =>
         fold_left
           (fun acc l =>
              ex_add acc
                (ex_mul
                   (default exZERO
                      (Matrix.m M
                         !! Z.to_nat (i * Matrix.col M + Z.of_nat l)))
                   (default exZERO
                      (Matrix.m other
                         !! Z.to_nat (Z.of_nat l * Matrix.col other + j)))))
           (List.seq 0 l) exZERO).
  destruct (for_range_inv
              (fun l (prod : list ex) =>
                 prod = <[Z.to_nat idx := partial (Z.to_nat l)]> t0)
              (fun l prod =>
                 p ← vget prod idx;
                 a ← vget (Matrix.m M) (i * Matrix.col M + l);
                 b ← vget (Matrix.m other) (l * Matrix.col other + j);
                 vset prod idx (ex_add p (ex_mul a b)))
              0 (Matrix.col M) t0 Hc)
    as (t' & Ht' & Hfinal).
  - cbn. symmetry. now apply list_insert_id.
  - intros l prod Hl ->.
    destruct (vget_in_range (Matrix.m M) (i * Matrix.col M + l))
      as (a & Ha & Hgeta); [nia |].
    destruct (vget_in_range (Matrix.m other) (l * Matrix.col other + j))
      as (b & Hb & Hgetb); [nia |].
    rewrite (vget_lookup _ idx (partial (Z.to_nat l)))
      by (try lia; apply list_lookup_insert_eq; lia).
    cbn. rewrite Hgeta. cbn. rewrite Hgetb. cbn.
    rewrite vset_in_range by (rewrite length_insert; lia).
    eexists. split; [reflexivity |].
    rewrite list_insert_insert_eq. f_equal.
    replace (Z.to_nat (l + 1)) with (Datatypes.S (Z.to_nat l)) by lia.
    unfold partial. rewrite seq_S, fold_left_app. cbn [fold_left Nat.add].
    rewrite Z2Nat.id by lia. now rewrite Ha, Hb.
  - rewrite Ht', Hfinal. now rewrite vset_in_range.
Qed.

(** X26. [mul] raises [logic_error] exactly when the number of columns of
    the left matrix is not the number of rows of the right one.  On
    matrices that hold their entries it returns a matrix with the rows of
    the left and the columns of the right matrix, whose entry at row [i]
    and column [j] is the sum, built up from zero in the order of the
    loop, of the products of the entries of row [i] on the left with
    those of column [j] on the right. *)
Theorem mul_entries (M other : Matrix.matrix ex) :
  (Matrix.mul M other = Throw logic_error <->
   Matrix.col M <> Matrix.row other) /\
  (Matrix.wf_matrix M -> Matrix.wf_matrix other ->
   Matrix.col M = Matrix.row other ->
   exists P,
     Matrix.mul M other = Ok P /\
     Matrix.wf_matrix P /\
     Matrix.row P = Matrix.row M /\ Matrix.col P = Matrix.col other /\
     forall i j, 0 <= i < Matrix.row M -> 0 <= j < Matrix.col other ->
                 Matrix.at_ P i j = Ok (Matrix.mul_entry M other i j)).
Proof.
  split.
  - unfold Matrix.mul.
    destruct (Z.eqb_spec (Matrix.col M) (Matrix.row other)) as [Heq | Hne];
      cbn [negb]; [| split; [trivial | reflexivity]].
    split; [| contradiction]. intros Hthrow. exfalso.
    destruct (for_range 0 (Matrix.row M) _ _) as [prod | exn |] eqn:Hloop;
      cbn in Hthrow; try discriminate.
    revert Hloop. unfold for_range. apply for_up_never_throws.
    intros i s e. apply for_up_never_throws.
    intros j s0 e0. apply for_up_never_throws.
    intros l s1 e1.
    destruct (vget s1 _) as [p | ? |] eqn:Hp; cbn;
      [| now apply vget_never_throws in Hp | discriminate].
    destruct (vget (Matrix.m M) _) as [a | ? |] eqn:Ha; cbn;
      [| now apply vget_never_throws in Ha | discriminate].
    destruct (vget (Matrix.m other) _) as [b | ? |] eqn:Hb; cbn;
      [| now apply vget_never_throws in Hb | discriminate].
    apply vset_never_throws.
  - intros Hwf Hwf' Hshape.
    pose proof Hwf as (Hr & Hc & Hlen).
    pose proof Hwf' as (Hr' & Hc' & Hlen').
    unfold Matrix.mul. rewrite Hshape, Z.eqb_refl. cbn [negb].
    rewrite <- Hshape.
    destruct (fill_grid_fresh (Matrix.row M) (Matrix.col other)
                (fun i j prod =>
                   for_range 0 (Matrix.col M) (fun l prod =>
                     p ← vget prod (i * Matrix.col other + j);
                     a ← vget (Matrix.m M) (i * Matrix.col M + l);
                     b ← vget (Matrix.m other) (l * Matrix.col other + j);
                     vset prod (i * Matrix.col other + j)
                       (ex_add p (ex_mul a b))) prod)
                (fun i j => Matrix.mul_entry M other i j)
                (replicate (Z.to_nat (Matrix.row M * Matrix.col other))
                   exZERO)
                Hr Hc')
      as (prod & Hprod & Hlenp & Hval).
    + rewrite length_replicate. nia.
    + intros i j t0 Hi Hj Hlen0 Hfresh.
      apply mul_inner_loop; trivial.
      rewrite Hfresh. apply lookup_replicate_2. nia.
    + rewrite Hprod. cbn. eexists. split; [reflexivity |].
      split; [repeat split; cbn; trivial |].
      do 2 (split; [reflexivity |]).
      intros i j Hi Hj. apply at_lookup; cbn; trivial.
      now apply Hval.
Qed.

End MatrixProduct.

Lemma mul_entries_witness :
  exists P,
    Matrix.mul (Matrix.matrix_of 1 2 [Sym.symbol 0; Sym.symbol 1])
      (Matrix.matrix_of 2 1 [Sym.symbol 2; Sym.symbol 3]) = Ok P /\
    Matrix.at_ P 0 0
    = Ok (Matrix.mul_entry
            (Matrix.matrix_of 1 2 [Sym.symbol 0; Sym.symbol 1])
            (Matrix.matrix_of 2 1 [Sym.symbol 2; Sym.symbol 3]) 0 0).
Proof.
  destruct (mul_entries (Matrix.matrix_of 1 2 [Sym.symbol 0; Sym.symbol 1])
              (Matrix.matrix_of 2 1 [Sym.symbol 2; Sym.symbol 3]))
    as (_ & Hmul).
  destruct Hmul as (P & HP & _ & _ & _ & Hat);
    [repeat split; cbn; lia | repeat split; cbn; lia | reflexivity |].
  exists P. split; [exact HP |]. apply Hat; cbn; lia.
Defined.

(** ** print.cpp: printing a matrix *)

Section MatrixPrint.

Import Print.

Local Open Scope string_scope.

Variable ex : Type.
Variable ex_print : ex -> Z -> string.

Lemma flat_app (l1 l2 : list string) :
  fold_right append EmptyString (l1 ++ l2)
  = fold_right append EmptyString l1 ++ fold_right append EmptyString l2.
Proof.
  induction l1 as [| t l1 IH]; cbn [app fold_right]; [reflexivity |].
  now rewrite IH, append_assoc.
Qed.

Lemma joined_snoc (delim : string) (l : list string) (x : string) :
  joined delim (l ++ [x])
  = fold_right append EmptyString (map (fun t => t ++ delim) l) ++ x.
Proof.
  induction l as [| t l IH]; [reflexivity |].
  cbn [app map fold_right].
  change (joined delim (t :: l ++ [x]))
    with (match (l ++ [x])%list with
          | [] => t
          | _ :: _ => t ++ delim ++ joined delim (l ++ [x])
          end).
  destruct (l ++ [x])%list eqn:Happ; [now destruct l |].
  rewrite IH. now rewrite !append_assoc.
Qed.

(** A loop whose body appends the text [f j] leaves the texts appended in
    order. *)
Lemma for_range_texts (f : Z -> string)
    (body : Z -> ostream -> result ostream) (hi : Z) (os0 : ostream) :
  0 <= hi ->
  (forall j os, 0 <= j < hi -> body j os = Ok (os ++ f j)) ->
  for_range 0 hi body os0
  = Ok (os0 ++ fold_right append EmptyString
                 (map (fun k => f (Z.of_nat k))
                    (List.seq 0 (Z.to_nat hi)))).
Proof.
  intros Hhi Hbody.
  destruct (for_range_inv
              (fun j (os : ostream) =>
                 os = os0 ++ fold_right append EmptyString
                            (map (fun k => f (Z.of_nat k))
                               (List.seq 0 (Z.to_nat j))))
              body 0 hi os0 Hhi) as (os & Hos & ->).
  - cbn. now rewrite append_nil_r.
  - intros j os Hj ->. rewrite (Hbody j _ Hj).
    eexists. split; [reflexivity |].
    replace (Z.to_nat (j + 1)) with (Datatypes.S (Z.to_nat j)) by lia.
    rewrite seq_S, map_app, flat_app. cbn [map fold_right Nat.add].
    rewrite Z2Nat.id by lia. now rewrite append_nil_r, append_assoc.
  - exact Hos.
Qed.

Lemma for_range_empty {S : Type} (lo hi : Z)
    (body : Z -> S -> result S) (s : S) :
  hi <= lo -> for_range lo hi body s = Ok s.
Proof.
  intros Hle. unfold for_range.
  now replace (Z.to_nat (hi - lo)) with 0%nat by lia.
Qed.

Lemma for_range_first_undefined {S : Type} (lo hi : Z)
    (body : Z -> S -> result S) (s : S) :
  lo < hi -> body lo s = Undefined -> for_range lo hi body s = Undefined.
Proof.
  intros Hlt Hbody. unfold for_range.
  destruct (Z.to_nat (hi - lo)) as [| n] eqn:Hn; [lia |].
  cbn [for_up]. now rewrite Hbody.
Qed.

Lemma matrix_entry_text_get (m : list ex) (i : Z) :
  0 <= i < Z.of_nat (length m) ->
  exists x, vget m i = Ok x /\ ex_print x 0 = matrix_entry_text ex ex_print m i.
Proof.
  intros Hi. destruct (vget_in_range m i Hi) as (x & Hx & Hget).
  exists x. split; [exact Hget |]. unfold matrix_entry_text. now rewrite Hx.
Qed.

(** The entries of row [r] as the loops of [print] write them, up to the
    text [close] that follows the last one. *)
Lemma matrix_print_row (row col : Z) (m : list ex) (r : Z) (os0 : ostream)
    (last : Z) (close : string) :
  1 <= col -> Z.of_nat (length m) = row * col -> 0 <= r < row ->
  last = r * col + (col - 1) ->
  (os ← for_range 0 (col - 1) (fun c os =>
           x ← vget m (r * col + c);
           Ok (put (put_ex ex ex_print os x) ",")) (put os0 "[[");
   x ← vget m last;
   Ok (put (put_ex ex ex_print os x) ("]]" ++ close)))
  = Ok (os0 ++ matrix_row_text ex ex_print col m r ++ close).
Proof.
  intros Hcol Hlen Hr ->.
  assert (Hbody : forall j os, 0 <= j < col - 1 ->
            (x ← vget m (r * col + j);
             Ok (put (put_ex ex ex_print os x) ","))
            = Ok (os ++ (matrix_entry_text ex ex_print m (r * col + j)
                         ++ ","))).
  { intros j os Hj.
    assert (Hidx : 0 <= r * col + j < Z.of_nat (length m)) by nia.
    destruct (matrix_entry_text_get m (r * col + j) Hidx) as (x & -> & <-).
    cbn. unfold put_ex, print_ex, put. now rewrite append_assoc. }
  rewrite (for_range_texts
             (fun c => matrix_entry_text ex ex_print m (r * col + c) ++ ",")
             _ (col - 1) _ ltac:(lia) Hbody).
  cbn.
  assert (Hidx : 0 <= r * col + (col - 1) < Z.of_nat (length m)) by nia.
  destruct (matrix_entry_text_get m (r * col + (col - 1)) Hidx)
    as (x & -> & Hx).
  cbn. unfold put_ex, print_ex, put, matrix_row_text. rewrite Hx.
  replace (Z.to_nat col) with (Datatypes.S (Z.to_nat (col - 1))) by lia.
  rewrite seq_S, map_app. cbn [map Nat.add].
  rewrite joined_snoc, map_map, Z2Nat.id by lia.
  now rewrite !append_assoc.
Qed.

(** X27. [matrix::print] needs a matrix with at least one row and one
    column.  On such a matrix that holds its [rows * cols] entries it
    writes ["[[ "], the rows separated by [", "], and [" ]]"], each row
    being ["[["], its entries printed in the context 0 and separated by
    [","], and ["]]"], whatever the [upper_precedence]; on a matrix
    without rows or without columns it reads the vector at a negative
    index. *)
Theorem matrix_print_text (row col : Z) (m : list ex) (os : ostream)
    (upper_precedence : Z) :
  0 <= row -> 0 <= col ->
  (1 <= row -> 1 <= col -> Z.of_nat (length m) = row * col ->
   matrix_print ex ex_print row col m os upper_precedence
   = Ok (os ++ matrix_text ex ex_print row col m)) /\
  (row = 0 \/ col = 0 ->
   matrix_print ex ex_print row col m os upper_precedence = Undefined).
Proof.
  intros Hrow0 Hcol0. split.
  - intros Hrow Hcol Hlen. unfold matrix_print.
    rewrite (for_range_texts
               (fun r => matrix_row_text ex ex_print col m r ++ ", ")
               _ (row - 1) _ ltac:(lia)).
    2: { intros r os1 Hr.
         rewrite <- (matrix_print_row row col m r os1
                       (col * (r + 1) - 1) ", ") by (trivial; lia).
         reflexivity. }
    cbn.
    rewrite <- (append_nil_r "]] ]]").
    change ("]] ]]" ++ EmptyString) with ("]]" ++ " ]]").
    rewrite (matrix_print_row row col m (row - 1) _ (row * col - 1) " ]]")
      by (trivial; lia).
    unfold put, matrix_text. f_equal.
    replace (Z.to_nat row) with (Datatypes.S (Z.to_nat (row - 1))) by lia.
    rewrite seq_S, map_app. cbn [map Nat.add].
    rewrite joined_snoc, map_map, Z2Nat.id by lia.
    now rewrite !append_assoc.
  - intros Hempty. unfold matrix_print.
    assert (Hneg : forall i, i < 0 -> vget m i = Undefined).
    { intros i Hi. unfold vget. now destruct (Z.ltb_spec i 0); [| lia]. }
    destruct (Z.eq_dec row 0) as [-> | Hrow].
    + rewrite (for_range_empty 0 (0 - 1)) by lia. cbn.
      destruct (Z_le_gt_dec (col - 1) 0) as [Hle | Hgt].
      * rewrite for_range_empty by lia. cbn. now rewrite Hneg by lia.
      * rewrite for_range_first_undefined; [reflexivity | lia |].
        now rewrite Hneg by lia.
    + assert (col = 0) as -> by lia.
      destruct (Z_le_gt_dec (row - 1) 0) as [Hle | Hgt].
      * rewrite (for_range_empty 0 (row - 1)) by lia. cbn.
        rewrite for_range_empty by lia. cbn. now rewrite Hneg by lia.
      * rewrite for_range_first_undefined; [reflexivity | lia |].
        rewrite for_range_empty by lia. cbn. now rewrite Hneg by lia.
Qed.

End MatrixPrint.

Lemma matrix_print_text_witness :
  Print.matrix_print nat (fun _ _ => "x"%string) 1 2 [0; 1]%nat
    EmptyString 0
  = Ok "[[ [[x,x]] ]]"%string /\
  Print.matrix_print nat (fun _ _ => "x"%string) 0 2 [] EmptyString 0
  = Undefined.
Proof.
  split.
  - apply (proj1 (matrix_print_text nat (fun _ _ => "x"%string) 1 2
                    [0; 1]%nat EmptyString 0 ltac:(lia) ltac:(lia)));
      [lia | lia | reflexivity].
  - apply (proj2 (matrix_print_text nat (fun _ _ => "x"%string) 0 2
                    [] EmptyString 0 ltac:(lia) ltac:(lia))).
    left. reflexivity.
Defined.

(** ** inifcns.cpp: the arguments [lsolve] refuses *)

Section LsolveArguments.

Import Matrix Inifcns.

Context {ex : Type} `{ExOps ex}.

(** A loop on a state it leaves alone raises at the first turn that
    raises. *)
Lemma for_up_throws_at {S : Type} (body : Z -> S -> result S) (s : S)
    (exn : exception) (k : nat) :
  forall n i,
    (k < n)%nat ->
    (forall j, i <= j < i + Z.of_nat k -> body j s = Ok s) ->
    body (i + Z.of_nat k) s = Throw exn ->
    for_up n i body s = Throw exn.
Proof.
  induction k as [| k IH]; intros n i Hk Hbefore Hthrow;
    (destruct n as [| n]; [lia |]); cbn [for_up].
  - rewrite Z.add_0_r in Hthrow. now rewrite Hthrow.
  - rewrite Hbefore by lia. cbn. apply IH; [lia | |].
    + intros j Hj. apply Hbefore. lia.
    + now replace (i + 1 + Z.of_nat k) with (i + Z.of_nat (Datatypes.S k))
        by lia.
Qed.

Lemma for_range_throws_at {S : Type} (body : Z -> S -> result S) (s : S)
    (exn : exception) (lo hi k : Z) :
  lo <= k < hi ->
  (forall j, lo <= j < k -> body j s = Ok s) ->
  body k s = Throw exn ->
  for_range lo hi body s = Throw exn.
Proof.
  intros Hk Hbefore Hthrow. unfold for_range.
  apply (for_up_throws_at body s exn (Z.to_nat (k - lo))); [lia | |].
  - intros j Hj. apply Hbefore. lia.
  - now replace (lo + Z.of_nat (Z.to_nat (k - lo))) with k by lia.
Qed.

Lemma for_range_unchanged {S : Type} (body : Z -> S -> result S) (s : S)
    (lo hi : Z) :
  (forall j, lo <= j < hi -> body j s = Ok s) ->
  for_range lo hi body s = Ok s.
Proof.
  intros Hbody. destruct (Z_le_gt_dec lo hi) as [Hle | Hgt].
  - destruct (for_range_inv (fun _ s' => s' = s) body lo hi s Hle eq_refl)
      as (s' & Hs' & ->); [| exact Hs'].
    intros j s0 Hj ->. exists s. split; [now apply Hbody | reflexivity].
  - unfold for_range. now replace (Z.to_nat (hi - lo)) with 0%nat by lia.
Qed.

(** The elements of a list expression up to [n] all have the attribute
    [flag]. *)
Lemma check_loop_passes (l : ex) (flag : info_flags.t) (n : Z) :
  (forall j, 0 <= j < n ->
     exists e, ex_op l j = Ok e /\ ex_info e flag = true) ->
  for_range 0 n (fun i _ =>
    e ← ex_op l i;
    if negb (ex_info e flag) then Throw invalid_argument else Ok tt) tt
  = Ok tt.
Proof.
  intros Hall. apply for_range_unchanged. intros j Hj.
  destruct (Hall j Hj) as (e & -> & He). cbn. now rewrite He.
Qed.

Lemma check_loop_fails (l : ex) (flag : info_flags.t) (n k : Z) :
  0 <= k < n ->
  (forall j, 0 <= j < k ->
     exists e, ex_op l j = Ok e /\ ex_info e flag = true) ->
  (exists e, ex_op l k = Ok e /\ ex_info e flag = false) ->
  for_range 0 n (fun i _ =>
    e ← ex_op l i;
    if negb (ex_info e flag) then Throw invalid_argument else Ok tt) tt
  = Throw invalid_argument.
Proof.
  intros Hk Hbefore (e & He & Hflag).
  apply (for_range_throws_at _ tt invalid_argument 0 n k Hk).
  - intros j Hj. destruct (Hbefore j Hj) as (e' & -> & He'). cbn.
    now rewrite He'.
  - rewrite He. cbn. now rewrite Hflag.
Qed.

(** X28. [lsolve] raises [invalid_argument], before it builds any matrix,
    when the first argument is neither an equation nor a list; when it
    is an equation and the second argument is not a symbol; when it is
    a list and some element, all those before it being equations, is not
    an equation; and when it is a list of equations and the second
    argument is not a list, or is a list in which some element, all
    those before it being symbols, is not a symbol. *)
Theorem lsolve_argument_errors (eqns symbols : ex) :
  (ex_info eqns info_flags.relation_equal = true ->
   ex_info symbols info_flags.symbol = false ->
   lsolve eqns symbols = Throw invalid_argument) /\
  (ex_info eqns info_flags.relation_equal = false ->
   (ex_info eqns info_flags.list = false ->
    lsolve eqns symbols = Throw invalid_argument) /\
   (ex_info eqns info_flags.list = true ->
    (forall k,
       0 <= k < ex_nops eqns ->
       (forall j, 0 <= j < k ->
          exists e, ex_op eqns j = Ok e /\
                    ex_info e info_flags.relation_equal = true) ->
       (exists e, ex_op eqns k = Ok e /\
                  ex_info e info_flags.relation_equal = false) ->
       lsolve eqns symbols = Throw invalid_argument) /\
    ((forall j, 0 <= j < ex_nops eqns ->
        exists e, ex_op eqns j = Ok e /\
                  ex_info e info_flags.relation_equal = true) ->
     (ex_info symbols info_flags.list = false ->
      lsolve eqns symbols = Throw invalid_argument) /\
     (ex_info symbols info_flags.list = true ->
      forall k,
        0 <= k < ex_nops symbols ->
        (forall j, 0 <= j < k ->
           exists e, ex_op symbols j = Ok e /\
                     ex_info e info_flags.symbol = true) ->
        (exists e, ex_op symbols k = Ok e /\
                   ex_info e info_flags.symbol = false) ->
        lsolve eqns symbols = Throw invalid_argument)))).
Proof.
  split.
  - intros Heq Hsym. unfold lsolve. now rewrite Heq, Hsym.
  - intros Hneq. unfold lsolve, lsolve_lists, lsolve_build. rewrite Hneq.
    split.
    + intros Hlist. now rewrite Hlist.
    + intros Hlist. rewrite Hlist. cbn [negb]. split.
      * intros k Hk Hbefore Hbad.
        now rewrite (check_loop_fails eqns _ _ k Hk Hbefore Hbad).
      * intros Hall. rewrite (check_loop_passes eqns _ _ Hall). cbn.
        split.
        -- intros Hslist. now rewrite Hslist.
        -- intros Hslist k Hk Hbefore Hbad. rewrite Hslist. cbn [negb].
           now rewrite (check_loop_fails symbols _ _ k Hk Hbefore Hbad).
Qed.

End LsolveArguments.

Lemma lsolve_argument_errors_witness :
  Inifcns.lsolve
    (Sym.lst [Sym.relational (Sym.symbol 0) (Sym.numeric 1); Sym.symbol 1])
    (Sym.lst [Sym.symbol 0])
  = Throw invalid_argument.
Proof.
  destruct (lsolve_argument_errors
              (Sym.lst [Sym.relational (Sym.symbol 0) (Sym.numeric 1);
                        Sym.symbol 1])
              (Sym.lst [Sym.symbol 0])) as (_ & Hlist).
  destruct (Hlist eq_refl) as (_ & Hchecks).
  destruct (Hchecks eq_refl) as (Hfirst & _).
  apply (Hfirst 1).
  - cbn. lia.
  - intros j Hj. assert (j = 0) as -> by lia.
    eexists. split; reflexivity.
  - eexists. split; reflexivity.
Defined.

(** ** matrix.cpp: the determinant of a matrix with a zero column *)

Section DeterminantZeroColumn.

Context {ex : Type} `{ExOps ex}.

Lemma at_ok_lookup (M : Matrix.matrix ex) (r c : Z) (x : ex) :
  0 <= r < Matrix.row M -> 0 <= c < Matrix.col M ->
  Matrix.at_ M r c = Ok x ->
  Matrix.m M !! Z.to_nat (r * Matrix.col M + c) = Some x.
Proof.
  intros Hr Hc. rewrite at_in_range by trivial. unfold vget.
  destruct (r * Matrix.col M + c <? 0); [discriminate |].
  destruct (Matrix.m M !! Z.to_nat (r * Matrix.col M + c));
    [congruence | discriminate].
Qed.

Lemma pivot_zero_column (M : Matrix.matrix ex) (ro : Z) :
  Matrix.wf_matrix M -> 0 <= ro < Matrix.row M -> ro < Matrix.col M ->
  (forall r, ro <= r < Matrix.row M -> Matrix.zero_in_column M ro r) ->
  Matrix.pivot M ro = Ok (-1, M).
Proof.
  intros Hwf Hro Hroc Hzero. pose proof Hwf as (Hr & Hc & Hlen).
  destruct (pivot_search_spec M ro Hwf ltac:(lia)
              (Z.to_nat (Matrix.row M - ro)) ro ltac:(lia) ltac:(lia))
    as (k & Hsearch & Hcase).
  unfold Matrix.pivot. rewrite Hsearch. cbn.
  assert (Hk : ro <= k < Matrix.row M)
    by (destruct Hcase as [(Hk & _) | (-> & _)]; lia).
  destruct (Hzero k Hk) as (x & Hx & Hz).
  assert (Hk0 : 0 <= k * Matrix.col M + ro) by nia.
  rewrite (vget_lookup _ _ _ Hk0 Hx). cbn. now rewrite Hz.
Qed.

(** X29. [determinant] raises [logic_error] on a matrix that is not
    square.  On a square matrix of numbers, with at least one row, that
    holds its entries and whose first column is zero, it returns zero:
    the first search for a pivot finds none, and the elimination stops
    there; neither the flag [normalized] nor the symbolic algorithms play
    a part. *)
Theorem determinant_zero_column (fuel : nat) (M : Matrix.matrix ex)
    (normalized : bool) :
  (Matrix.row M <> Matrix.col M ->
   Matrix.determinant fuel M normalized = Some (Throw logic_error)) /\
  (Matrix.wf_matrix M -> Matrix.row M = Matrix.col M -> 1 <= Matrix.row M ->
   (forall x, In x (Matrix.m M) -> ex_info x info_flags.numeric = true) ->
   (forall r, 0 <= r < Matrix.row M ->
      exists x, Matrix.at_ M r 0 = Ok x /\ ex_is_zero x = true) ->
   Matrix.determinant fuel M normalized = Some (Ok exZERO)).
Proof.
  split.
  - intros Hne. unfold Matrix.determinant.
    now destruct (Z.eqb_spec (Matrix.row M) (Matrix.col M)).
  - intros Hwf Hsquare Hrow Hnum Hzero. unfold Matrix.determinant.
    rewrite Hsquare, Z.eqb_refl. cbn [negb].
    destruct (existsb _ (Matrix.m M)) eqn:Hex.
    + apply existsb_exists in Hex. destruct Hex as (x & Hin & Hx).
      rewrite (Hnum x Hin) in Hx. discriminate.
    + f_equal. unfold Matrix.determinant_numeric, Matrix.rows.
      destruct (Z.to_nat (Matrix.row M)) as [| n] eqn:Hn; [lia |].
      cbn [Matrix.determinant_numeric_loop].
      rewrite (pivot_zero_column (Matrix.matrix_copy M) 0).
      * reflexivity.
      * destruct Hwf as (Hr & Hc & Hlen). repeat split; cbn; trivial.
      * cbn. lia.
      * cbn. lia.
      * intros r Hr. cbn in Hr. destruct (Hzero r Hr) as (x & Hx & Hz).
        exists x. split; [| exact Hz]. cbn.
        apply at_ok_lookup in Hx; [exact Hx | lia | lia].
Qed.

End DeterminantZeroColumn.

Lemma determinant_zero_column_witness :
  Matrix.determinant 0
    (Matrix.matrix_of 2 2
       [Sym.numeric 0; Sym.numeric 3; Sym.numeric 0; Sym.numeric 5]) false
  = Some (Ok (Sym.numeric 0)).
Proof.
  destruct (determinant_zero_column 0
              (Matrix.matrix_of 2 2
                 [Sym.numeric 0; Sym.numeric 3; Sym.numeric 0; Sym.numeric 5])
              false) as (_ & Hzero).
  apply Hzero.
  - repeat split; cbn; lia.
  - reflexivity.
  - cbn. lia.
  - intros x Hin. cbn in Hin.
    destruct Hin as [<- | [<- | [<- | [<- | []]]]]; reflexivity.
  - intros r Hr. cbn in Hr.
    assert (r = 0 \/ r = 1) as [-> | ->] by lia;
      eexists; split; reflexivity.
Defined.

(** ** archive.cpp: a sub-expression added to a node is found again *)

Section NodeChildren.

Import Archive.

Lemma find_node_property_last (pr : property) (a : archive_atom)
    (ps : list property) :
  ptype pr = property_type_code PTYPE_NODE -> pname pr = a ->
  forall found,
    0 <= found -> found + Z.of_nat (length ps) < 2 ^ 32 ->
    find_node_property (ps ++ [pr]) a
      (found
       + Z.of_nat
           (length
              (List.filter
                 (fun p => (ptype p =? property_type_code PTYPE_NODE)
                           && (pname p =? a)) ps)))
      found
    = Some pr.
Proof.
  intros Hty Hnm.
  set (f := fun p => (ptype p =? property_type_code PTYPE_NODE)
                     && (pname p =? a)).
  induction ps as [| p ps IH]; intros found Hfound Hlen;
    cbn [app find_node_property List.filter length].
  - rewrite Hty, Hnm, !Z.eqb_refl. cbn [andb]. rewrite Z.add_0_r.
    now rewrite Z.eqb_refl.
  - cbn [length] in Hlen. fold (f p).
    destruct (f p); cbn [length].
    + set (c := length (List.filter f ps)).
      destruct (Z.eqb_spec found (found + Z.of_nat (Datatypes.S c))); [lia |].
      rewrite wrap_small by lia.
      replace (found + Z.of_nat (Datatypes.S c))
        with (found + 1 + Z.of_nat c) by lia.
      apply IH; lia.
    + apply IH; lia.
Qed.

(** X30. After [add_ex] has added a sub-expression to a node under a
    name, [find_ex_node] with that name and the number of the node's
    earlier sub-expressions of that name as index returns a node of the
    archive that carries the pointer of the sub-expression, provided the
    tables of the archive and the properties of the node can be indexed
    by an [unsigned]. *)
Theorem add_ex_find_ex_node (ar : archive) (n : archive_node) (nm : string)
    (value : aex) :
  fits_unsigned
    (snd (run_hook make_archive_node [call_add_ex nm value] n ar)) ->
  Z.of_nat (length (props n)) < 2 ^ 32 ->
  exists x,
    find_ex_node
      (snd (run_hook make_archive_node [call_add_ex nm value] n ar))
      (fst (run_hook make_archive_node [call_add_ex nm value] n ar)) nm
      (Z.of_nat
         (length
            (List.filter
               (fun p =>
                  (ptype p =? property_type_code PTYPE_NODE)
                  && (pname p
                      =? fst (atomize
                                (snd (run_hook make_archive_node
                                        [call_add_ex nm value] n ar)) nm)))
               (props n))))
    = (Ok x, snd (run_hook make_archive_node [call_add_ex nm value] n ar)) /\
    has_expression x = true /\
    Handle.bp (e x) = aex_bp value.
Proof.
  cbn [run_hook].
  destruct (make_archive_node_node ar value) as [Hchild Hbp].
  destruct (make_archive_node ar value) as [child ar1]. cbn [fst] in *.
  pose proof (add_node_grows ar1 child) as Hg2.
  pose proof (add_node_spec ar1 child) as Hadd.
  destruct (add_node ar1 child) as [id ar2]. cbn [fst snd] in *.
  pose proof (atomize_grows ar2 nm) as Hg3.
  pose proof (atomize_again ar2 nm) as Hagain.
  pose proof (atomize_nodes ar2 nm) as Hnodes3.
  destruct (atomize ar2 nm) as [a ar3]. cbn [fst snd] in *.
  intros (Hatoms & _ & Hnodes) Hprops.
  destruct (grows_fits _ _ Hg3 Hatoms Hnodes) as [Hatoms2 Hnodes2].
  destruct (grows_fits _ _ Hg2 Hatoms2 Hnodes2) as [_ Hnodes1].
  destruct (Hadd Hnodes1) as (k & x & -> & Hk & _ & _ & Hcase).
  exists x. unfold find_ex_node. rewrite Hagain. cbn [fst props push_prop].
  pose proof (find_node_property_last
                (mk_property (property_type_code PTYPE_NODE) a (Z.of_nat k))
                a (props n) eq_refl eq_refl 0 ltac:(lia) ltac:(lia))
    as Hfind.
  rewrite Z.add_0_l in Hfind. rewrite Hfind. cbn [pvalue].
  rewrite (get_node_lookup ar3 k x) by (rewrite Hnodes3; exact Hk).
  split; [reflexivity |].
  destruct Hcase as [[Hsame _] | (-> & _)].
  - apply has_same_ex_as_true in Hsame. destruct Hsame as (Hx & _ & ->).
    split; [exact Hx | exact Hbp].
  - split; [exact Hchild | exact Hbp].
Qed.

Lemma add_ex_find_ex_node_witness :
  exists x,
    fst (find_ex_node
           (snd (run_hook make_archive_node
                   [call_add_ex "op"%string (AEx 9%positive [])]
                   (mk_archive_node [] true (Handle.mk_ex 7%positive))
                   empty_archive))
           (fst (run_hook make_archive_node
                   [call_add_ex "op"%string (AEx 9%positive [])]
                   (mk_archive_node [] true (Handle.mk_ex 7%positive))
                   empty_archive))
           "op"%string 0) = Ok x /\
    Handle.bp (e x) = 9%positive.
Proof.
  destruct (add_ex_find_ex_node empty_archive
              (mk_archive_node [] true (Handle.mk_ex 7%positive))
              "op"%string (AEx 9%positive []))
    as (x & Hfind & _ & Hbp).
  - repeat split; vm_compute; reflexivity.
  - cbn. lia.
  - exists x. split; [| exact Hbp]. exact (f_equal fst Hfind).
Defined.

End NodeChildren.
